(** * Go-Script front end: lexer, alias table, AST and parser

    A shallow embedding of the Go-Script transpiler's front end
    (packages [lexer], [stdlib], [ast] and [parser]) together with the
    properties the specification states about it.

    Modelling conventions.
    - A Go [string] is a sequence of bytes: [String.string], whose
      characters ([ascii]) are exactly the 8-bit bytes.
    - Go's [int] is 64 bits wide.  Indices into the input ([position],
      [readPosition]) only ever grow from zero and are modelled as [nat];
      line and column counters and the position fields of a token, which are
      computed by subtraction, are modelled as [Z].  No counter can wrap
      around before 2^62 characters have been read, so the wrap-around is
      not written out.
    - A run-time panic of Go (a slice expression out of range) is an
      explicit outcome: the lexer returns [None] in place of a token, the
      parser returns [Panic].  The lexer is a mutable object, so the state
      reached at the moment of the panic is returned as well.
    - A pointer that may be [nil] is an [option]; an interface value is an
      [option] of a sum of its concrete (pointer) types, so that a nil
      pointer stored in an interface is different from a nil interface, as
      in Go. *)

From Stdlib Require Import Bool Arith ZArith List String Ascii Lia
  DecimalString.
Import ListNotations.

Set Warnings "-register-all".
Local Open Scope string_scope.

(** ** Bytes and strings as Go sees them *)

Definition NUL : ascii := Ascii.zero.
Definition LF : ascii := "010"%char.
Definition TAB : ascii := "009"%char.
Definition CR : ascii := "013"%char.
Definition DQUOTE : ascii := "034"%char.
Definition SQUOTE : ascii := "039"%char.
Definition BACKSLASH : ascii := "092"%char.

(** [s[i]] when [i] is in range; the callers test the range first. *)
Definition byte_at (s : string) (i : nat) : ascii :=
  match String.get i s with
  | Some c => c
  | None => NUL
  end.

(** The slice expression [s[lo:hi]]: Go panics unless [lo <= hi <= len(s)]. *)
Definition slice (s : string) (lo hi : nat) : option string :=
  if (lo <=? hi)%nat && (hi <=? String.length s)%nat
  then Some (String.substring lo (hi - lo) s)
  else None.

(** The conversion [string(b)] of a byte [b]: the UTF-8 encoding of the code
    point [b], one byte below 128 and two bytes from 128 on. *)
Definition string_of_byte (c : ascii) : string :=
  let n := nat_of_ascii c in
  if (n <? 128)%nat then String c EmptyString
  else String (ascii_of_nat (192 + n / 64))
         (String (ascii_of_nat (128 + n mod 64)) EmptyString).

Definition len (s : string) : Z := Z.of_nat (String.length s).

(** [strings.HasPrefix(s, prefix)] *)
Definition HasPrefix (s prefix : string) : bool := String.prefix prefix s.

(** [%d] of an integer: its decimal digits, with a minus sign when it is
    negative. *)
Definition decimal (n : Z) : string := NilZero.string_of_int (Z.to_int n).

(** ** Package lexer *)

Module lexer.

Inductive TokenType : Set :=
  (* Special tokens *)
  | ILLEGAL | EOF | COMMENT
  (* Literals *)
  | IDENT | INT | FLOAT | STRING | CHAR
  (* Keywords *)
  | AND | OR | NOT | IF_ | ELIF | ELSE | FOR | WHILE | FUNC | RETURN
  | IMPORT | FROM | STRUCT | INTERFACE | VAR | CONST | TRUE | FALSE | NIL
  | IN | RANGE | BREAK | CONTINUE | DEFER | GO | CHAN | SELECT | CASE
  | DEFAULT | SWITCH | TYPE | PACKAGE
  (* Operators *)
  | ASSIGN | WALRUS | PLUS | MINUS | MULTIPLY | DIVIDE | MODULO | POWER
  | EQ | NOT_EQ | LT | LT_EQ | GT | GT_EQ
  | PLUS_EQ | MINUS_EQ | MULT_EQ | DIV_EQ | MOD_EQ
  | BITWISE_AND | BITWISE_OR | BITWISE_XOR | LEFT_SHIFT | RIGHT_SHIFT
  | BIT_CLEAR | INCREMENT | DECREMENT
  (* Delimiters *)
  | COMMA | SEMICOLON | COLON | DOT | ARROW | CHANNEL
  (* Brackets *)
  | LPAREN | RPAREN | LBRACKET | RBRACKET | LBRACE | RBRACE
  (* Special *)
  | NEWLINE | INDENT | DEDENT.

Definition TokenType_eq_dec (a b : TokenType) : {a = b} + {a <> b}.
Proof. decide equality. Defined.

Definition TokenType_eqb (a b : TokenType) : bool :=
  if TokenType_eq_dec a b then true else false.

Record Token : Set := mkToken {
  Type_ : TokenType;
  Literal : string;
  Line : Z;
  Column : Z;
  Position : Z
}.

(** The zero value of [Token]: [ILLEGAL] is the constant 0 of [TokenType]. *)
Definition zeroToken : Token := mkToken ILLEGAL EmptyString 0 0 0.

Definition TokenTypeString (t : TokenType) : string :=
  match t with
  | ILLEGAL => "ILLEGAL" | EOF => "EOF" | COMMENT => "COMMENT"
  | IDENT => "IDENT" | INT => "INT" | FLOAT => "FLOAT" | STRING => "STRING"
  | CHAR => "CHAR"
  | AND => "AND" | OR => "OR" | NOT => "NOT" | IF_ => "IF" | ELIF => "ELIF"
  | ELSE => "ELSE" | FOR => "FOR" | WHILE => "WHILE" | FUNC => "FUNC"
  | RETURN => "RETURN" | IMPORT => "IMPORT" | FROM => "FROM"
  | STRUCT => "STRUCT" | INTERFACE => "INTERFACE" | VAR => "VAR"
  | CONST => "CONST" | TRUE => "TRUE" | FALSE => "FALSE" | NIL => "NIL"
  | IN => "IN" | RANGE => "RANGE" | BREAK => "BREAK"
  | CONTINUE => "CONTINUE" | DEFER => "DEFER" | GO => "GO" | CHAN => "CHAN"
  | SELECT => "SELECT" | CASE => "CASE" | DEFAULT => "DEFAULT"
  | SWITCH => "SWITCH" | TYPE => "TYPE" | PACKAGE => "PACKAGE"
  | ASSIGN => "ASSIGN" | WALRUS => "WALRUS" | PLUS => "PLUS"
  | MINUS => "MINUS" | MULTIPLY => "MULTIPLY" | DIVIDE => "DIVIDE"
  | MODULO => "MODULO" | POWER => "POWER" | EQ => "EQ" | NOT_EQ => "NOT_EQ"
  | LT => "LT" | LT_EQ => "LT_EQ" | GT => "GT" | GT_EQ => "GT_EQ"
  | PLUS_EQ => "PLUS_EQ" | MINUS_EQ => "MINUS_EQ" | MULT_EQ => "MULT_EQ"
  | DIV_EQ => "DIV_EQ" | MOD_EQ => "MOD_EQ"
  | BITWISE_AND => "BITWISE_AND" | BITWISE_OR => "BITWISE_OR"
  | BITWISE_XOR => "BITWISE_XOR" | LEFT_SHIFT => "LEFT_SHIFT"
  | RIGHT_SHIFT => "RIGHT_SHIFT" | BIT_CLEAR => "BIT_CLEAR"
  | INCREMENT => "INCREMENT" | DECREMENT => "DECREMENT"
  | COMMA => "COMMA" | SEMICOLON => "SEMICOLON" | COLON => "COLON"
  | DOT => "DOT" | ARROW => "ARROW" | CHANNEL => "CHANNEL"
  | LPAREN => "LPAREN" | RPAREN => "RPAREN" | LBRACKET => "LBRACKET"
  | RBRACKET => "RBRACKET" | LBRACE => "LBRACE" | RBRACE => "RBRACE"
  | NEWLINE => "NEWLINE" | INDENT => "INDENT" | DEDENT => "DEDENT"
  end.

(** [Keywords]: a Go map with pairwise distinct keys, as an association list. *)
Definition Keywords : list (string * TokenType) :=
  [ ("and", AND); ("or", OR); ("not", NOT); ("if", IF_); ("elif", ELIF);
    ("else", ELSE); ("for", FOR); ("while", WHILE); ("func", FUNC);
    ("return", RETURN); ("import", IMPORT); ("from", FROM);
    ("struct", STRUCT); ("interface", INTERFACE); ("var", VAR);
    ("const", CONST); ("true", TRUE); ("false", FALSE); ("nil", NIL);
    ("in", IN); ("range", RANGE); ("break", BREAK); ("continue", CONTINUE);
    ("defer", DEFER); ("go", GO); ("chan", CHAN); ("select", SELECT);
    ("case", CASE); ("default", DEFAULT); ("switch", SWITCH);
    ("type", TYPE); ("package", PACKAGE) ].

Fixpoint lookup {A : Type} (m : list (string * A)) (k : string) : option A :=
  match m with
  | [] => None
  | (k', v) :: m' => if String.eqb k' k then Some v else lookup m' k
  end.

Definition LookupIdent (ident : string) : TokenType :=
  match lookup Keywords ident with
  | Some tok => tok
  | None => IDENT
  end.

Record Lexer : Set := mkLexer {
  input : string;
  position : nat;      (* current position in input (points to current char) *)
  readPosition : nat;  (* current reading position in input (after current char) *)
  ch : ascii;          (* current char under examination *)
  line : Z;
  column : Z;
  indentStack : list Z
}.

Definition readChar (l : Lexer) : Lexer :=
  let c := if (String.length (input l) <=? readPosition l)%nat
           then NUL
           else byte_at (input l) (readPosition l) in
  let newline := Ascii.eqb c LF in
  {| input := input l;
     position := readPosition l;
     readPosition := S (readPosition l);
     ch := c;
     line := if newline then (line l + 1)%Z else line l;
     column := if newline then 0%Z else (column l + 1)%Z;
     indentStack := indentStack l |}.

Definition New (inp : string) : Lexer :=
  readChar {| input := inp; position := 0; readPosition := 0; ch := NUL;
              line := 1; column := 0; indentStack := [0%Z] |}.

Definition peekChar (l : Lexer) : ascii :=
  if (String.length (input l) <=? readPosition l)%nat then NUL
  else byte_at (input l) (readPosition l).

Definition isLetter (c : ascii) : bool :=
  let n := nat_of_ascii c in
  ((97 <=? n) && (n <=? 122) || (65 <=? n) && (n <=? 90)
   || Ascii.eqb c "_" || (127 <? n))%nat%bool.

Definition isDigit (c : ascii) : bool :=
  let n := nat_of_ascii c in ((48 <=? n) && (n <=? 57))%nat.

Definition isAlphaNumeric (c : ascii) : bool := isLetter c || isDigit c.

(** The loops of the lexer all have the shape [for cond(l.ch) { l.readChar() }].
    Each iteration reads one character and no condition holds of the
    end-of-input character, so [String.length (input l)] iterations are never
    exceeded (lemma [scan_exit] below); the bound makes the loop a structural
    recursion. *)
Fixpoint scan_loop (cond : ascii -> bool) (n : nat) (l : Lexer) : Lexer :=
  match n with
  | O => l
  | S n' => if cond (ch l) then scan_loop cond n' (readChar l) else l
  end.

Definition scan (cond : ascii -> bool) (l : Lexer) : Lexer :=
  scan_loop cond (S (String.length (input l))) l.

Definition isBlank (c : ascii) : bool :=
  Ascii.eqb c " " || Ascii.eqb c TAB || Ascii.eqb c CR.

Definition skipWhitespace (l : Lexer) : Lexer := scan isBlank l.

Definition readIdentifier (l : Lexer) : option string * Lexer :=
  let pos := position l in
  let l' := scan isAlphaNumeric l in
  (slice (input l') pos (position l'), l').

Definition readNumber (l : Lexer) : option (string * TokenType) * Lexer :=
  let pos := position l in
  let l1 := scan isDigit l in
  (* Check for decimal point *)
  let '(ty2, l2) :=
    if Ascii.eqb (ch l1) "." && isDigit (peekChar l1)
    then (FLOAT, scan isDigit (readChar l1))
    else (INT, l1) in
  (* Check for scientific notation *)
  let '(ty3, l3) :=
    if Ascii.eqb (ch l2) "e" || Ascii.eqb (ch l2) "E"
    then
      let l2a := readChar l2 in
      let l2b := if Ascii.eqb (ch l2a) "+" || Ascii.eqb (ch l2a) "-"
                 then readChar l2a else l2a in
      (FLOAT, scan isDigit l2b)
    else (ty2, l2) in
  (match slice (input l3) pos (position l3) with
   | Some s => Some (s, ty3)
   | None => None
   end, l3).

(** The loop of [readString]: read a character, stop on the delimiter or the
    end of input, skip the character after a backslash.  Every iteration
    reads at least one character. *)
Fixpoint readString_loop (delimiter : ascii) (n : nat) (l : Lexer) : Lexer :=
  match n with
  | O => l
  | S n' =>
    let l1 := readChar l in
    if Ascii.eqb (ch l1) delimiter || Ascii.eqb (ch l1) NUL then l1
    else if Ascii.eqb (ch l1) BACKSLASH
         then readString_loop delimiter n' (readChar l1)
         else readString_loop delimiter n' l1
  end.

Definition readString (delimiter : ascii) (l : Lexer) : option string * Lexer :=
  let pos := S (position l) in
  let l' := readString_loop delimiter (S (String.length (input l))) l in
  (slice (input l') pos (position l'), l').

Definition isCommentBody (c : ascii) : bool :=
  negb (Ascii.eqb c LF) && negb (Ascii.eqb c NUL).

Definition readComment (l : Lexer) : option string * Lexer :=
  let pos := position l in
  let l' := scan isCommentBody l in
  (slice (input l') pos (position l'), l').

Definition newToken (tokenType : TokenType) (c : ascii)
    (line column : Z) (position : nat) : Token :=
  mkToken tokenType (string_of_byte c) line column (Z.of_nat position).

(** A one-character token: built at the current character, which the final
    [l.readChar()] of [NextToken] then leaves behind. *)
Definition single (t : TokenType) (l : Lexer) : option Token * Lexer :=
  (Some (newToken t (ch l) (line l) (column l) (position l)), readChar l).

(** A two-character token: [ch := l.ch; l.readChar()], the token built from
    the state after that read, then the final [l.readChar()]. *)
Definition double (t : TokenType) (l : Lexer) : option Token * Lexer :=
  let c := ch l in
  let l1 := readChar l in
  (Some (mkToken t (string_of_byte c ++ string_of_byte (ch l1))
           (line l1) (column l1 - 1) (Z.of_nat (position l1) - 1)),
   readChar l1).

(** A quoted literal ([STRING] or [CHAR]). *)
Definition quoted (t : TokenType) (delimiter : ascii) (l : Lexer)
    : option Token * Lexer :=
  match readString delimiter l with
  | (Some s, l1) =>
      (Some (mkToken t s (line l1) (column l1) (Z.of_nat (position l1))),
       readChar l1)
  | (None, l1) => (None, l1)
  end.

(** [a == b] on bytes. *)
Definition eqc (a b : ascii) : bool := Ascii.eqb a b.

Definition NextToken (l0 : Lexer) : option Token * Lexer :=
  let l := skipWhitespace l0 in
  let c := ch l in
  let p := peekChar l in
  if eqc c "=" then
    if eqc p "=" then double EQ l else single ASSIGN l
  else if eqc c "+" then
    if eqc p "=" then double PLUS_EQ l
    else if eqc p "+" then double INCREMENT l
    else single PLUS l
  else if eqc c "-" then
    if eqc p "=" then double MINUS_EQ l
    else if eqc p "-" then double DECREMENT l
    else if eqc p ">" then double ARROW l
    else single MINUS l
  else if eqc c "*" then
    if eqc p "=" then double MULT_EQ l
    else if eqc p "*" then double POWER l
    else single MULTIPLY l
  else if eqc c "/" then
    if eqc p "=" then double DIV_EQ l else single DIVIDE l
  else if eqc c "%" then
    if eqc p "=" then double MOD_EQ l else single MODULO l
  else if eqc c "!" then
    if eqc p "=" then double NOT_EQ l else single ILLEGAL l
  else if eqc c "<" then
    if eqc p "=" then double LT_EQ l
    else if eqc p "<" then double LEFT_SHIFT l
    else if eqc p "-" then double CHANNEL l
    else single LT l
  else if eqc c ">" then
    if eqc p "=" then double GT_EQ l
    else if eqc p ">" then double RIGHT_SHIFT l
    else single GT l
  else if eqc c "&" then
    if eqc p "^" then double BIT_CLEAR l else single BITWISE_AND l
  else if eqc c "|" then single BITWISE_OR l
  else if eqc c "^" then single BITWISE_XOR l
  else if eqc c ":" then
    if eqc p "=" then double WALRUS l else single COLON l
  else if eqc c ";" then single SEMICOLON l
  else if eqc c "," then single COMMA l
  else if eqc c "." then single DOT l
  else if eqc c "(" then single LPAREN l
  else if eqc c ")" then single RPAREN l
  else if eqc c "[" then single LBRACKET l
  else if eqc c "]" then single RBRACKET l
  else if eqc c "{" then single LBRACE l
  else if eqc c "}" then single RBRACE l
  else if eqc c DQUOTE then quoted STRING DQUOTE l
  else if eqc c SQUOTE then quoted CHAR SQUOTE l
  else if eqc c "#" then
    match readComment l with
    | (Some s, l1) =>
        (* Don't advance past comment *)
        (Some (mkToken COMMENT s (line l1) (column l1) (Z.of_nat (position l1))), l1)
    | (None, l1) => (None, l1)
    end
  else if eqc c LF then single NEWLINE l
  else if eqc c NUL then
    (Some (mkToken EOF EmptyString (line l) (column l) (Z.of_nat (position l))),
     readChar l)
  else if isLetter c then
    match readIdentifier l with
    | (Some s, l1) =>
        (* Don't advance past identifier *)
        (Some (mkToken (LookupIdent s) s (line l1) (column l1 - len s)
                 (Z.of_nat (position l1) - len s)), l1)
    | (None, l1) => (None, l1)
    end
  else if isDigit c then
    match readNumber l with
    | (Some (s, ty), l1) =>
        (* Don't advance past number *)
        (Some (mkToken ty s (line l1) (column l1 - len s)
                 (Z.of_nat (position l1) - len s)), l1)
    | (None, l1) => (None, l1)
    end
  else single ILLEGAL l.

(** The first [n] tokens of a lexer, as a caller that keeps calling
    [NextToken] sees them; a panic ends the sequence. *)
Fixpoint tokens (n : nat) (l : Lexer) : list Token :=
  match n with
  | O => []
  | S n' =>
    match NextToken l with
    | (Some t, l') => t :: tokens n' l'
    | (None, _) => []
    end
  end.

(** The lexer after [n] calls of [NextToken]. *)
Fixpoint after (n : nat) (l : Lexer) : Lexer :=
  match n with
  | O => l
  | S n' => after n' (snd (NextToken l))
  end.







(** [Token.String]: [%q] of the literal is left to the caller's [quote]. *)

End lexer.

(** ** Package stdlib: the import alias table *)

Module stdlib.

(** [ImportAliases]: a Go map with pairwise distinct keys. *)
Definition ImportAliases : list (string * string) :=
  [ ("json", "encoding/json"); ("base64", "encoding/base64");
    ("hex", "encoding/hex"); ("xml", "encoding/xml"); ("csv", "encoding/csv");
    ("fs", "io/fs"); ("io", "io"); ("ioutil", "io/ioutil"); ("path", "path");
    ("filepath", "path/filepath"); ("os", "os");
    ("http", "net/http"); ("url", "net/url"); ("net", "net");
    ("mail", "net/mail");
    ("crypto", "crypto"); ("md5", "crypto/md5"); ("sha1", "crypto/sha1");
    ("sha256", "crypto/sha256"); ("rand", "crypto/rand"); ("tls", "crypto/tls");
    ("time", "time");
    ("strings", "strings"); ("strconv", "strconv"); ("regexp", "regexp");
    ("math", "math"); ("big", "math/big"); ("rand_math", "math/rand");
    ("gzip", "compress/gzip"); ("zip", "archive/zip"); ("tar", "archive/tar");
    ("sql", "database/sql");
    ("log", "log"); ("fmt", "fmt");
    ("sync", "sync"); ("context", "context");
    ("reflect", "reflect"); ("runtime", "runtime");
    ("testing", "testing");
    ("sort", "sort"); ("heap", "container/heap"); ("list", "container/list");
    ("ring", "container/ring");
    ("image", "image"); ("color", "image/color"); ("png", "image/png");
    ("jpeg", "image/jpeg"); ("gif", "image/gif");
    ("template", "text/template"); ("html_template", "html/template");
    ("html", "html"); ("scanner", "text/scanner");
    ("tabwriter", "text/tabwriter");
    ("exec", "os/exec"); ("signal", "os/signal"); ("user", "os/user");
    ("bytes", "bytes"); ("bufio", "bufio");
    ("errors", "errors");
    ("unicode", "unicode"); ("utf8", "unicode/utf8");
    ("utf16", "unicode/utf16") ].

(** The actual Go package path of an alias; the name itself when there is no
    alias. *)
Definition GetRealPackagePath (alias : string) : string :=
  match lexer.lookup ImportAliases alias with
  | Some realPath => realPath
  | None => alias
  end.

(** Common standard library prefixes *)
Definition stdPrefixes : list string :=
  [ "archive/"; "bufio"; "builtin"; "bytes"; "compress/"; "container/";
    "context"; "crypto/"; "database/"; "debug/"; "embed"; "encoding/";
    "errors"; "expvar"; "flag"; "fmt"; "go/"; "hash/"; "html/"; "image/";
    "index/"; "io/"; "log/"; "math/"; "mime/"; "net/"; "os/"; "path/";
    "plugin"; "reflect"; "regexp"; "runtime/"; "sort"; "strconv"; "strings";
    "sync/"; "syscall"; "testing/"; "text/"; "time"; "unicode/"; "unsafe" ].

(** Direct matches *)
Definition directMatches : list string :=
  [ "bufio"; "builtin"; "bytes"; "context"; "embed"; "errors"; "expvar";
    "flag"; "fmt"; "plugin"; "reflect"; "regexp"; "sort"; "strconv";
    "strings"; "syscall"; "time"; "unsafe" ].

(** [IsStandardLibrary] checks if a package is part of Go's standard
    library: the two loops of the source, one after the other. *)
Definition IsStandardLibrary (packagePath : string) : bool :=
  if existsb (fun prefix => HasPrefix packagePath prefix) stdPrefixes then true
  else if existsb (fun m => String.eqb packagePath m) directMatches then true
  else false.

End stdlib.

(** ** Package ast *)

Module ast.

(** The payload of a [Literal] ([interface{}] in the source): an [int64], a
    [float64], a [string], a [bool] or [nil].  A [float64] is represented by
    the decimal number [mantissa * 10 ^ exponent] that [strconv.ParseFloat]
    rounded to obtain it. *)
Inductive Value : Type :=
  | IntValue (v : Z)
  | FloatValue (mantissa exponent : Z)
  | StringValue (s : string)
  | BoolValue (b : bool)
  | NilValue.

(** [Expression] is an interface; every parse function that returns it
    returns either the nil interface or a pointer to a fresh node, so an
    expression slot is an [option Expression]. *)
Inductive Expression : Type :=
  | BinaryExpr (Left : option Expression) (Operator : string)
               (Right : option Expression)
  | UnaryExpr (Operator : string) (Operand : option Expression)
  | CallExpr (Function : option Expression)
             (Arguments : list (option Expression))
  | Identifier (Value : string)
  | Literal (Type_ : string) (Value : Value)
  | ArrayLiteral (Elements : list (option Expression))
  | MapLiteral (Pairs : list (option Expression * option Expression))
  | IndexExpr (Object : option Expression) (Index : option Expression)
  | SelectorExpr (Object : option Expression) (Selector : string).

Inductive TypeSpec : Type :=
  mkTypeSpec (Name : string) (IsPointer IsSlice IsArray : bool)
             (ArraySize : Z) (KeyType ValueType : option TypeSpec).

(** The zero value [&ast.TypeSpec{}]. *)
Definition emptyTypeSpec : TypeSpec :=
  mkTypeSpec EmptyString false false false 0 None None.

Definition TypeSpec_Name (t : TypeSpec) : string :=
  match t with mkTypeSpec n _ _ _ _ _ _ => n end.

Record Parameter_ : Type := mkParameter {
  Parameter_Name : string;
  Parameter_Type : option TypeSpec
}.

Record Field : Type := mkField {
  Field_Name : string;
  Field_Type : option TypeSpec;
  Field_Tag : string
}.

Record ImportDecl : Type := mkImportDecl {
  Path : string;
  Alias : string;
  Items : list string
}.

Record VarDecl : Type := mkVarDecl {
  VarDecl_Name : string;
  VarDecl_Type : option TypeSpec;
  VarDecl_Value : option Expression;
  IsWalrus : bool
}.

Record ReturnStmt : Type := mkReturnStmt {
  ReturnStmt_Value : option Expression
}.

Record ExpressionStmt : Type := mkExpressionStmt {
  ExpressionStmt_Expression : option Expression
}.

(** [Statement] is an interface whose values are pointers to nodes.  The parse
    functions of statements return pointers ([nil] on a syntax error), and
    [parseStatement] stores them in the interface: the result is a non-nil
    interface that may hold a nil pointer.  A statement is therefore a tag
    with an optional node, and a statement slot an [option Statement]. *)
Inductive Statement : Type :=
  | FunctionDeclPtr (d : option FunctionDecl)
  | StructDeclPtr (d : option StructDecl)
  | VarDeclPtr (d : option VarDecl)
  | IfStmtPtr (s : option IfStmt)
  | ForStmtPtr (s : option ForStmt)
  | WhileStmtPtr (s : option WhileStmt)
  | ReturnStmtPtr (s : option ReturnStmt)
  | ExpressionStmtPtr (s : option ExpressionStmt)
  | BlockStmtPtr (s : option BlockStmt)
with FunctionDecl : Type :=
  mkFunctionDecl (Name : string) (Parameters : list Parameter_)
                 (ReturnType : option TypeSpec) (Body : option BlockStmt)
                 (Receiver : option Parameter_)
with StructDecl : Type :=
  mkStructDecl (Name : string) (Fields : list Field)
               (Methods : list FunctionDecl)
with IfStmt : Type :=
  mkIfStmt (Condition : option Expression)
           (ThenBranch ElseBranch : option Statement)
with ForStmt : Type :=
  mkForStmt (Init : option Statement) (Condition : option Expression)
            (Update : option Statement) (Body : option BlockStmt)
            (IsRange : bool) (RangeVar : string)
            (RangeExpr : option Expression)
with WhileStmt : Type :=
  mkWhileStmt (Condition : option Expression) (Body : option BlockStmt)
with BlockStmt : Type :=
  mkBlockStmt (Statements : list Statement).

Definition FunctionDecl_Name (f : FunctionDecl) : string :=
  match f with mkFunctionDecl n _ _ _ _ => n end.

Definition Receiver (f : FunctionDecl) : option Parameter_ :=
  match f with mkFunctionDecl _ _ _ _ r => r end.

(** The assignment [method.Receiver = r]. *)
Definition set_Receiver (f : FunctionDecl) (r : option Parameter_) : FunctionDecl :=
  match f with mkFunctionDecl n ps rt b _ => mkFunctionDecl n ps rt b r end.

Definition StructDecl_Name (s : StructDecl) : string :=
  match s with mkStructDecl n _ _ => n end.

Definition Fields (s : StructDecl) : list Field :=
  match s with mkStructDecl _ fs _ => fs end.

Definition Methods (s : StructDecl) : list FunctionDecl :=
  match s with mkStructDecl _ _ ms => ms end.

Record Program : Type := mkProgram {
  Package : string;
  Imports : list ImportDecl;
  Program_Statements : list Statement
}.

(** [TypeSpec.String] *)
Fixpoint TypeSpec_String (t : TypeSpec) : string :=
  match t with
  | mkTypeSpec name isPointer isSlice isArray arraySize keyType valueType =>
      (if isPointer then "*" else EmptyString)
      ++ (if isSlice then "[]" else EmptyString)
      ++ (if isArray then "[" ++ decimal arraySize ++ "]" else EmptyString)
      ++ match keyType, valueType with
         | Some k, Some v =>
             "map[" ++ TypeSpec_String k ++ "]" ++ TypeSpec_String v
         | None, Some v => TypeSpec_String v
         | _, None => name
         end
  end.

(** [Parameter.String] *)
Definition Parameter_String (p : Parameter_) : string :=
  match Parameter_Type p with
  | Some t => Parameter_Name p ++ " " ++ TypeSpec_String t
  | None => Parameter_Name p
  end.

End ast.

(** ** The functions of Go's library the parser calls

    [strconv] and [strings] belong to Go, not to this repository; they are
    modelled from their documentation, on the arguments the parser can pass
    them: the lexeme of a number token has no sign, no base prefix and no
    underscore. *)

Module strconv.

Definition digit (c : ascii) : Z := Z.of_nat (nat_of_ascii c) - 48.

(** The digits of [s] in base [base], most significant first. *)
Fixpoint number (base acc : Z) (s : string) : option Z :=
  match s with
  | EmptyString => Some acc
  | String c s' =>
      if lexer.isDigit c && (digit c <? base)%Z
      then number base (acc * base + digit c) s'
      else None
  end.

Definition maxInt64 : Z := 2 ^ 63 - 1.

(** [strconv.ParseInt(s, 0, 64)]: with base 0 a leading [0] announces an
    octal number; the error is a syntax error or a value out of range. *)
Definition ParseInt (s : string) : option Z :=
  match s with
  | EmptyString => None
  | String c rest =>
      let v := if Ascii.eqb c "0" then number 8 0 rest else number 10 0 s in
      match v with
      | Some n => if (n <=? maxInt64)%Z then Some n else None
      | None => None
      end
  end.

(** [strconv.Atoi(s)] with the error dropped ([size, _ := ...]): 0 on a
    syntax error, the largest [int] on a value out of range. *)
Definition Atoi (s : string) : Z :=
  match s with
  | EmptyString => 0%Z
  | _ => match number 10 0 s with
         | Some n => Z.min n maxInt64
         | None => 0%Z
         end
  end.

(** Leading decimal digits of [s]: their value on top of [acc], their number,
    and the rest of [s]. *)
Fixpoint read_digits (acc : Z) (count : nat) (s : string) : Z * nat * string :=
  match s with
  | String c s' =>
      if lexer.isDigit c then read_digits (acc * 10 + digit c) (S count) s'
      else (acc, count, s)
  | EmptyString => (acc, count, s)
  end.

(** The digits of an exponent; Go stops accumulating at 10000. *)
Fixpoint read_exponent (acc : Z) (count : nat) (s : string) : Z * nat * string :=
  match s with
  | String c s' =>
      if lexer.isDigit c
      then read_exponent (if (acc <? 10000)%Z then acc * 10 + digit c else acc)
             (S count) s'
      else (acc, count, s)
  | EmptyString => (acc, count, s)
  end.

(** Half-way between the largest [float64] and [2^1024]: a decimal that
    reaches it rounds to infinity, which [ParseFloat] reports as a range
    error. *)
Definition overflow_threshold : Z := 2 ^ 1024 - 2 ^ 970.

Definition overflows (m e : Z) : bool :=
  if (0 <=? e)%Z then (overflow_threshold <=? m * 10 ^ e)%Z
  else (overflow_threshold * 10 ^ (- e) <=? m)%Z.

(** [strconv.ParseFloat(s, 64)] on an unsigned decimal: digits, an optional
    fraction, an optional exponent with at least one digit. *)
Definition ParseFloat (s : string) : option ast.Value :=
  let '(i, ni, r1) := read_digits 0 0 s in
  let '(m, nf, r2) :=
    match r1 with
    | String "." r => read_digits i 0 r
    | _ => (i, 0%nat, r1)
    end in
  if (ni + nf =? 0)%nat then None
  else
    let finish (e : Z) :=
      if overflows m (e - Z.of_nat nf) then None
      else Some (ast.FloatValue m (e - Z.of_nat nf)) in
    match r2 with
    | EmptyString => finish 0%Z
    | String c r =>
        if Ascii.eqb c "e" || Ascii.eqb c "E" then
          let '(sign, r') :=
            match r with
            | String "+" r' => (1%Z, r')
            | String "-" r' => ((-1)%Z, r')
            | _ => (1%Z, r)
            end in
          match read_exponent 0 0 r' with
          | (e, S _, EmptyString) => finish (sign * e)%Z
          | _ => None
          end
        else None
    end.

(** [%q] applied to the lexeme of a number token: the lexeme between double
    quotes, since it has no character that Go escapes. *)
Definition Quote (s : string) : string :=
  String DQUOTE s ++ String DQUOTE EmptyString.

End strconv.

Module strings.

Fixpoint TrimLeft (s : string) (c : ascii) : string :=
  match s with
  | String a s' => if Ascii.eqb a c then TrimLeft s' c else s
  | EmptyString => EmptyString
  end.

Definition reverse (s : string) : string :=
  string_of_list_ascii (rev (list_ascii_of_string s)).

(** [strings.Trim(s, cutset)] for a cutset of one character: all leading and
    trailing occurrences removed. *)
Definition Trim (s : string) (c : ascii) : string :=
  reverse (TrimLeft (reverse (TrimLeft s c)) c).

(** [strings.HasSuffix(s, suffix)] *)
Definition HasSuffix (s suffix : string) : bool :=
  String.prefix (strings.reverse suffix) (strings.reverse s).

(** [strings.Join(elems, sep)] *)
Definition Join (elems : list string) (sep : string) : string :=
  String.concat sep elems.

(** [strings.Contains(s, substr)] *)
Fixpoint Contains (s substr : string) : bool :=
  String.prefix substr s
  || match s with
     | String _ s' => Contains s' substr
     | EmptyString => false
     end.

(** [strings.Split(s, sep)] for a separator of one character: the parts of
    [s] between the separators, one part more than there are separators. *)
Fixpoint Split (s : string) (sep : ascii) : list string :=
  match s with
  | EmptyString => [EmptyString]
  | String c s' =>
      if Ascii.eqb c sep then EmptyString :: Split s' sep
      else match Split s' sep with
           | part :: parts => String c part :: parts
           | [] => [String c EmptyString]
           end
  end.

End strings.

(** ** Package parser *)

Module parser.

Import lexer.

Record Parser : Type := mkParser {
  l : Lexer;
  curToken : Token;
  peekToken : Token;
  errors : list string
}.

(** *** The parser's methods as state transformers

    A method of [*Parser] returning an [A] is a function from the parser's
    state to an outcome: the result with the new state, a panic of the Go
    run time, or [OutOfFuel] when the recursion budget of the model (see
    [parseExpression]) is used up. *)

Inductive result (A : Type) : Type :=
  | Done (a : A) (p : Parser)
  | Panic
  | OutOfFuel.

Arguments Done {A} a p.
Arguments Panic {A}.
Arguments OutOfFuel {A}.

Definition M (A : Type) : Type := Parser -> result A.

Definition ret {A} (a : A) : M A := fun p => Done a p.

Definition bind {A B} (m : M A) (f : A -> M B) : M B :=
  fun p => match m p with
           | Done a p' => f a p'
           | Panic => Panic
           | OutOfFuel => OutOfFuel
           end.

Definition outOfFuel {A} : M A := fun _ => OutOfFuel.

Declare Scope parser_scope.
Delimit Scope parser_scope with parser.
Notation "x <- m ;; k" := (bind m (fun x => k))
  (at level 61, m at next level, right associativity) : parser_scope.
Notation "m ;; k" := (bind m (fun _ => k))
  (at level 61, right associativity) : parser_scope.
Local Open Scope parser_scope.

(** Reading the fields of the parser. *)
Definition cur : M Token := fun p => Done (curToken p) p.
Definition peek : M Token := fun p => Done (peekToken p) p.

Definition curTokenIs (t : TokenType) : M bool :=
  fun p => Done (TokenType_eqb (Type_ (curToken p)) t) p.

Definition peekTokenIs (t : TokenType) : M bool :=
  fun p => Done (TokenType_eqb (Type_ (peekToken p)) t) p.

(** [p.errors = append(p.errors, msg)] *)
Definition addError (msg : string) : M unit :=
  fun p => Done tt {| l := l p; curToken := curToken p;
                      peekToken := peekToken p; errors := (errors p ++ [msg])%list |}.

(** The loop [for p.peekToken.Type == lexer.COMMENT] of [nextToken], started
    with the token [tok] just read.  [n] bounds the iterations; two are
    enough, since the token after a comment is a newline or the end of the
    file (lemma [nextToken_no_timeout]). *)
Fixpoint skipComments (n : nat) (tok : Token) (lx : Lexer)
    : option (option (Token * Lexer)) :=
  if TokenType_eqb (Type_ tok) COMMENT then
    match n with
    | O => None
    | S n' =>
      match NextToken lx with
      | (Some tok', lx') => skipComments n' tok' lx'
      | (None, _) => Some None
      end
    end
  else Some (Some (tok, lx)).

Definition nextToken : M unit := fun p =>
  match NextToken (l p) with
  | (None, _) => Panic
  | (Some tok, lx) =>
    match skipComments (S (S (String.length (input lx)))) tok lx with
    | None => OutOfFuel
    | Some None => Panic
    | Some (Some (tok', lx')) =>
        Done tt {| l := lx'; curToken := peekToken p; peekToken := tok';
                   errors := errors p |}
    end
  end.

Definition Errors (p : Parser) : list string := errors p.

Definition peekError (t : TokenType) : M unit :=
  pk <- peek ;;
  addError ("expected next token to be " ++ TokenTypeString t ++ ", got "
            ++ TokenTypeString (Type_ pk) ++ " instead").

Definition noPrefixParseFnError (t : TokenType) : M unit :=
  addError ("no prefix parse function for " ++ TokenTypeString t ++ " found").

Definition expectPeek (t : TokenType) : M bool :=
  b <- peekTokenIs t ;;
  if b then nextToken ;; ret true
  else peekError t ;; ret false.

(** Precedence levels *)
Definition LOWEST : Z := 1.
Definition EQUALS : Z := 2.
Definition LESSGREATER : Z := 3.
Definition SUM : Z := 4.
Definition PRODUCT : Z := 5.
Definition PREFIX : Z := 6.
Definition CALL : Z := 7.
Definition INDEX : Z := 8.

(** The map [precedences]. *)
Definition precedences (t : TokenType) : option Z :=
  match t with
  | EQ | NOT_EQ => Some EQUALS
  | LT | GT | LT_EQ | GT_EQ => Some LESSGREATER
  | PLUS | MINUS => Some SUM
  | DIVIDE | MULTIPLY | MODULO | POWER => Some PRODUCT
  | LPAREN => Some CALL
  | LBRACKET | DOT => Some INDEX
  | _ => None
  end.

Definition precedence_of (t : TokenType) : Z :=
  match precedences t with
  | Some n => n
  | None => LOWEST
  end.

Definition peekPrecedence : M Z :=
  fun p => Done (precedence_of (Type_ (peekToken p))) p.

Definition curPrecedence : M Z :=
  fun p => Done (precedence_of (Type_ (curToken p))) p.

(** [for cond() { p.nextToken() }]: the loops that skip newlines. *)
Fixpoint skipWhile (n : nat) (cond : M bool) : M unit :=
  b <- cond ;;
  if b then
    match n with
    | O => outOfFuel
    | S n' => nextToken ;; skipWhile n' cond
    end
  else ret tt.

(** [New]: the two registries are fixed tables (see [prefixParseFns] and
    [infixParseFns] below); two tokens are read so that [curToken] and
    [peekToken] are both set. *)
Definition New (lx : Lexer) : result unit :=
  (nextToken ;; nextToken)
    {| l := lx; curToken := zeroToken; peekToken := zeroToken; errors := [] |}.

(** *** Imports *)

(** Helper function to check if a package is in Go's standard library *)
Definition isStandardLibrary (pkg : string) : bool :=
  existsb (String.eqb pkg)
    [ "os"; "fmt"; "time"; "json"; "math"; "strings"; "strconv"; "io";
      "bufio"; "net"; "http"; "url"; "path"; "filepath"; "sort"; "sync";
      "context"; "errors"; "log"; "regexp"; "crypto"; "encoding";
      "database"; "html"; "image"; "mime"; "reflect"; "runtime"; "testing";
      "unsafe" ].

Definition quoted (s : string) : string :=
  String DQUOTE s ++ String DQUOTE EmptyString.

(** The loop over the items of [from "path" import item1, item2]. *)
Fixpoint importItems (n : nat) (items : list string) : M (list string) :=
  c <- cur ;;
  let items := if TokenType_eqb (Type_ c) IDENT
               then (items ++ [Literal c])%list else items in
  comma <- peekTokenIs COMMA ;;
  if negb comma then ret items
  else
    match n with
    | O => outOfFuel
    | S n' =>
        nextToken ;;  (* consume comma *)
        nextToken ;;  (* move to next item *)
        importItems n' items
    end.

(** The loop over the paths of [import ("os", "fmt", "time")]. *)
Fixpoint importList (n : nat) (items : list string) : M (list string) :=
  rparen <- curTokenIs RPAREN ;;
  eof <- curTokenIs EOF ;;
  if negb rparen && negb eof then
    match n with
    | O => outOfFuel
    | S n' =>
        c <- cur ;;
        let items :=
          if TokenType_eqb (Type_ c) STRING then
            (* Remove quotes and resolve alias *)
            let rawPath := strings.Trim (Literal c) DQUOTE in
            (items ++ [quoted (stdlib.GetRealPackagePath rawPath)])%list
          else items in
        nextToken ;;
        comma <- curTokenIs COMMA ;;
        (if comma then nextToken else ret tt) ;;
        importList n' items
    end
  else ret items.

Definition parseImportDeclaration (fuel : nat) : M (option ast.ImportDecl) :=
  isFrom <- curTokenIs FROM ;;
  if isFrom then
    (* from "path" import item1, item2 *)
    nextToken ;;
    c <- cur ;;
    if negb (TokenType_eqb (Type_ c) STRING) then ret None
    else
      let path := Literal c in
      nextToken ;;
      ok <- expectPeek IMPORT ;;
      if negb ok then ret None
      else
        nextToken ;;
        items <- importItems fuel [] ;;
        ret (Some (ast.mkImportDecl path EmptyString items))
  else
    isImport <- curTokenIs IMPORT ;;
    if isImport then
      nextToken ;;
      c <- cur ;;
      match Type_ c with
      | LPAREN =>
          (* import ("os", "fmt", "time") *)
          nextToken ;;
          items <- importList fuel [] ;;
          ret (Some (ast.mkImportDecl EmptyString EmptyString items))
      | STRING =>
          (* import "path" [as alias] *)
          let rawPath := strings.Trim (Literal c) DQUOTE in
          (* Resolve alias to actual Go package path *)
          let path := quoted (stdlib.GetRealPackagePath rawPath) in
          nextToken ;;
          c1 <- cur ;;
          if TokenType_eqb (Type_ c1) IDENT && String.eqb (Literal c1) "as"
          then
            nextToken ;;
            c2 <- cur ;;
            ret (Some (ast.mkImportDecl path
                         (if TokenType_eqb (Type_ c2) IDENT
                          then Literal c2 else EmptyString) []))
          else ret (Some (ast.mkImportDecl path EmptyString []))
      | IDENT =>
          (* import os (without quotes for standard library): the path is
             the identifier as written, in both branches of the test *)
          let path := if isStandardLibrary (Literal c)
                      then Literal c else Literal c in
          ret (Some (ast.mkImportDecl path EmptyString []))
      | _ => ret (Some (ast.mkImportDecl EmptyString EmptyString []))
      end
    else ret (Some (ast.mkImportDecl EmptyString EmptyString [])).

(** *** Types and parameters *)

(** [parseTypeSpec] calls itself on the element, key and value types; [fuel]
    bounds the depth of these calls. *)
Fixpoint parseTypeSpec (fuel : nat) : M (option ast.TypeSpec) :=
  let self : M (option ast.TypeSpec) :=
    match fuel with O => outOfFuel | S f => parseTypeSpec f end in
  (* Handle pointer types *)
  isPointer <- curTokenIs MULTIPLY ;;
  (if isPointer then nextToken else ret tt) ;;
  (* Handle slice/array types *)
  isBracket <- curTokenIs LBRACKET ;;
  if isBracket then
    nextToken ;;
    isSlice <- curTokenIs RBRACKET ;;
    if isSlice then
      (* Slice type []T *)
      nextToken ;;
      valueType <- self ;;
      ret (Some (ast.mkTypeSpec EmptyString isPointer true false 0 None valueType))
    else
      (* Array type [N]T *)
      c <- cur ;;
      let size := if TokenType_eqb (Type_ c) INT
                  then strconv.Atoi (Literal c) else 0%Z in
      ok <- expectPeek RBRACKET ;;
      if negb ok then ret None
      else
        nextToken ;;
        valueType <- self ;;
        ret (Some (ast.mkTypeSpec EmptyString isPointer false true size None valueType))
  else
    c <- cur ;;
    (* Handle map types *)
    if TokenType_eqb (Type_ c) IDENT && String.eqb (Literal c) "map" then
      ok <- expectPeek LBRACKET ;;
      if negb ok then ret None
      else
        nextToken ;;
        keyType <- self ;;
        ok' <- expectPeek RBRACKET ;;
        if negb ok' then ret None
        else
          nextToken ;;
          valueType <- self ;;
          ret (Some (ast.mkTypeSpec EmptyString isPointer false false 0
                       keyType valueType))
    else
      (* Basic type *)
      ret (Some (ast.mkTypeSpec (Literal c) isPointer false false 0 None None)).

(** One parameter: its name is the current token, its type follows when the
    next token is an identifier.  (The source writes these lines twice, for
    the first parameter and in the loop.) *)
Definition parseParameter (fuel : nat) : M ast.Parameter_ :=
  c <- cur ;;
  isType <- peekTokenIs IDENT ;;
  if isType then
    nextToken ;;
    t <- parseTypeSpec fuel ;;
    ret (ast.mkParameter (Literal c) t)
  else ret (ast.mkParameter (Literal c) None).

Fixpoint parameters (n : nat) (fuel : nat) (params : list ast.Parameter_)
    : M (list ast.Parameter_) :=
  comma <- peekTokenIs COMMA ;;
  if comma then
    match n with
    | O => outOfFuel
    | S n' =>
        nextToken ;;
        nextToken ;;
        param <- parseParameter fuel ;;
        parameters n' fuel (params ++ [param])%list
    end
  else ret params.

Definition parseFunctionParameters (fuel : nat) : M (list ast.Parameter_) :=
  rparen <- peekTokenIs RPAREN ;;
  if rparen then ret []
  else
    nextToken ;;
    param <- parseParameter fuel ;;
    parameters fuel fuel [param].

(** *** Expressions *)

(** An expression slot: the interface [ast.Expression], possibly nil. *)
Definition Expr : Type := option ast.Expression.

Definition parseIdentifier : M Expr :=
  c <- cur ;; ret (Some (ast.Identifier (Literal c))).

Definition parseIntegerLiteral : M Expr :=
  c <- cur ;;
  match strconv.ParseInt (Literal c) with
  | None =>
      addError ("could not parse " ++ strconv.Quote (Literal c) ++ " as integer") ;;
      ret None
  | Some value => ret (Some (ast.Literal "int" (ast.IntValue value)))
  end.

Definition parseFloatLiteral : M Expr :=
  c <- cur ;;
  match strconv.ParseFloat (Literal c) with
  | None =>
      addError ("could not parse " ++ strconv.Quote (Literal c) ++ " as float") ;;
      ret None
  | Some value => ret (Some (ast.Literal "float" value))
  end.

Definition parseStringLiteral : M Expr :=
  c <- cur ;; ret (Some (ast.Literal "string" (ast.StringValue (Literal c)))).

Definition parseBooleanLiteral : M Expr :=
  b <- curTokenIs TRUE ;; ret (Some (ast.Literal "bool" (ast.BoolValue b))).

Definition parseNilLiteral : M Expr :=
  ret (Some (ast.Literal "nil" ast.NilValue)).

Section Expressions.

(** The functions below call [parseExpression], which calls them: the
    recursive occurrence is a variable here and is tied in
    [parseExpression]. *)
Variable parseExpression : Z -> M Expr.

Definition parsePrefixExpression : M Expr :=
  c <- cur ;;
  nextToken ;;
  operand <- parseExpression PREFIX ;;
  ret (Some (ast.UnaryExpr (Literal c) operand)).

Definition parseInfixExpression (left : Expr) : M Expr :=
  c <- cur ;;
  precedence <- curPrecedence ;;
  nextToken ;;
  right <- parseExpression precedence ;;
  ret (Some (ast.BinaryExpr left (Literal c) right)).

Definition parseGroupedExpression : M Expr :=
  nextToken ;;
  exp <- parseExpression LOWEST ;;
  ok <- expectPeek RPAREN ;;
  if negb ok then ret None else ret exp.

Fixpoint expressions (n : nat) (args : list Expr) : M (list Expr) :=
  comma <- peekTokenIs COMMA ;;
  if comma then
    match n with
    | O => outOfFuel
    | S n' =>
        nextToken ;;
        nextToken ;;
        e <- parseExpression LOWEST ;;
        expressions n' (args ++ [e])%list
    end
  else ret args.

(** The result is a slice: [nil] on a missing closing token, which the
    model does not tell apart from the empty slice. *)
Definition parseExpressionList (n : nat) (close : TokenType) : M (list Expr) :=
  closed <- peekTokenIs close ;;
  if closed then nextToken ;; ret []
  else
    nextToken ;;
    e <- parseExpression LOWEST ;;
    args <- expressions n [e] ;;
    ok <- expectPeek close ;;
    if negb ok then ret [] else ret args.

Definition parseArrayLiteral (n : nat) : M Expr :=
  elements <- parseExpressionList n RBRACKET ;;
  ret (Some (ast.ArrayLiteral elements)).

(** The loop over the pairs of a map literal; [None] is the [return nil]
    inside the loop. *)
Fixpoint pairs (n : nat) (acc : list (Expr * Expr))
    : M (option (list (Expr * Expr))) :=
  key <- parseExpression LOWEST ;;
  ok <- expectPeek COLON ;;
  if negb ok then ret None
  else
    nextToken ;;
    value <- parseExpression LOWEST ;;
    let acc := (acc ++ [(key, value)])%list in
    comma <- peekTokenIs COMMA ;;
    if negb comma then ret (Some acc)
    else
      match n with
      | O => outOfFuel
      | S n' => nextToken ;; nextToken ;; pairs n' acc
      end.

Definition parseMapLiteral (n : nat) : M Expr :=
  empty <- peekTokenIs RBRACE ;;
  if empty then nextToken ;; ret (Some (ast.MapLiteral []))
  else
    nextToken ;;
    r <- pairs n [] ;;
    match r with
    | None => ret None
    | Some ps =>
        ok <- expectPeek RBRACE ;;
        if negb ok then ret None else ret (Some (ast.MapLiteral ps))
    end.

Definition parseCallExpression (n : nat) (fn : Expr) : M Expr :=
  args <- parseExpressionList n RPAREN ;;
  ret (Some (ast.CallExpr fn args)).

Definition parseIndexExpression (left : Expr) : M Expr :=
  nextToken ;;
  index <- parseExpression LOWEST ;;
  ok <- expectPeek RBRACKET ;;
  if negb ok then ret None else ret (Some (ast.IndexExpr left index)).

Definition parseSelectorExpression (left : Expr) : M Expr :=
  ok <- expectPeek IDENT ;;
  if negb ok then ret None
  else c <- cur ;; ret (Some (ast.SelectorExpr left (Literal c))).

(** The registry of prefix parse functions filled by [New]. *)
Definition prefixParseFns (n : nat) (t : TokenType) : option (M Expr) :=
  match t with
  | IDENT => Some parseIdentifier
  | INT => Some parseIntegerLiteral
  | FLOAT => Some parseFloatLiteral
  | STRING => Some parseStringLiteral
  | TRUE | FALSE => Some parseBooleanLiteral
  | NIL => Some parseNilLiteral
  | MINUS | NOT => Some parsePrefixExpression
  | LPAREN => Some parseGroupedExpression
  | LBRACKET => Some (parseArrayLiteral n)
  | LBRACE => Some (parseMapLiteral n)
  | _ => None
  end.

(** The registry of infix parse functions filled by [New]. *)
Definition infixParseFns (n : nat) (t : TokenType) : option (Expr -> M Expr) :=
  match t with
  | PLUS | MINUS | DIVIDE | MULTIPLY | MODULO | POWER
  | EQ | NOT_EQ | LT | GT | LT_EQ | GT_EQ | AND | OR =>
      Some parseInfixExpression
  | LPAREN => Some (parseCallExpression n)
  | LBRACKET => Some parseIndexExpression
  | DOT => Some parseSelectorExpression
  | _ => None
  end.

(** Whether the climbing loop of [parseExpression] goes on: the next token
    is no line, file or indentation boundary and binds tighter than
    [precedence]. *)
Definition continues (precedence : Z) (pk : Token) : bool :=
  negb (TokenType_eqb (Type_ pk) NEWLINE)
  && negb (TokenType_eqb (Type_ pk) EOF)
  && negb (TokenType_eqb (Type_ pk) INDENT)
  && negb (TokenType_eqb (Type_ pk) DEDENT)
  && (precedence <? precedence_of (Type_ pk))%Z.

(** The climbing loop of [parseExpression]. *)
Fixpoint climb (n : nat) (fns : nat) (precedence : Z) (leftExp : Expr) : M Expr :=
  pk <- peek ;;
  if continues precedence pk then
    match infixParseFns fns (Type_ pk) with
    | None => ret leftExp
    | Some infix =>
        match n with
        | O => outOfFuel
        | S n' =>
            nextToken ;;
            leftExp' <- infix leftExp ;;
            climb n' fns precedence leftExp'
        end
    end
  else ret leftExp.

Definition parseExpression_body (n : nat) (precedence : Z) : M Expr :=
  c <- cur ;;
  match prefixParseFns n (Type_ c) with
  | None => noPrefixParseFnError (Type_ c) ;; ret None
  | Some prefix =>
      leftExp <- prefix ;;
      climb n n precedence leftExp
  end.

End Expressions.

(** [parseExpression]: [fuel] bounds the depth of the recursion through the
  prefix and infix parse functions, and the number of iterations of each
  loop on the way. *)
Fixpoint parseExpression (fuel : nat) (precedence : Z) : M Expr :=
parseExpression_body
  (match fuel with O => fun _ => outOfFuel | S f => parseExpression f end)
  fuel precedence.

(** *** Statements *)

Definition parseVarDeclaration (fuel : nat) : M (option ast.VarDecl) :=
c <- cur ;;
match Type_ c with
| VAR =>
    (* var name type = value OR var name = value *)
    ok <- expectPeek IDENT ;;
    if negb ok then ret None
    else
      name <- cur ;;
      typed <- peekTokenIs IDENT ;;
      if typed then
        (* var name type = value *)
        nextToken ;;
        t <- parseTypeSpec fuel ;;
        ok' <- expectPeek ASSIGN ;;
        if negb ok' then ret None
        else
          nextToken ;;
          value <- parseExpression fuel LOWEST ;;
          ret (Some (ast.mkVarDecl (Literal name) t value false))
      else
        assigned <- peekTokenIs ASSIGN ;;
        if assigned then
          (* var name = value *)
          nextToken ;;
          nextToken ;;
          value <- parseExpression fuel LOWEST ;;
          ret (Some (ast.mkVarDecl (Literal name) None value false))
        else ret (Some (ast.mkVarDecl (Literal name) None None false))
| IDENT =>
    (* name := value (walrus operator) or name = value (assignment) *)
    walrus <- peekTokenIs WALRUS ;;
    if walrus then
      nextToken ;;  (* consume := *)
      nextToken ;;  (* move to value *)
      value <- parseExpression fuel LOWEST ;;
      ret (Some (ast.mkVarDecl (Literal c) None value true))
    else
      assigned <- peekTokenIs ASSIGN ;;
      if assigned then
        nextToken ;;  (* consume = *)
        nextToken ;;  (* move to value *)
        value <- parseExpression fuel LOWEST ;;
        ret (Some (ast.mkVarDecl (Literal c) None value false))
      else ret (Some (ast.mkVarDecl (Literal c) None None false))
| _ => ret (Some (ast.mkVarDecl EmptyString None None false))
end.

Definition parseReturnStatement (fuel : nat) : M ast.ReturnStmt :=
nl <- peekTokenIs NEWLINE ;;
eof <- peekTokenIs EOF ;;
if negb nl && negb eof then
  nextToken ;;
  value <- parseExpression fuel LOWEST ;;
  ret (ast.mkReturnStmt value)
else ret (ast.mkReturnStmt None).

Definition parseExpressionStatement (fuel : nat) : M ast.ExpressionStmt :=
e <- parseExpression fuel LOWEST ;;
ret (ast.mkExpressionStmt e).

Section Statements.

(** [parseStatement] and the functions it dispatches to call one another;
    the recursive occurrences are variables here and are tied in
    [parseStatement]. *)
Variable fuel : nat.
Variable parseStatement : M ast.Statement.

(** The loop of [parseBlockStatement].  [parseStatement] never returns the
    nil interface, so the test [stmt != nil] always succeeds. *)
Fixpoint blockStatements (n : nat) (stmts : list ast.Statement)
    : M (list ast.Statement) :=
  eof <- curTokenIs EOF ;;
  if eof then ret stmts
  else
    match n with
    | O => outOfFuel
    | S n' =>
        (* Skip newlines *)
        nl <- curTokenIs NEWLINE ;;
        if nl then nextToken ;; blockStatements n' stmts
        else
          (* Stop if we encounter another function (top-level) *)
          fn <- curTokenIs FUNC ;;
          if fn then ret stmts
          else
            stmt <- parseStatement ;;
            eof' <- curTokenIs EOF ;;
            (if negb eof' then nextToken else ret tt) ;;
            blockStatements n' (stmts ++ [stmt])%list
    end.

Definition parseBlockStatement : M ast.BlockStmt :=
  stmts <- blockStatements fuel [] ;;
  ret (ast.mkBlockStmt stmts).

Definition parseFunctionDeclaration : M (option ast.FunctionDecl) :=
  ok <- expectPeek IDENT ;;
  if negb ok then ret None
  else
    name <- cur ;;
    ok1 <- expectPeek LPAREN ;;
    if negb ok1 then ret None
    else
      params <- parseFunctionParameters fuel ;;
      ok2 <- expectPeek RPAREN ;;
      if negb ok2 then ret None
      else
        (* Optional return type *)
        isIdent <- peekTokenIs IDENT ;;
        isParen <- peekTokenIs LPAREN ;;
        returnType <-
          (if isIdent || isParen
           then nextToken ;; parseTypeSpec fuel
           else ret None) ;;
        ok3 <- expectPeek COLON ;;
        if negb ok3 then ret None
        else
          (* Skip newlines *)
          skipWhile fuel (peekTokenIs NEWLINE) ;;
          body <- parseBlockStatement ;;
          ret (Some (ast.mkFunctionDecl (Literal name) params returnType
                       (Some body) None)).

(** The loop of [parseStructDeclaration] over fields and methods, entered
    while the current token is an identifier or [func]. *)
Fixpoint structMembers (n : nat) (name : string)
    (fields : list ast.Field) (methods : list ast.FunctionDecl)
    : M (list ast.Field * list ast.FunctionDecl) :=
  eof <- curTokenIs EOF ;;
  ident <- curTokenIs IDENT ;;
  fn <- curTokenIs FUNC ;;
  if negb eof && ident || fn then
    match n with
    | O => outOfFuel
    | S n' =>
        nl <- curTokenIs NEWLINE ;;
        if nl then nextToken ;; structMembers n' name fields methods
        else if fn then
          (* Method declaration *)
          method <- parseFunctionDeclaration ;;
          let methods :=
            match method with
            | Some m =>
                (* Add receiver *)
                (methods ++
                 [ast.set_Receiver m
                    (Some (ast.mkParameter "self"
                             (Some (ast.mkTypeSpec name false false false 0
                                      None None))))])%list
            | None => methods
            end in
          nextToken ;;
          structMembers n' name fields methods
        else
          (* Field declaration *)
          c <- cur ;;
          nextToken ;;
          typed <- curTokenIs IDENT ;;
          t <- (if typed then parseTypeSpec fuel else ret None) ;;
          nextToken ;;
          structMembers n' name (fields ++ [ast.mkField (Literal c) t EmptyString])%list
            methods
    end
  else ret (fields, methods).

Definition parseStructDeclaration : M (option ast.StructDecl) :=
  ok <- expectPeek IDENT ;;
  if negb ok then ret None
  else
    name <- cur ;;
    ok1 <- expectPeek COLON ;;
    if negb ok1 then ret None
    else
      (* Skip newlines *)
      skipWhile fuel (peekTokenIs NEWLINE) ;;
      (* Parse fields *)
      members <- structMembers fuel (Literal name) [] [] ;;
      ret (Some (ast.mkStructDecl (Literal name) (fst members) (snd members))).

(** [parseIfStatement] calls itself on [elif]; [n] bounds the length of the
    chain. *)
Fixpoint parseIfStatement (n : nat) : M (option ast.IfStmt) :=
  nextToken ;;
  condition <- parseExpression fuel LOWEST ;;
  ok <- expectPeek COLON ;;
  if negb ok then ret None
  else
    (* Skip newlines *)
    skipWhile fuel (peekTokenIs NEWLINE) ;;
    thenBlock <- parseBlockStatement ;;
    let thenBranch := Some (ast.BlockStmtPtr (Some thenBlock)) in
    (* Handle elif/else *)
    isElif <- peekTokenIs ELIF ;;
    isElse <- peekTokenIs ELSE ;;
    if isElif || isElse then
      nextToken ;;
      elif <- curTokenIs ELIF ;;
      if elif then
        match n with
        | O => outOfFuel
        | S n' =>
            nested <- parseIfStatement n' ;;
            ret (Some (ast.mkIfStmt condition thenBranch
                         (Some (ast.IfStmtPtr nested))))
        end
      else
        (* else *)
        ok' <- expectPeek COLON ;;
        if negb ok' then ret None
        else
          (* Skip newlines *)
          skipWhile fuel (peekTokenIs NEWLINE) ;;
          elseBlock <- parseBlockStatement ;;
          ret (Some (ast.mkIfStmt condition thenBranch
                       (Some (ast.BlockStmtPtr (Some elseBlock)))))
    else ret (Some (ast.mkIfStmt condition thenBranch None)).

Definition parseForStatement : M (option ast.ForStmt) :=
  nextToken ;;
  (* Check for range-based for loop *)
  isRange <- peekTokenIs IN ;;
  header <-
    (if isRange then
       c <- cur ;;
       nextToken ;;  (* consume 'in' *)
       nextToken ;;
       rangeExpr <- parseExpression fuel LOWEST ;;
       ret (Some (fun body =>
              ast.mkForStmt None None None body true (Literal c) rangeExpr))
     else
       (* Traditional for loop *)
       init <- parseStatement ;;
       ok <- expectPeek SEMICOLON ;;
       if negb ok then ret None
       else
         nextToken ;;
         condition <- parseExpression fuel LOWEST ;;
         ok' <- expectPeek SEMICOLON ;;
         if negb ok' then ret None
         else
           nextToken ;;
           update <- parseStatement ;;
           ret (Some (fun body =>
                  ast.mkForStmt (Some init) condition (Some update) body
                    false EmptyString None))) ;;
  match header with
  | None => ret None
  | Some stmt =>
      ok <- expectPeek COLON ;;
      if negb ok then ret None
      else
        (* Skip newlines *)
        skipWhile fuel (peekTokenIs NEWLINE) ;;
        body <- parseBlockStatement ;;
        ret (Some (stmt (Some body)))
  end.

Definition parseWhileStatement : M (option ast.WhileStmt) :=
  nextToken ;;
  condition <- parseExpression fuel LOWEST ;;
  ok <- expectPeek COLON ;;
  if negb ok then ret None
  else
    (* Skip newlines *)
    skipWhile fuel (peekTokenIs NEWLINE) ;;
    body <- parseBlockStatement ;;
    ret (Some (ast.mkWhileStmt condition (Some body))).

Definition parseStatement_body : M ast.Statement :=
  c <- cur ;;
  match Type_ c with
  | FUNC => d <- parseFunctionDeclaration ;; ret (ast.FunctionDeclPtr d)
  | STRUCT => d <- parseStructDeclaration ;; ret (ast.StructDeclPtr d)
  | VAR => d <- parseVarDeclaration fuel ;; ret (ast.VarDeclPtr d)
  | IF_ => s <- parseIfStatement fuel ;; ret (ast.IfStmtPtr s)
  | FOR => s <- parseForStatement ;; ret (ast.ForStmtPtr s)
  | WHILE => s <- parseWhileStatement ;; ret (ast.WhileStmtPtr s)
  | RETURN => s <- parseReturnStatement fuel ;; ret (ast.ReturnStmtPtr (Some s))
  | IDENT =>
      (* Check if this is a variable assignment
         (identifier := value or identifier = value) *)
      walrus <- peekTokenIs WALRUS ;;
      assign <- peekTokenIs ASSIGN ;;
      if walrus || assign
      then d <- parseVarDeclaration fuel ;; ret (ast.VarDeclPtr d)
      else s <- parseExpressionStatement fuel ;;
           ret (ast.ExpressionStmtPtr (Some s))
  | _ => s <- parseExpressionStatement fuel ;;
         ret (ast.ExpressionStmtPtr (Some s))
  end.

End Statements.

(** [parseStatement]: [fuel] bounds the nesting depth of statements, the
  depth of the expressions in them and the iterations of each loop. *)
Fixpoint parseStatement (fuel : nat) : M ast.Statement :=
parseStatement_body fuel
  (match fuel with O => outOfFuel | S f => parseStatement f end).

(** *** Programs *)

(** The loop over the import declarations. *)
Fixpoint imports (n : nat) (fuel : nat) (acc : list ast.ImportDecl)
  : M (list ast.ImportDecl) :=
isImport <- curTokenIs IMPORT ;;
isFrom <- curTokenIs FROM ;;
if isImport || isFrom then
  match n with
  | O => outOfFuel
  | S n' =>
      importDecl <- parseImportDeclaration fuel ;;
      let acc := match importDecl with
                 | Some d => (acc ++ [d])%list
                 | None => acc
                 end in
      (* Skip newlines after imports *)
      skipWhile fuel (curTokenIs NEWLINE) ;;
      imports n' fuel acc
  end
else ret acc.

(** The loop over the top-level statements. *)
Fixpoint statements (n : nat) (fuel : nat) (acc : list ast.Statement)
  : M (list ast.Statement) :=
eof <- curTokenIs EOF ;;
if eof then ret acc
else
  match n with
  | O => outOfFuel
  | S n' =>
      (* Skip newlines and indentation tokens at the top level *)
      nl <- curTokenIs NEWLINE ;;
      ind <- curTokenIs INDENT ;;
      ded <- curTokenIs DEDENT ;;
      if nl || ind || ded then nextToken ;; statements n' fuel acc
      else
        stmt <- parseStatement fuel ;;
        (* Always advance to the next token unless we're at EOF *)
        eof' <- curTokenIs EOF ;;
        (if negb eof' then nextToken else ret tt) ;;
        statements n' fuel (acc ++ [stmt])%list
  end.

(** [ParseProgram] parses the entire program. *)
Definition ParseProgram (fuel : nat) : M ast.Program :=
(* Parse package declaration *)
isPackage <- curTokenIs PACKAGE ;;
package <-
  (if isPackage then
     nextToken ;;
     c <- cur ;;
     if TokenType_eqb (Type_ c) IDENT
     then nextToken ;; ret (Literal c)
     else ret EmptyString
   else ret "main") ;;  (* default package *)
(* Skip newlines after package declaration *)
skipWhile fuel (curTokenIs NEWLINE) ;;
(* Parse imports *)
imps <- imports fuel fuel [] ;;
(* Parse statements *)
stmts <- statements fuel fuel [] ;;
ret (ast.mkProgram package imps stmts).

(** Lexing and parsing a source text, as the compiler driver and the tests
  do: [p := parser.New(lexer.New(input)); program := p.ParseProgram()]. *)
Definition parse (fuel : nat) (source : string) : result ast.Program :=
match New (lexer.New source) with
| Done _ p => ParseProgram fuel p
| Panic => Panic
| OutOfFuel => OutOfFuel
end.

End parser.

(** ** Go's formatting verbs, on the values that the generator formats *)

Module fmt.

Definition boolean (b : bool) : string := if b then "true" else "false".

Section Verbs.

(** [%v] of a [float64] is the shortest decimal that rounds to it, in the
    format that its exponent selects; the generator's treatment of a float
    literal does not depend on that text, which is left open here: the
    argument is the decimal the float was parsed from. *)
Variable float : Z -> Z -> string.

(** [%v] of the payload of a literal. *)
Definition v (x : ast.Value) : string :=
  match x with
  | ast.IntValue n => decimal n
  | ast.FloatValue m e => float m e
  | ast.StringValue s => s
  | ast.BoolValue b => boolean b
  | ast.NilValue => "<nil>"
  end.

(** [%s] of the payload of a literal: a value that is no string is reported
    in the text, with its type. *)
Definition s (x : ast.Value) : string :=
  match x with
  | ast.StringValue s => s
  | ast.IntValue n => "%!s(int64=" ++ decimal n ++ ")"
  | ast.FloatValue m e => "%!s(float64=" ++ float m e ++ ")"
  | ast.BoolValue b => "%!s(bool=" ++ boolean b ++ ")"
  | ast.NilValue => "%!s(<nil>)"
  end.

End Verbs.

End fmt.

(** ** Package codegen *)

Module codegen.

Import strings.

(** The generator: the text written so far (a [strings.Builder]) and the
    indentation level. *)
Record Generator : Type := mkGenerator {
  output : string;
  indentLevel : Z
}.

Definition New : Generator := {| output := EmptyString; indentLevel := 0 |}.

(** [g.output.WriteString(s)] *)
Definition WriteString (s : string) (g : Generator) : Generator :=
  {| output := output g ++ s; indentLevel := indentLevel g |}.

(** [g.indentLevel++] and [g.indentLevel--] *)
Definition indent (d : Z) (g : Generator) : Generator :=
  {| output := output g; indentLevel := (indentLevel g + d)%Z |}.

(** The loop [for i := 0; i < g.indentLevel; i++] of [writeLine]. *)
Fixpoint tabs (n : nat) (g : Generator) : Generator :=
  match n with
  | O => g
  | S n' => tabs n' (WriteString (String TAB EmptyString) g)
  end.

Definition writeLine (line : string) (g : Generator) : Generator :=
  if String.eqb line EmptyString then WriteString (String LF EmptyString) g
  else
    (* Add indentation *)
    let g := tabs (Z.to_nat (indentLevel g)) g in
    WriteString (String LF EmptyString) (WriteString line g).

Definition QUOTE : string := String DQUOTE EmptyString.

Definition generateImport (imp : ast.ImportDecl) (g : Generator) : Generator :=
  match ast.Items imp with
  | _ :: _ =>
      if negb (String.eqb (ast.Path imp) EmptyString) then
        (* Handle "from X import Y, Z" style imports *)
        fold_left
          (fun g item =>
             writeLine (item ++ " " ++ QUOTE ++ ast.Path imp ++ QUOTE) g)
          (ast.Items imp) g
      else
        (* Handle import ("os", "fmt", "time") style *)
        fold_left
          (fun g item =>
             (* Remove quotes if already present *)
             let cleanItem := strings.Trim item DQUOTE in
             writeLine (QUOTE ++ cleanItem ++ QUOTE) g)
          (ast.Items imp) g
  | [] =>
      if negb (String.eqb (ast.Alias imp) EmptyString) then
        writeLine (ast.Alias imp ++ " " ++ QUOTE ++ ast.Path imp ++ QUOTE) g
      else
        (* Handle both quoted and unquoted imports *)
        let path := ast.Path imp in
        let path :=
          if negb (HasPrefix path QUOTE) && negb (HasSuffix path QUOTE)
          then QUOTE ++ path ++ QUOTE  (* Add quotes if not present *)
          else path in
        writeLine path g
  end.

Fixpoint generateTypeSpec (t : ast.TypeSpec) : string :=
  match t with
  | ast.mkTypeSpec name isPointer isSlice isArray arraySize keyType valueType =>
      (if isPointer then "*" else EmptyString)
      ++ (if isSlice then "[]" else EmptyString)
      ++ (if isArray then "[" ++ decimal arraySize ++ "]" else EmptyString)
      ++ match keyType, valueType with
         | Some k, Some v =>
             "map[" ++ generateTypeSpec k ++ "]" ++ generateTypeSpec v
         | None, Some v => generateTypeSpec v
         | _, None => name
         end
  end.

Definition generateParameter (p : ast.Parameter_) : string :=
  match ast.Parameter_Type p with
  | Some t => ast.Parameter_Name p ++ " " ++ generateTypeSpec t
  | None => ast.Parameter_Name p
  end.

(** A result of the generator, or a panic of the Go run time (a nil pointer
    that is dereferenced, a type assertion that fails). *)
Definition bind {A B} (m : option A) (f : A -> option B) : option B :=
  match m with
  | Some a => f a
  | None => None
  end.

Declare Scope codegen_scope.
Delimit Scope codegen_scope with codegen.
Notation "x <- m ;; k" := (bind m (fun x => k))
  (at level 61, m at next level, right associativity) : codegen_scope.
Local Open Scope codegen_scope.

(** The results of a function on the elements of a slice, in order. *)
Fixpoint each {A B} (f : A -> option B) (xs : list A) : option (list B) :=
  match xs with
  | [] => Some []
  | x :: xs' => y <- f x ;; ys <- each f xs' ;; Some (y :: ys)
  end.

Section Expressions.

Variable float : Z -> Z -> string.

Definition generateLiteral (type : string) (value : ast.Value) : option string :=
  if String.eqb type "string" then
    Some (QUOTE ++ fmt.s float value ++ QUOTE)
  else if String.eqb type "int" || String.eqb type "float" then
    Some (fmt.v float value)
  else if String.eqb type "bool" then
    match value with
    | ast.BoolValue b => Some (fmt.boolean b)
    | _ => None  (* the type assertion [l.Value.(bool)] panics *)
    end
  else if String.eqb type "nil" then Some "nil"
  else Some (fmt.v float value).

(** [generateExpression] on an expression slot: the nil interface falls to
    the default case of the type switch. *)
Definition slot (generate : ast.Expression -> option string)
    (e : option ast.Expression) : option string :=
  match e with
  | Some e' => generate e'
  | None => Some EmptyString
  end.

Fixpoint generateExpression' (e : ast.Expression) : option string :=
  match e with
  | ast.Identifier value => Some value
  | ast.Literal type value => generateLiteral type value
  | ast.BinaryExpr leftExpr operator rightExpr =>
      (* Convert Go-script operators to Go operators *)
      if String.eqb operator "**" then
        (* Power operator - need to use math.Pow *)
        l <- slot generateExpression' leftExpr ;;
        r <- slot generateExpression' rightExpr ;;
        Some ("math.Pow(" ++ l ++ ", " ++ r ++ ")")
      else
        let operator :=
          if String.eqb operator "and" then "&&"
          else if String.eqb operator "or" then "||"
          else operator in
        l <- slot generateExpression' leftExpr ;;
        r <- slot generateExpression' rightExpr ;;
        Some ("(" ++ l ++ " " ++ operator ++ " " ++ r ++ ")")
  | ast.UnaryExpr operator operand =>
      let operator := if String.eqb operator "not" then "!" else operator in
      x <- slot generateExpression' operand ;;
      Some (operator ++ x)
  | ast.CallExpr function arguments =>
      args <- each (slot generateExpression') arguments ;;
      let call :=
        f <- slot generateExpression' function ;;
        Some (f ++ "(" ++ Join args ", " ++ ")") in
      (* Handle special functions *)
      match function with
      | Some (ast.Identifier name) =>
          if String.eqb name "print" then
            Some ("fmt.Println(" ++ Join args ", " ++ ")")
          else if String.eqb name "len" then
            Some ("len(" ++ Join args ", " ++ ")")
          else if String.eqb name "range" then
            (* This should be handled in for loop context *)
            match args with
            | first :: _ => Some first
            | [] => call
            end
          else call
      | _ => call
      end
  | ast.ArrayLiteral elements =>
      elems <- each (slot generateExpression') elements ;;
      Some ("[]interface{}{" ++ Join elems ", " ++ "}")
  | ast.MapLiteral pairs =>
      ps <- each (fun pair : option ast.Expression * option ast.Expression =>
                    k <- slot generateExpression' (fst pair) ;;
                    v <- slot generateExpression' (snd pair) ;;
                    Some (k ++ ": " ++ v)) pairs ;;
      Some ("map[interface{}]interface{}{" ++ Join ps ", " ++ "}")
  | ast.IndexExpr object index =>
      o <- slot generateExpression' object ;;
      i <- slot generateExpression' index ;;
      Some (o ++ "[" ++ i ++ "]")
  | ast.SelectorExpr object selector =>
      o <- slot generateExpression' object ;;
      Some (o ++ "." ++ selector)
  end.

Definition generateExpression (e : option ast.Expression) : option string :=
  slot generateExpression' e.

Definition generateField (field : ast.Field) (g : Generator) : Generator :=
  let line := ast.Field_Name field in
  let line := match ast.Field_Type field with
              | Some t => line ++ " " ++ generateTypeSpec t
              | None => line
              end in
  let line := if negb (String.eqb (ast.Field_Tag field) EmptyString)
              then line ++ " `" ++ ast.Field_Tag field ++ "`"
              else line in
  writeLine line g.

(** The methods take pointers to nodes; [None] is the nil pointer, whose
    first field access panics. *)
Definition generateVarDecl (v : option ast.VarDecl) (g : Generator)
    : option Generator :=
  match v with
  | None => None
  | Some v =>
      match ast.VarDecl_Type v with
      | Some t =>
          (* var name type = value *)
          let line := "var " ++ ast.VarDecl_Name v ++ " " ++ generateTypeSpec t in
          match ast.VarDecl_Value v with
          | Some _ =>
              x <- generateExpression (ast.VarDecl_Value v) ;;
              Some (writeLine (line ++ " = " ++ x) g)
          | None => Some (writeLine line g)
          end
      | None =>
          x <- generateExpression (ast.VarDecl_Value v) ;;
          if ast.IsWalrus v then
            (* name := value (new variable) *)
            Some (writeLine (ast.VarDecl_Name v ++ " := " ++ x) g)
          else
            (* name = value (assignment to existing variable) *)
            Some (writeLine (ast.VarDecl_Name v ++ " = " ++ x) g)
      end
  end.

Definition generateReturnStmt (r : option ast.ReturnStmt) (g : Generator)
    : option Generator :=
  match r with
  | None => None
  | Some r =>
      match ast.ReturnStmt_Value r with
      | Some _ =>
          x <- generateExpression (ast.ReturnStmt_Value r) ;;
          Some (writeLine ("return " ++ x) g)
      | None => Some (writeLine "return" g)
      end
  end.

Definition generateExpressionStmt (e : option ast.ExpressionStmt) (g : Generator)
    : option Generator :=
  match e with
  | None => None
  | Some e =>
      x <- generateExpression (ast.ExpressionStmt_Expression e) ;;
      Some (writeLine x g)
  end.

Definition generateStatementInline (stmt : option ast.Statement) : option string :=
  match stmt with
  | Some (ast.VarDeclPtr None) => None
  | Some (ast.VarDeclPtr (Some s)) =>
      match ast.VarDecl_Type s with
      | Some t =>
          x <- generateExpression (ast.VarDecl_Value s) ;;
          Some ("var " ++ ast.VarDecl_Name s ++ " " ++ generateTypeSpec t
                ++ " = " ++ x)
      | None =>
          x <- generateExpression (ast.VarDecl_Value s) ;;
          Some (ast.VarDecl_Name s ++ " := " ++ x)
      end
  | Some (ast.ExpressionStmtPtr None) => None
  | Some (ast.ExpressionStmtPtr (Some s)) =>
      generateExpression (ast.ExpressionStmt_Expression s)
  | _ => Some EmptyString
  end.

(** The first line of a [for] statement; [None] when no line is written. *)
Definition forHeader (isRange : bool) (rangeVar : string)
    (rangeExpr : option ast.Expression)
    (init : option ast.Statement) (condition : option ast.Expression)
    (update : option ast.Statement) : option (option string) :=
  if isRange then
    (* Convert "for x in range(n)" to "for x := 0; x < n; x++" *)
    match rangeExpr with
    | Some (ast.CallExpr function arguments) =>
        match function with
        | Some (ast.Identifier name) =>
            if String.eqb name "range" then
              match arguments with
              | first :: _ =>
                  n <- generateExpression first ;;
                  Some (Some ("for " ++ rangeVar ++ " := 0; " ++ rangeVar
                              ++ " < " ++ n ++ "; " ++ rangeVar ++ "++ {"))
              | [] => Some None
              end
            else Some None
        | _ => Some None
        end
    | _ =>
        (* Regular range over slice/map *)
        x <- generateExpression rangeExpr ;;
        Some (Some ("for " ++ rangeVar ++ " := range " ++ x ++ " {"))
    end
  else
    (* Traditional for loop *)
    i <- match init with
         | Some _ => generateStatementInline init
         | None => Some EmptyString
         end ;;
    c <- match condition with
         | Some _ => generateExpression condition
         | None => Some EmptyString
         end ;;
    u <- match update with
         | Some _ => generateStatementInline update
         | None => Some EmptyString
         end ;;
    Some (Some ("for " ++ i ++ "; " ++ c ++ "; " ++ u ++ " {")).

Definition writeHeader (header : option string) (g : Generator) : Generator :=
  match header with
  | Some line => writeLine line g
  | None => g
  end.

(** The signature of a function, written by [generateFunctionDecl]. *)
Definition signature (name : string) (parameters : list ast.Parameter_)
    (returnType : option ast.TypeSpec) (receiver : option ast.Parameter_)
    : string :=
  "func "
  ++ match receiver with
     | Some r => "(" ++ generateParameter r ++ ") "  (* it's a method *)
     | None => EmptyString
     end
  ++ name ++ "(" ++ Join (map generateParameter parameters) ", " ++ ")"
  ++ match returnType with
     | Some t => " " ++ generateTypeSpec t
     | None => EmptyString
     end.

(** [generateStatement] and the methods it dispatches to.  A statement is a
    tag with a pointer; the methods below take the node a non-nil pointer
    points to, and the nil pointers panic in [generateStatement]. *)
Fixpoint generateStatement (stmt : ast.Statement) (g : Generator) {struct stmt}
    : option Generator :=
  match stmt with
  | ast.FunctionDeclPtr (Some d) => generateFunctionDecl d g
  | ast.StructDeclPtr (Some d) => generateStructDecl d g
  | ast.VarDeclPtr d => generateVarDecl d g
  | ast.IfStmtPtr (Some s) => generateIfStmt s g
  | ast.ForStmtPtr (Some s) => generateForStmt s g
  | ast.WhileStmtPtr (Some s) => generateWhileStmt s g
  | ast.ReturnStmtPtr s => generateReturnStmt s g
  | ast.ExpressionStmtPtr s => generateExpressionStmt s g
  | ast.BlockStmtPtr (Some s) => generateBlockStmt s g
  | ast.FunctionDeclPtr None | ast.StructDeclPtr None | ast.IfStmtPtr None
  | ast.ForStmtPtr None | ast.WhileStmtPtr None | ast.BlockStmtPtr None => None
  end

with generateFunctionDecl (fn : ast.FunctionDecl) (g : Generator) {struct fn}
    : option Generator :=
  match fn with
  | ast.mkFunctionDecl name parameters returnType body receiver =>
      let g := writeLine (signature name parameters returnType receiver ++ " {") g in
      let g := indent 1 g in
      match body with
      | None => None
      | Some b =>
          g <- generateBlockStmt b g ;;
          Some (writeLine "}" (indent (-1) g))
      end
  end

with generateStructDecl (s : ast.StructDecl) (g : Generator) {struct s}
    : option Generator :=
  match s with
  | ast.mkStructDecl name fields methods =>
      let g := writeLine ("type " ++ name ++ " struct {") g in
      let g := indent 1 g in
      let g := fold_left (fun g field => generateField field g) fields g in
      let g := indent (-1) g in
      let g := writeLine "}" g in
      (* Generate methods separately *)
      (fix each_method (ms : list ast.FunctionDecl) (g : Generator)
           : option Generator :=
         match ms with
         | [] => Some g
         | method :: ms' =>
             g <- generateFunctionDecl method (writeLine EmptyString g) ;;
             each_method ms' g
         end) methods g
  end

with generateIfStmt (i : ast.IfStmt) (g : Generator) {struct i}
    : option Generator :=
  match i with
  | ast.mkIfStmt condition thenBranch elseBranch =>
      c <- generateExpression condition ;;
      let g := indent 1 (writeLine ("if " ++ c ++ " {") g) in
      g <- match thenBranch with
           | Some s => generateStatement s g
           | None => Some g
           end ;;
      let g := indent (-1) g in
      g <- match elseBranch with
           | Some s =>
               let g := indent 1 (writeLine "} else {" g) in
               g <- generateStatement s g ;;
               Some (indent (-1) g)
           | None => Some g
           end ;;
      Some (writeLine "}" g)
  end

with generateForStmt (f : ast.ForStmt) (g : Generator) {struct f}
    : option Generator :=
  match f with
  | ast.mkForStmt init condition update body isRange rangeVar rangeExpr =>
      header <- forHeader isRange rangeVar rangeExpr init condition update ;;
      let g := indent 1 (writeHeader header g) in
      match body with
      | None => None
      | Some b =>
          g <- generateBlockStmt b g ;;
          Some (writeLine "}" (indent (-1) g))
      end
  end

with generateWhileStmt (w : ast.WhileStmt) (g : Generator) {struct w}
    : option Generator :=
  match w with
  | ast.mkWhileStmt condition body =>
      c <- generateExpression condition ;;
      let g := indent 1 (writeLine ("for " ++ c ++ " {") g) in
      match body with
      | None => None
      | Some b =>
          g <- generateBlockStmt b g ;;
          Some (writeLine "}" (indent (-1) g))
      end
  end

with generateBlockStmt (b : ast.BlockStmt) (g : Generator) {struct b}
    : option Generator :=
  match b with
  | ast.mkBlockStmt statements =>
      (fix each_statement (stmts : list ast.Statement) (g : Generator)
           : option Generator :=
         match stmts with
         | [] => Some g
         | stmt :: stmts' =>
             g <- generateStatement stmt g ;;
             each_statement stmts' g
         end) statements g
  end.

(** The loop of [Generate] over the statements of the program. *)
Fixpoint topLevel (stmts : list ast.Statement) (g : Generator)
    : option Generator :=
  match stmts with
  | [] => Some g
  | stmt :: stmts' =>
      g <- generateStatement stmt g ;;
      (* Add blank line between top-level statements, but not after the
         last one *)
      match stmts' with
      | [] => Some g
      | _ :: _ => topLevel stmts' (writeLine EmptyString g)
      end
  end.

(** [Generate] generates Go code from the AST. *)
Definition Generate (program : ast.Program) : option string :=
  let g := New in
  (* Generate package declaration *)
  let g := writeLine ("package " ++ ast.Package program) g in
  let g := writeLine EmptyString g in
  (* Generate imports *)
  let g :=
    match ast.Imports program with
    | _ :: _ =>
        let g := indent 1 (writeLine "import (" g) in
        let g := fold_left (fun g imp => generateImport imp g)
                   (ast.Imports program) g in
        writeLine EmptyString (writeLine ")" (indent (-1) g))
    | [] => g
    end in
  (* Generate statements *)
  g <- topLevel (ast.Program_Statements program) g ;;
  Some (output g).

End Expressions.

End codegen.

(** ** The compiler driver (package main) *)

Module main.
Import strings.

(** The raw string literal of a quoted package name. *)
Definition quoted (name : string) : string :=
  String DQUOTE (name ++ String DQUOTE EmptyString).

(** The list [imports] that [addRequiredImports] makes before it inserts
    it. *)
Definition requiredImports (code : string) : list string :=
  let imports := [] in
  (* Always add fmt for built-in functions (print, printf, etc.) *)
  let imports := (imports ++ [quoted "fmt"])%list in
  (* Add other imports based on usage *)
  let imports :=
    if Contains code "bufio." then (imports ++ [quoted "bufio"])%list else imports in
  let imports :=
    if Contains code "os." then (imports ++ [quoted "os"])%list else imports in
  let imports :=
    if Contains code "time." then (imports ++ [quoted "time"])%list else imports in
  let imports :=
    if Contains code "strings." then (imports ++ [quoted "strings"])%list
    else imports in
  let imports :=
    if Contains code "strconv." then (imports ++ [quoted "strconv"])%list
    else imports in
  let imports :=
    if Contains code "reflect." then (imports ++ [quoted "reflect"])%list
    else imports in
  (* Check if imports already exist to avoid duplicates *)
  let hasExistingImports :=
    Contains code "import (" || Contains code ("import " ++ codegen.QUOTE) in
  (* Only add automatic imports if there are no existing imports *)
  if negb hasExistingImports then
    (* Check for math usage (power operator) *)
    if Contains code "math.Pow" then (imports ++ [quoted "math"])%list else imports
  else imports.

(** The lines of an import section: the lines that [addRequiredImports]
    appends to [result] at either place. *)
Definition importSection (imports : list string) : list string :=
  (["import ("] ++ map (fun imp => String TAB imp) imports
   ++ [")"; EmptyString])%list.

(** The variables of the loop over the lines. *)
Record scan : Type := mkScan {
  result : list string;
  packageFound : bool;
  importSectionAdded : bool
}.

Definition scanLine (imports : list string) (st : scan) (line : string)
    : scan :=
  let result := (result st ++ [line])%list in
  let packageFound :=
    if HasPrefix line "package " then true else packageFound st in
  (* Add imports after package declaration and empty line *)
  if packageFound && negb (importSectionAdded st)
     && String.eqb line EmptyString
  then mkScan (result ++ importSection imports)%list packageFound true
  else mkScan result packageFound (importSectionAdded st).

Definition addRequiredImports (code : string) : string :=
  let imports := requiredImports code in
  (* If we have imports to add, insert them *)
  if (0 <? List.length imports)%nat then
    let lines := Split code LF in
    (* Find package declaration *)
    let st := fold_left (scanLine imports) lines (mkScan [] false false) in
    (* If no empty line was found after package, add imports at the end *)
    let result :=
      if packageFound st && negb (importSectionAdded st)
      then (result st ++ [EmptyString] ++ importSection imports)%list
      else result st in
    Join result (String LF EmptyString)
  else code.


Section Compile.

Variable float : Z -> Z -> string.


End Compile.

End main.

(** * Properties of the lexer *)

Module LexerFacts.
Import lexer.

Lemma get_out_of_range (s : string) (n : nat) :
  String.length s <= n -> String.get n s = None.
Proof.
  revert n. induction s as [|c s IH]; intros n H; simpl in *.
  - reflexivity.
  - destruct n as [|n]; [lia|]. apply IH. lia.
Qed.

Lemma byte_at_out_of_range (s : string) (n : nat) :
  String.length s <= n -> byte_at s n = NUL.
Proof. intros H. unfold byte_at. now rewrite get_out_of_range. Qed.

(** A lexer is well formed when its cursor is consistent: the read position
    is one past the position and the current character is the byte at the
    position, or the end-of-input character past the last byte. *)
Definition wf (l : Lexer) : Prop :=
  readPosition l = S (position l) /\ ch l = byte_at (input l) (position l).

Lemma readChar_input l : input (readChar l) = input l.
Proof. reflexivity. Qed.

Lemma readChar_position l : position (readChar l) = readPosition l.
Proof. reflexivity. Qed.

Lemma readChar_ch l : ch (readChar l) = byte_at (input l) (readPosition l).
Proof.
  unfold readChar; simpl.
  destruct (Nat.leb_spec (String.length (input l)) (readPosition l)).
  - now rewrite byte_at_out_of_range.
  - reflexivity.
Qed.

Lemma wf_readChar l : wf (readChar l).
Proof. split; [reflexivity | apply readChar_ch]. Qed.

Lemma wf_New s : wf (New s).
Proof. apply wf_readChar. Qed.

Lemma wf_position_readChar l : wf l -> position (readChar l) = S (position l).
Proof. intros [H _]. now rewrite readChar_position. Qed.

Lemma wf_eof l :
  wf l -> String.length (input l) <= position l -> ch l = NUL.
Proof. intros [_ H] Hle. rewrite H. now apply byte_at_out_of_range. Qed.

(** What a scan or a token does to the cursor: the input is kept, the result
    is well formed, the position does not go back. *)
Definition follows (l l' : Lexer) : Prop :=
  wf l' /\ input l' = input l /\ position l <= position l'.

Definition advances (l l' : Lexer) : Prop :=
  wf l' /\ input l' = input l /\ position l < position l'.

Lemma follows_refl l : wf l -> follows l l.
Proof. intros H. repeat split; auto; apply H. Qed.

Lemma follows_trans l1 l2 l3 : follows l1 l2 -> follows l2 l3 -> follows l1 l3.
Proof. intros (?&?&?) (?&?&?). repeat split; try apply H2; try congruence; lia. Qed.

Lemma advances_readChar l : wf l -> advances l (readChar l).
Proof.
  intros H. repeat split; try apply wf_readChar.
  rewrite wf_position_readChar by assumption. lia.
Qed.

Lemma follows_advances l1 l2 l3 : follows l1 l2 -> advances l2 l3 -> advances l1 l3.
Proof. intros (?&?&?) (?&?&?). repeat split; try apply H2; try congruence; lia. Qed.

Lemma advances_follows l1 l2 l3 : advances l1 l2 -> follows l2 l3 -> advances l1 l3.
Proof. intros (?&?&?) (?&?&?). repeat split; try apply H2; try congruence; lia. Qed.

Lemma advances_is_follows l1 l2 : advances l1 l2 -> follows l1 l2.
Proof. intros (?&?&?). repeat split; try apply H; auto; lia. Qed.

Lemma follows_scan_loop cond n l : wf l -> follows l (scan_loop cond n l).
Proof.
  revert l. induction n as [|n IH]; intros l H; simpl.
  - now apply follows_refl.
  - destruct (cond (ch l)).
    + eapply follows_trans; [apply advances_is_follows, advances_readChar, H|].
      apply IH, wf_readChar.
    + now apply follows_refl.
Qed.

Lemma follows_scan cond l : wf l -> follows l (scan cond l).
Proof. apply follows_scan_loop. Qed.

(** A scan that starts on a character of its class reads it. *)
Lemma advances_scan cond l : wf l -> cond (ch l) = true -> advances l (scan cond l).
Proof.
  intros H Hc. unfold scan. simpl. rewrite Hc.
  eapply advances_follows; [apply advances_readChar, H|].
  apply follows_scan_loop, wf_readChar.
Qed.

(** The bound of a scan is never reached: the scan stops on a character
    outside its class. *)
Lemma scan_loop_exit cond n l :
  wf l -> cond NUL = false ->
  String.length (input l) < n + position l ->
  cond (ch (scan_loop cond n l)) = false.
Proof.
  intros Hwf Hnul. revert l Hwf. induction n as [|n IH]; intros l Hwf H; simpl.
  - rewrite (wf_eof l) by (auto; lia). assumption.
  - destruct (cond (ch l)) eqn:E; [|assumption].
    apply IH; [apply wf_readChar|].
    rewrite readChar_input, wf_position_readChar by assumption. lia.
Qed.

Lemma scan_exit cond l :
  wf l -> cond NUL = false -> cond (ch (scan cond l)) = false.
Proof. intros. apply scan_loop_exit; auto. lia. Qed.

Lemma advances_readString_loop d n l :
  wf l -> advances l (readString_loop d (S n) l).
Proof.
  revert l. induction n as [|n IH]; intros l H.
  - simpl. pose proof (advances_readChar l H) as A.
    pose proof (advances_readChar _ (wf_readChar l)) as B.
    repeat match goal with |- context [if ?b then _ else _] => destruct b end;
      auto.
    eapply advances_follows; [exact A | apply advances_is_follows, B].
  - change (readString_loop d (S (S n)) l) with
      (let l1 := readChar l in
       if Ascii.eqb (ch l1) d || Ascii.eqb (ch l1) NUL then l1
       else if Ascii.eqb (ch l1) BACKSLASH
            then readString_loop d (S n) (readChar l1)
            else readString_loop d (S n) l1).
    cbv zeta. pose proof (advances_readChar l H) as A.
    pose proof (advances_readChar _ (wf_readChar l)) as B.
    repeat match goal with |- context [if ?b then _ else _] => destruct b end.
    + exact A.
    + eapply advances_follows; [exact A|].
      eapply follows_trans; [apply advances_is_follows, B|].
      apply advances_is_follows, IH, wf_readChar.
    + eapply advances_follows; [exact A|].
      apply advances_is_follows, IH, wf_readChar.
Qed.

(** The bound of the loop of [readString] is never reached: the loop ends on
    the delimiter or at the end of the input. *)
Lemma readString_loop_exit d n l :
  wf l -> String.length (input l) < n + position l ->
  let l' := readString_loop d n l in ch l' = d \/ ch l' = NUL.
Proof.
  revert l. induction n as [|n IH]; intros l Hwf H; cbn [readString_loop].
  - right. apply wf_eof; auto. lia.
  - destruct (Ascii.eqb_spec (ch (readChar l)) d) as [E|E]; cbn [orb];
      [now left|].
    destruct (Ascii.eqb_spec (ch (readChar l)) NUL) as [E0|E0]; [now right|].
    pose proof (wf_position_readChar l Hwf).
    pose proof (wf_position_readChar _ (wf_readChar l)).
    destruct (Ascii.eqb (ch (readChar l)) BACKSLASH);
      apply IH; try apply wf_readChar; rewrite ?readChar_input; lia.
Qed.

(** *** [NextToken] moves the cursor forward *)

Lemma advances_single t l : wf l -> advances l (snd (single t l)).
Proof. apply advances_readChar. Qed.

Lemma advances_double t l : wf l -> advances l (snd (double t l)).
Proof.
  intros H. simpl. eapply advances_follows; [apply advances_readChar, H|].
  apply advances_is_follows, advances_readChar, wf_readChar.
Qed.

Lemma advances_quoted t d l : wf l -> advances l (snd (quoted t d l)).
Proof.
  intros H. unfold quoted, readString.
  pose proof (advances_readString_loop d (String.length (input l)) l H) as A.
  destruct (slice _ _ _); simpl; [|exact A].
  eapply advances_follows; [exact A|].
  apply advances_is_follows, advances_readChar, A.
Qed.

Lemma snd_readComment l : snd (readComment l) = scan isCommentBody l.
Proof. reflexivity. Qed.

Lemma snd_readIdentifier l : snd (readIdentifier l) = scan isAlphaNumeric l.
Proof. reflexivity. Qed.

Lemma advances_readNumber l :
  wf l -> isDigit (ch l) = true -> advances l (snd (readNumber l)).
Proof.
  intros H Hd. unfold readNumber.
  pose proof (advances_scan isDigit l H Hd) as A.
  set (l1 := scan isDigit l) in *.
  assert (W1 : wf l1) by apply A.
  destruct (Ascii.eqb (ch l1) "." && isDigit (peekChar l1)).
  - assert (B : follows l1 (scan isDigit (readChar l1))).
    { eapply follows_trans; [apply advances_is_follows, advances_readChar, W1|].
      apply follows_scan, wf_readChar. }
    set (l2 := scan isDigit (readChar l1)) in *.
    assert (W2 : wf l2) by apply B.
    destruct (Ascii.eqb (ch l2) "e" || Ascii.eqb (ch l2) "E"); simpl.
    + eapply advances_follows; [exact A|].
      eapply follows_trans; [exact B|].
      eapply follows_trans; [apply advances_is_follows, advances_readChar, W2|].
      destruct (_ || _).
      * eapply follows_trans;
          [apply advances_is_follows, advances_readChar, wf_readChar|].
        apply follows_scan, wf_readChar.
      * apply follows_scan, wf_readChar.
    + eapply advances_follows; [exact A | exact B].
  - destruct (Ascii.eqb (ch l1) "e" || Ascii.eqb (ch l1) "E"); simpl.
    + eapply advances_follows; [exact A|].
      eapply follows_trans; [apply advances_is_follows, advances_readChar, W1|].
      destruct (_ || _).
      * eapply follows_trans;
          [apply advances_is_follows, advances_readChar, wf_readChar|].
        apply follows_scan, wf_readChar.
      * apply follows_scan, wf_readChar.
    + exact A.
Qed.

Lemma isCommentBody_hash c : eqc c "#" = true -> isCommentBody c = true.
Proof. unfold eqc. intros H. apply Ascii.eqb_eq in H. now subst. Qed.

Lemma isAlphaNumeric_letter c : isLetter c = true -> isAlphaNumeric c = true.
Proof. unfold isAlphaNumeric. now intros ->. Qed.

Lemma advances_NextToken l : wf l -> advances l (snd (NextToken l)).
Proof.
  intros H. unfold NextToken.
  pose proof (follows_scan isBlank l H) as F. fold (skipWhitespace l) in F.
  set (l1 := skipWhitespace l) in *. assert (W : wf l1) by apply F.
  cbv zeta. eapply follows_advances; [exact F|].
  repeat match goal with
  | |- context [if eqc ?a ?b then _ else _] => destruct (eqc a b) eqn:?
  end; auto using advances_single, advances_double, advances_quoted.
  - (* comment *)
    assert (A : advances l1 (snd (readComment l1))).
    { rewrite snd_readComment. apply advances_scan; auto.
      now apply isCommentBody_hash. }
    destruct (readComment l1) as [[s|] l2]; exact A.
  - (* end of input *)
    apply advances_readChar, W.
  - destruct (isLetter (ch l1)) eqn:EL; [|destruct (isDigit (ch l1)) eqn:ED].
    + assert (A : advances l1 (snd (readIdentifier l1))).
      { rewrite snd_readIdentifier. apply advances_scan; auto.
        now apply isAlphaNumeric_letter. }
      destruct (readIdentifier l1) as [[s|] l2]; exact A.
    + pose proof (advances_readNumber l1 W ED) as A.
      destruct (readNumber l1) as [[[s ty]|] l2]; exact A.
    + apply advances_single, W.
Qed.

(** At the end of the input [NextToken] returns an end-of-file token. *)
Lemma NextToken_at_end l :
  wf l -> String.length (input l) <= position l ->
  NextToken l =
    (Some (mkToken EOF EmptyString (line l) (column l) (Z.of_nat (position l))),
     readChar l).
Proof.
  intros H Hle. pose proof (wf_eof l H Hle) as E.
  assert (S : skipWhitespace l = l).
  { unfold skipWhitespace, scan. simpl. now rewrite E. }
  unfold NextToken. rewrite S. cbv zeta. rewrite E. reflexivity.
Qed.

Lemma wf_after n l : wf l -> wf (after n l).
Proof.
  revert l. induction n as [|n IH]; intros l H; simpl; auto.
  apply IH, advances_NextToken, H.
Qed.

Lemma input_after n l : wf l -> input (after n l) = input l.
Proof.
  revert l. induction n as [|n IH]; intros l H; simpl; auto.
  destruct (advances_NextToken l H) as (W & I & _). rewrite IH; auto.
Qed.

Lemma position_after n l : wf l -> position l + n <= position (after n l).
Proof.
  revert l. induction n as [|n IH]; intros l H; simpl; [lia|].
  destruct (advances_NextToken l H) as (W & _ & P).
  specialize (IH _ W). lia.
Qed.

(** The end of the input is reached after at most [String.length s] calls. *)
Lemma end_reached s k :
  String.length s <= k -> String.length s <= position (after k (New s)).
Proof.
  intros H. pose proof (position_after k (New s) (wf_New s)). lia.
Qed.

Definition isEOF (t : Token) : bool := TokenType_eqb (Type_ t) EOF.

Lemma tokens_at_end n l :
  wf l -> String.length (input l) <= position l ->
  List.length (tokens n l) = n /\ Forall (fun t => Type_ t = EOF) (tokens n l).
Proof.
  revert l. induction n as [|n IH]; intros l H Hle; simpl.
  - split; constructor.
  - rewrite NextToken_at_end by assumption.
    destruct (IH (readChar l)) as [IH1 IH2].
    + apply wf_readChar.
    + rewrite readChar_input, wf_position_readChar by assumption. lia.
    + split; [simpl; now rewrite IH1 | constructor; auto].
Qed.

Lemma count_tokens n l :
  wf l ->
  List.length (filter (fun t => negb (isEOF t)) (tokens n l))
  <= String.length (input l) - position l.
Proof.
  revert l. induction n as [|n IH]; intros l H; simpl; [lia|].
  destruct (advances_NextToken l H) as (W & I & P).
  destruct (Nat.le_gt_cases (String.length (input l)) (position l)) as [Hle|Hlt].
  - rewrite NextToken_at_end in * by assumption.
    cbn [snd filter isEOF Type_ TokenType_eqb negb] in *.
    specialize (IH _ W). rewrite I in IH.
    match goal with
    | |- context [negb (isEOF ?t)] =>
        change (negb (isEOF t)) with false
    end.
    cbv iota. lia.
  - destruct (NextToken l) as [[t|] l']; cbn [snd filter] in *; [|simpl; lia].
    specialize (IH _ W). rewrite I in IH.
    destruct (negb (isEOF t)); simpl; lia.
Qed.

(** *** The token after a comment *)

Lemma LookupIdent_not_COMMENT s : LookupIdent s <> COMMENT.
Proof.
  unfold LookupIdent, Keywords, lookup.
  repeat match goal with
  | |- context [if String.eqb ?a ?b then _ else _] =>
      destruct (String.eqb a b)
  end; discriminate.
Qed.

Lemma readNumber_type l s ty l' :
  readNumber l = (Some (s, ty), l') -> ty = INT \/ ty = FLOAT.
Proof.
  unfold readNumber.
  destruct (Ascii.eqb _ "." && _); cbv zeta;
  match goal with |- context [if ?b then _ else _] => destruct b end;
  cbv zeta; destruct (slice _ _ _); intros H; inversion H; auto.
Qed.

(** A comment token leaves the lexer on the newline or at the end of the
    input. *)
Lemma NextToken_comment l tok l' :
  wf l -> NextToken l = (Some tok, l') -> Type_ tok = COMMENT ->
  isCommentBody (ch l') = false.
Proof.
  intros H. unfold NextToken.
  pose proof (follows_scan isBlank l H) as F. fold (skipWhitespace l) in F.
  set (l1 := skipWhitespace l) in *. assert (W : wf l1) by apply F.
  cbv zeta. unfold single, double, quoted.
  repeat match goal with
  | |- context [if eqc ?a ?b then _ else _] => destruct (eqc a b) eqn:?
  end;
  try (intros E T; inversion E; subst; simpl in T; discriminate).
  - destruct (readString DQUOTE l1) as [[s|] l2];
      intros E T; inversion E; subst; simpl in T; discriminate.
  - destruct (readString SQUOTE l1) as [[s|] l2];
      intros E T; inversion E; subst; simpl in T; discriminate.
  - unfold readComment. destruct (slice _ _ _); intros E T; inversion E; subst.
    apply scan_exit; auto.
  - destruct (isLetter (ch l1)); [|destruct (isDigit (ch l1))].
    + destruct (readIdentifier l1) as [[s|] l2];
        intros E T; inversion E; subst; simpl in T.
      now apply LookupIdent_not_COMMENT in T.
    + destruct (readNumber l1) as [[[s ty]|] l2] eqn:R;
        intros E T; inversion E; subst; simpl in T.
      apply readNumber_type in R. destruct R; congruence.
    + intros E T; inversion E; subst; simpl in T; discriminate.
Qed.

(** On a newline or at the end of the input [NextToken] returns a token that
    is no comment. *)
Lemma NextToken_after_comment l :
  isCommentBody (ch l) = false ->
  exists tok, NextToken l = (Some tok, readChar l) /\ Type_ tok <> COMMENT.
Proof.
  intros H. unfold isCommentBody in H.
  assert (C : ch l = LF \/ ch l = NUL).
  { destruct (Ascii.eqb_spec (ch l) LF); auto.
    destruct (Ascii.eqb_spec (ch l) NUL); auto. discriminate. }
  assert (S : skipWhitespace l = l).
  { unfold skipWhitespace, scan. simpl. destruct C as [C|C]; now rewrite C. }
  unfold NextToken. rewrite S. cbv zeta.
  destruct C as [C|C]; rewrite C; eexists; (split; [reflexivity | discriminate]).
Qed.

(** ** The claims about the lexer *)

Definition LFs : string := String LF EmptyString.

(** The kinds and the literal texts of the first [n] tokens of a source. *)
Definition lexemes (n : nat) (source : string) : list (TokenType * string) :=
  map (fun t => (Type_ t, Literal t)) (tokens n (New source)).

(** C5: for every input string, once the lexer has consumed the whole input
    (its position is at or past the end, after any number [k] of calls),
    every later call of [NextToken] returns a token: none of the next [n]
    calls panics, for every [n], and each token is of kind end-of-file. *)
Theorem NextToken_eof_forever (s : string) (k : nat) :
  String.length s <= position (after k (New s)) ->
  forall n,
    List.length (tokens n (after k (New s))) = n /\
    Forall (fun t => Type_ t = EOF) (tokens n (after k (New s))).
Proof.
  intros H n. apply tokens_at_end.
  - apply wf_after, wf_New.
  - rewrite input_after by apply wf_New. exact H.
Qed.

Lemma NextToken_eof_forever_witness :
  String.length "42" <= position (after 1 (New "42")) /\
  List.length (tokens 5 (after 1 (New "42"))) = 5 /\
  Forall (fun t => Type_ t = EOF) (tokens 5 (after 1 (New "42"))).
Proof.
  assert (H : String.length "42" <= position (after 1 (New "42")))
    by (vm_compute; apply le_n).
  split; [exact H | exact (NextToken_eof_forever "42" 1 H 5)].
Defined.

(** C6: lexing [42] yields one integer token with the text [42], and lexing
    [3.14], [1.5e10] and [2.5E-3] yields one float token each, with the text
    of the input unchanged; the token after it is the end of the file. *)
Theorem number_literals_verbatim :
  lexemes 2 "42" = [(INT, "42"); (EOF, EmptyString)] /\
  lexemes 2 "3.14" = [(FLOAT, "3.14"); (EOF, EmptyString)] /\
  lexemes 2 "1.5e10" = [(FLOAT, "1.5e10"); (EOF, EmptyString)] /\
  lexemes 2 "2.5E-3" = [(FLOAT, "2.5E-3"); (EOF, EmptyString)].
Proof. repeat split; reflexivity. Qed.

(** C8 fails on the code: an identifier that ends its line gets the line
    number of the next line and a negative column, because [NextToken]
    computes them from the cursor after the scan has read the newline; the
    newline token itself gets column 0 and the number of the line it opens. *)
Theorem token_position_after_newline :
  tokens 2 (New ("abc" ++ LFs)) =
    [ mkToken IDENT "abc" 2 (-3) 0; mkToken NEWLINE LFs 2 0 3 ].
Proof. reflexivity. Qed.

(** C10: every call of [NextToken], on any lexer reached from [New s] by
    calls of [NextToken], moves the position forward by at least one
    character (whatever the current character, and also when the call ends
    in a panic: the position has moved by then); consequently no more than
    [String.length s] of the tokens of [s] are not end-of-file tokens,
    however many are asked for. *)
Theorem NextToken_progress (s : string) (k : nat) :
  position (after k (New s)) < position (snd (NextToken (after k (New s)))) /\
  forall n,
    List.length (filter (fun t => negb (isEOF t)) (tokens n (New s)))
    <= String.length s.
Proof.
  split.
  - apply advances_NextToken, wf_after, wf_New.
  - intros n. pose proof (count_tokens n (New s) (wf_New s)) as H.
    change (input (New s)) with s in H. lia.
Qed.

End LexerFacts.

(** * More properties of the lexer and of the alias table *)

Module TokenFacts.
Import lexer LexerFacts.

(** ** Kinds of tokens *)

Definition isKeyword (t : TokenType) : bool :=
  existsb (fun kv => TokenType_eqb (snd kv) t) Keywords.

(** The kinds [LookupIdent] can return: the keywords and [IDENT]. *)
Lemma LookupIdent_kind s :
  LookupIdent s = IDENT \/ isKeyword (LookupIdent s) = true.
Proof.
  unfold LookupIdent, Keywords, lookup.
  repeat match goal with
  | |- context [if String.eqb ?a ?b then _ else _] =>
      destruct (String.eqb a b); [right; reflexivity|]
  end.
  left; reflexivity.
Qed.

(** Which branch of [NextToken] a kind comes from. *)
Inductive origin : Set := Word | Number | Quoted | Comment | Symbol | Never.

Definition origin_of (t : TokenType) : origin :=
  if isKeyword t then Word
  else match t with
       | IDENT => Word
       | INT | FLOAT => Number
       | STRING | CHAR => Quoted
       | COMMENT => Comment
       | EOF | INDENT | DEDENT => Never
       | _ => Symbol
       end.

Lemma origin_LookupIdent s : origin_of (LookupIdent s) = Word.
Proof.
  destruct (LookupIdent_kind s) as [E|E]; unfold origin_of.
  - rewrite E. reflexivity.
  - rewrite E. reflexivity.
Qed.

(** The branches of the [switch] of [NextToken], on the lexer [l] that
    [skipWhitespace] leaves: the token and the lexer each one returns. *)
Inductive branch (l : Lexer) : Token -> Lexer -> Prop :=
  | branch_single t :
      origin_of t = Symbol -> ch l <> NUL -> nat_of_ascii (ch l) < 128 ->
      branch l (newToken t (ch l) (line l) (column l) (position l))
        (readChar l)
  | branch_double t :
      origin_of t = Symbol -> ch l <> NUL -> nat_of_ascii (ch l) < 128 ->
      peekChar l <> NUL -> nat_of_ascii (peekChar l) < 128 ->
      branch l
        (mkToken t (string_of_byte (ch l) ++ string_of_byte (ch (readChar l)))
           (line (readChar l)) (column (readChar l) - 1)
           (Z.of_nat (position (readChar l)) - 1))
        (readChar (readChar l))
  | branch_quoted t d s l1 :
      (t = STRING /\ d = DQUOTE) \/ (t = CHAR /\ d = SQUOTE) ->
      ch l = d -> readString d l = (Some s, l1) ->
      branch l (mkToken t s (line l1) (column l1) (Z.of_nat (position l1)))
        (readChar l1)
  | branch_comment s l1 :
      ch l = "#"%char -> readComment l = (Some s, l1) ->
      branch l (mkToken COMMENT s (line l1) (column l1) (Z.of_nat (position l1)))
        l1
  | branch_eof :
      ch l = NUL ->
      branch l
        (mkToken EOF EmptyString (line l) (column l) (Z.of_nat (position l)))
        (readChar l)
  | branch_word s l1 :
      isLetter (ch l) = true -> readIdentifier l = (Some s, l1) ->
      branch l
        (mkToken (LookupIdent s) s (line l1) (column l1 - len s)
           (Z.of_nat (position l1) - len s)) l1
  | branch_number s ty l1 :
      isDigit (ch l) = true -> readNumber l = (Some (s, ty), l1) ->
      branch l
        (mkToken ty s (line l1) (column l1 - len s)
           (Z.of_nat (position l1) - len s)) l1.

Lemma eqc_true a b : eqc a b = true -> a = b.
Proof. apply Ascii.eqb_eq. Qed.

Lemma eqc_false a b : eqc a b = false -> a <> b.
Proof. apply Ascii.eqb_neq. Qed.

Lemma isLetter_false_ascii c : isLetter c = false -> nat_of_ascii c < 128.
Proof.
  unfold isLetter. cbv zeta. intros H.
  apply orb_false_iff in H. destruct H as [_ H].
  apply Nat.ltb_ge in H. lia.
Qed.

(** What the tests of [NextToken] tell about the current and the next
    character. *)
Ltac char_facts :=
  repeat match goal with
  | H : eqc _ _ = true |- _ => apply eqc_true in H
  end;
  match goal with
  | H : ?c = _ |- ?c <> NUL => rewrite H; discriminate
  | H : ?c = _ |- nat_of_ascii ?c < 128 =>
      rewrite H; apply Nat.ltb_lt; reflexivity
  | H : eqc ?c NUL = false |- ?c <> NUL => apply eqc_false, H
  | H : isLetter ?c = false |- nat_of_ascii ?c < 128 =>
      apply isLetter_false_ascii, H
  | H : ?c = _ |- ?c = _ => exact H
  end.

Lemma NextToken_branch l tok l' :
  NextToken l = (Some tok, l') -> branch (skipWhitespace l) tok l'.
Proof.
  unfold NextToken. set (l1 := skipWhitespace l). cbv zeta.
  repeat match goal with
  | |- context [if eqc ?a ?b then _ else _] => destruct (eqc a b) eqn:?
  end;
  try (unfold single; intros E; inversion E; subst;
       apply branch_single; [reflexivity | char_facts | char_facts]);
  try (unfold double; intros E; inversion E; subst;
       apply branch_double; [reflexivity | char_facts..]).
  - unfold quoted. destruct (readString DQUOTE l1) as [[s|] l2] eqn:R;
      intros E; inversion E; subst.
    eapply branch_quoted; eauto. char_facts.
  - unfold quoted. destruct (readString SQUOTE l1) as [[s|] l2] eqn:R;
      intros E; inversion E; subst.
    eapply branch_quoted; eauto. char_facts.
  - destruct (readComment l1) as [[s|] l2] eqn:R;
      intros E; inversion E; subst.
    apply branch_comment; auto. char_facts.
  - intros E; inversion E; subst. apply branch_eof. char_facts.
  - destruct (isLetter (ch l1)) eqn:EL; [|destruct (isDigit (ch l1)) eqn:ED].
    + destruct (readIdentifier l1) as [[s|] l2] eqn:R;
        intros E; inversion E; subst. now apply branch_word.
    + destruct (readNumber l1) as [[[s ty]|] l2] eqn:R;
        intros E; inversion E; subst. now apply branch_number.
    + unfold single; intros E; inversion E; subst.
      apply branch_single; [reflexivity | char_facts | char_facts].
Qed.

(** The kind of a token tells its branch. *)
Lemma branch_origin l tok l' :
  branch l tok l' ->
  match origin_of (Type_ tok) with
  | Word => exists s, readIdentifier l = (Some s, l')
                      /\ isLetter (ch l) = true
                      /\ Literal tok = s /\ Type_ tok = LookupIdent s
  | Number => exists s, readNumber l = (Some (s, Type_ tok), l')
                        /\ isDigit (ch l) = true /\ Literal tok = s
  | Symbol | Quoted | Comment => True
  | Never => Type_ tok = EOF
  end.
Proof.
  intros B. destruct B; cbn [Type_ Literal newToken].
  - rewrite H. exact Logic.I.
  - rewrite H. exact Logic.I.
  - destruct H as [[-> _]|[-> _]]; exact Logic.I.
  - exact Logic.I.
  - reflexivity.
  - rewrite origin_LookupIdent. eauto.
  - pose proof (readNumber_type _ _ _ _ H0) as [->| ->]; cbn; eauto.
Qed.

(** X3: no token that [NextToken] returns is an [INDENT] or a [DEDENT]:
    [handleIndentation] is not called, so indentation is invisible to the
    parser. *)
Theorem NextToken_never_indents (l : Lexer) (tok : Token) (l' : Lexer) :
  NextToken l = (Some tok, l') ->
  Type_ tok <> INDENT /\ Type_ tok <> DEDENT.
Proof.
  intros H. apply NextToken_branch, branch_origin in H.
  split; intros E; rewrite E in H; discriminate.
Qed.

Lemma NextToken_never_indents_witness :
  NextToken (New "    x") = (Some (mkToken IDENT "x" 1 5 4), after 1 (New "    x"))
  /\ IDENT <> INDENT /\ IDENT <> DEDENT.
Proof.
  assert (H : NextToken (New "    x")
              = (Some (mkToken IDENT "x" 1 5 4), after 1 (New "    x")))
    by (vm_compute; reflexivity).
  split; [exact H | exact (NextToken_never_indents _ _ _ H)].
Defined.

(** X4: a token has the kind of a keyword only when its literal is that
    keyword, and the kind [IDENT] only when its literal is no keyword: for
    these kinds the kind is [LookupIdent] of the literal. *)
Theorem keyword_tokens (l : Lexer) (tok : Token) (l' : Lexer) :
  NextToken l = (Some tok, l') ->
  Type_ tok = IDENT \/ isKeyword (Type_ tok) = true ->
  Type_ tok = LookupIdent (Literal tok).
Proof.
  intros H K. apply NextToken_branch, branch_origin in H.
  assert (O : origin_of (Type_ tok) = Word)
    by (unfold origin_of; destruct K as [K|K]; rewrite K; reflexivity).
  rewrite O in H. destruct H as (s & _ & _ & L & T). congruence.
Qed.

Lemma keyword_tokens_witness :
  NextToken (New "while x") = (Some (mkToken WHILE "while" 1 1 0),
                               after 1 (New "while x"))
  /\ WHILE = LookupIdent "while".
Proof.
  assert (H : NextToken (New "while x")
              = (Some (mkToken WHILE "while" 1 1 0), after 1 (New "while x")))
    by (vm_compute; reflexivity).
  split; [exact H|].
  apply (keyword_tokens _ _ _ H). right. reflexivity.
Defined.

(** ** The names of the kinds *)

Definition kinds : list TokenType :=
  [ ILLEGAL; EOF; COMMENT; IDENT; INT; FLOAT; STRING; CHAR;
    AND; OR; NOT; IF_; ELIF; ELSE; FOR; WHILE; FUNC; RETURN;
    IMPORT; FROM; STRUCT; INTERFACE; VAR; CONST; TRUE; FALSE; NIL;
    IN; RANGE; BREAK; CONTINUE; DEFER; GO; CHAN; SELECT; CASE;
    DEFAULT; SWITCH; TYPE; PACKAGE;
    ASSIGN; WALRUS; PLUS; MINUS; MULTIPLY; DIVIDE; MODULO; POWER;
    EQ; NOT_EQ; LT; LT_EQ; GT; GT_EQ;
    PLUS_EQ; MINUS_EQ; MULT_EQ; DIV_EQ; MOD_EQ;
    BITWISE_AND; BITWISE_OR; BITWISE_XOR; LEFT_SHIFT; RIGHT_SHIFT;
    BIT_CLEAR; INCREMENT; DECREMENT;
    COMMA; SEMICOLON; COLON; DOT; ARROW; CHANNEL;
    LPAREN; RPAREN; LBRACKET; RBRACKET; LBRACE; RBRACE;
    NEWLINE; INDENT; DEDENT ].

(** The kind with a given name. *)
Definition kind_named (name : string) : option TokenType :=
  find (fun t => String.eqb (TokenTypeString t) name) kinds.

Lemma kind_named_TokenTypeString t : kind_named (TokenTypeString t) = Some t.
Proof. destruct t; vm_compute; reflexivity. Qed.

(** X5: [TokenTypeString] gives every kind a name of its own, and none the
    name [UNKNOWN] of the default case: the kinds in an error message of
    the parser identify the tokens. *)
Theorem TokenTypeString_injective (a b : TokenType) :
  (TokenTypeString a = TokenTypeString b <-> a = b)
  /\ TokenTypeString a <> "UNKNOWN".
Proof.
  split; [split|].
  - intros H. pose proof (kind_named_TokenTypeString a) as A.
    rewrite H, kind_named_TokenTypeString in A. congruence.
  - now intros ->.
  - destruct a; discriminate.
Qed.

End TokenFacts.

Module CursorFacts.
Import lexer LexerFacts TokenFacts.

(** ** Slices of the input *)

Lemma length_substring (s : string) (lo n : nat) :
  lo + n <= String.length s -> String.length (substring lo n s) = n.
Proof.
  revert lo n. induction s as [|c s IH]; intros lo n H; simpl in *.
  - assert (lo = 0) by lia. assert (n = 0) by lia. subst. reflexivity.
  - destruct lo as [|lo].
    + destruct n as [|n]; [reflexivity|]. simpl. rewrite IH; [reflexivity|lia].
    + apply IH. lia.
Qed.

Lemma substring_S (s : string) (lo n : nat) :
  lo < String.length s ->
  substring lo (S n) s = String (byte_at s lo) (substring (S lo) n s).
Proof.
  revert lo. induction s as [|c s IH]; intros lo H; simpl in *; [lia|].
  destruct lo as [|lo].
  - reflexivity.
  - rewrite IH by lia. reflexivity.
Qed.

Lemma substring_0 (s : string) (lo : nat) : substring lo 0 s = EmptyString.
Proof.
  revert lo. induction s as [|c s IH]; intros [|lo]; simpl; auto.
Qed.

Lemma slice_Some (s : string) (lo hi : nat) (x : string) :
  slice s lo hi = Some x ->
  lo <= hi <= String.length s /\ x = substring lo (hi - lo) s
  /\ String.length x = hi - lo.
Proof.
  unfold slice.
  destruct (Nat.leb_spec lo hi); destruct (Nat.leb_spec hi (String.length s));
    simpl; intros E; inversion E; subst.
  repeat split; auto. apply length_substring. lia.
Qed.

Lemma slice_in_range (s : string) (lo hi : nat) :
  lo <= hi <= String.length s -> slice s lo hi <> None.
Proof.
  intros [H1 H2]. unfold slice.
  destruct (Nat.leb_spec lo hi); destruct (Nat.leb_spec hi (String.length s));
    simpl; try lia. discriminate.
Qed.

(** ** The cursor stays within the input while a token is read *)

Lemma wf_in_range l : wf l -> ch l <> NUL -> position l < String.length (input l).
Proof.
  intros W C. destruct (Nat.lt_ge_cases (position l) (String.length (input l)));
    auto. elim C. now apply wf_eof.
Qed.

Definition within (l : Lexer) : Prop := position l <= String.length (input l).

Lemma within_readChar l : wf l -> ch l <> NUL -> within (readChar l).
Proof.
  intros W C. unfold within. rewrite readChar_input, wf_position_readChar by auto.
  apply wf_in_range; auto.
Qed.

Lemma within_scan_loop cond n l :
  wf l -> cond NUL = false -> within l -> within (scan_loop cond n l).
Proof.
  intros W N. revert l W. induction n as [|n IH]; intros l W H; simpl; auto.
  destruct (cond (ch l)) eqn:E; auto.
  apply IH; [apply wf_readChar|]. apply within_readChar; auto.
  intros C. rewrite C in E. congruence.
Qed.

Lemma within_scan cond l :
  wf l -> cond NUL = false -> within l -> within (scan cond l).
Proof. apply within_scan_loop. Qed.

Lemma isLetter_not_NUL c : isLetter c = true -> c <> NUL.
Proof. intros H E. subst. discriminate. Qed.

Lemma isDigit_not_NUL c : isDigit c = true -> c <> NUL.
Proof. intros H E. subst. discriminate. Qed.

Lemma readIdentifier_returns l :
  wf l -> within l -> fst (readIdentifier l) <> None.
Proof.
  intros W H. unfold readIdentifier. cbn [fst].
  destruct (follows_scan isAlphaNumeric l W) as (W' & I & P).
  apply slice_in_range. split; [exact P|].
  apply within_scan; auto.
Qed.

Lemma readComment_returns l :
  wf l -> within l -> fst (readComment l) <> None.
Proof.
  intros W H. unfold readComment. cbn [fst].
  destruct (follows_scan isCommentBody l W) as (W' & I & P).
  apply slice_in_range. split; [exact P|].
  apply within_scan; auto.
Qed.

Lemma within_readNumber l :
  wf l -> within l -> within (snd (readNumber l)).
Proof.
  intros W H. unfold readNumber.
  pose proof (follows_scan isDigit l W) as F.
  pose proof (within_scan isDigit l W eq_refl H) as B.
  set (l1 := scan isDigit l) in *. assert (W1 : wf l1) by apply F.
  assert (S2 : forall x, wf x -> within x ->
            within (snd (let '(ty3, l3) :=
              if Ascii.eqb (ch x) "e" || Ascii.eqb (ch x) "E"
              then
                let l2a := readChar x in
                let l2b := if Ascii.eqb (ch l2a) "+" || Ascii.eqb (ch l2a) "-"
                           then readChar l2a else l2a in
                (FLOAT, scan isDigit l2b)
              else (INT, x) in (ty3, l3)))).
  { intros x Wx Bx.
    destruct (Ascii.eqb (ch x) "e" || Ascii.eqb (ch x) "E") eqn:E; [|exact Bx].
    cbv zeta. cbn [snd].
    assert (Cx : ch x <> NUL).
    { intros C. rewrite C in E. discriminate. }
    pose proof (within_readChar x Wx Cx) as B1.
    destruct (Ascii.eqb (ch (readChar x)) "+" || Ascii.eqb (ch (readChar x)) "-")
      eqn:E2.
    - apply within_scan; [apply wf_readChar | reflexivity|].
      apply within_readChar; [apply wf_readChar|].
      intros C. rewrite C in E2. discriminate.
    - apply within_scan; [apply wf_readChar | reflexivity | exact B1]. }
  destruct (Ascii.eqb (ch l1) "." && isDigit (peekChar l1)) eqn:E.
  - assert (C1 : ch l1 <> NUL).
    { intros C. rewrite C in E. discriminate. }
    assert (B2 : within (scan isDigit (readChar l1))).
    { apply within_scan; [apply wf_readChar | reflexivity|].
      now apply within_readChar. }
    assert (W2 : wf (scan isDigit (readChar l1)))
      by apply follows_scan, wf_readChar.
    specialize (S2 _ W2 B2).
    destruct (Ascii.eqb (ch (scan isDigit (readChar l1))) "e"
              || Ascii.eqb (ch (scan isDigit (readChar l1))) "E");
      cbv zeta in *; cbn [snd] in *; exact S2.
  - specialize (S2 _ W1 B).
    destruct (Ascii.eqb (ch l1) "e" || Ascii.eqb (ch l1) "E");
      cbv zeta in *; cbn [snd] in *; exact S2.
Qed.

Lemma readNumber_slice l :
  fst (readNumber l) =
    match slice (input (snd (readNumber l))) (position l)
            (position (snd (readNumber l))) with
    | Some s => match fst (readNumber l) with
                | Some (_, ty) => Some (s, ty)
                | None => None
                end
    | None => None
    end.
Proof.
  unfold readNumber.
  destruct (Ascii.eqb _ "." && _); cbv zeta;
  match goal with |- context [if ?b then _ else _] => destruct b end;
  cbv zeta; cbn [fst snd]; destruct (slice _ _ _); reflexivity.
Qed.

Lemma readNumber_returns l :
  wf l -> within l -> isDigit (ch l) = true -> fst (readNumber l) <> None.
Proof.
  intros W H D.
  pose proof (within_readNumber l W H) as B.
  destruct (advances_readNumber l W D) as (W' & I & P).
  assert (S : slice (input (snd (readNumber l))) (position l)
                (position (snd (readNumber l))) <> None).
  { apply slice_in_range. split; [lia | exact B]. }
  revert S. unfold readNumber.
  destruct (Ascii.eqb _ "." && _); cbv zeta;
  match goal with |- context [if ?b then _ else _] => destruct b end;
  cbv zeta; cbn [fst snd]; destruct (slice _ _ _); congruence.
Qed.

(** ** Literals without a backslash *)

Definition has_byte (c : ascii) (s : string) : bool :=
  existsb (Ascii.eqb c) (list_ascii_of_string s).

Lemma has_byte_false c s i :
  has_byte c s = false -> c <> NUL -> byte_at s i <> c.
Proof.
  unfold has_byte, byte_at. revert i.
  induction s as [|a s IH]; intros i H N; simpl in *.
  - congruence.
  - apply orb_false_iff in H. destruct H as [H1 H2].
    destruct i as [|i]; simpl.
    + apply Ascii.eqb_neq in H1. congruence.
    + apply IH; auto.
Qed.

Lemma within_readString_loop d n l :
  wf l -> position l < String.length (input l) ->
  has_byte BACKSLASH (input l) = false ->
  within (readString_loop d n l).
Proof.
  revert l. induction n as [|n IH]; intros l W P B; cbn [readString_loop].
  - unfold within. lia.
  - assert (B1 : within (readChar l)).
    { unfold within. rewrite readChar_input, wf_position_readChar by auto. lia. }
    destruct (Ascii.eqb_spec (ch (readChar l)) d); cbn [orb]; [exact B1|].
    destruct (Ascii.eqb_spec (ch (readChar l)) NUL) as [E0|E0]; [exact B1|].
    pose proof (wf_in_range _ (wf_readChar l) E0) as P1.
    destruct (Ascii.eqb_spec (ch (readChar l)) BACKSLASH) as [E|E].
    + exfalso. rewrite readChar_ch in E.
      revert E. apply has_byte_false; [exact B | discriminate].
    + apply IH; auto using wf_readChar.
Qed.

Lemma readString_returns d l :
  wf l -> ch l <> NUL -> has_byte BACKSLASH (input l) = false ->
  fst (readString d l) <> None.
Proof.
  intros W C B. unfold readString. cbn [fst].
  pose proof (advances_readString_loop d (String.length (input l)) l W)
    as (W' & I & P).
  pose proof (within_readString_loop d (S (String.length (input l))) l W
                (wf_in_range l W C) B) as H.
  apply slice_in_range. split; [lia | exact H].
Qed.

(** The current character is the one a test of [NextToken] found. *)
Ltac now_char :=
  match goal with
  | H : eqc (ch ?l) ?c = true |- ch ?l <> NUL =>
      apply eqc_true in H; rewrite H; discriminate
  end.

Lemma NextToken_returns l :
  wf l -> has_byte BACKSLASH (input l) = false -> fst (NextToken l) <> None.
Proof.
  intros W B. unfold NextToken.
  pose proof (follows_scan isBlank l W) as F. fold (skipWhitespace l) in F.
  set (l1 := skipWhitespace l) in *. destruct F as (W1 & I1 & _).
  rewrite <- I1 in B.
  cbv zeta. unfold single, double, quoted.
  repeat match goal with
  | |- context [if eqc ?a ?b then _ else _] => destruct (eqc a b) eqn:?
  end; try (cbn [fst]; discriminate).
  - pose proof (readString_returns DQUOTE l1 W1) as R.
    destruct (readString DQUOTE l1) as [[s|] l2]; cbn [fst] in *;
      [discriminate|].
    exfalso. apply R; auto. now_char.
  - pose proof (readString_returns SQUOTE l1 W1) as R.
    destruct (readString SQUOTE l1) as [[s|] l2]; cbn [fst] in *;
      [discriminate|].
    exfalso. apply R; auto. now_char.
  - pose proof (readComment_returns l1 W1) as R.
    destruct (readComment l1) as [[s|] l2]; cbn [fst] in *; [discriminate|].
    exfalso. apply R; auto. apply Nat.lt_le_incl, wf_in_range; auto. now_char.
  - destruct (isLetter (ch l1)) eqn:EL; [|destruct (isDigit (ch l1)) eqn:ED].
    + pose proof (readIdentifier_returns l1 W1) as R.
      destruct (readIdentifier l1) as [[s|] l2]; cbn [fst] in *;
        [discriminate|].
      exfalso. apply R; auto. apply Nat.lt_le_incl, wf_in_range; auto.
      now apply isLetter_not_NUL.
    + pose proof (readNumber_returns l1 W1) as R.
      destruct (readNumber l1) as [[[s ty]|] l2]; cbn [fst] in *;
        [discriminate|].
      exfalso. apply R; auto. apply Nat.lt_le_incl, wf_in_range; auto.
      now apply isDigit_not_NUL.
    + cbn [fst]. discriminate.
Qed.

(** X6: on an input without a backslash no call of [NextToken] panics,
    however many calls are made. *)
Theorem NextToken_never_panics_without_backslash (s : string) (k : nat) :
  has_byte BACKSLASH s = false ->
  fst (NextToken (after k (New s))) <> None.
Proof.
  intros B. apply NextToken_returns.
  - apply wf_after, wf_New.
  - rewrite input_after by apply wf_New. exact B.
Qed.

Definition unterminated : string := String DQUOTE "abc".

Lemma NextToken_never_panics_without_backslash_witness :
  has_byte BACKSLASH unterminated = false
  /\ fst (NextToken (after 3 (New unterminated))) <> None.
Proof.
  split; [reflexivity|].
  apply (NextToken_never_panics_without_backslash unterminated 3). reflexivity.
Defined.

(** ** The text of a token *)

Lemma string_of_ascii_byte c :
  nat_of_ascii c < 128 -> string_of_byte c = String c EmptyString.
Proof.
  intros H. unfold string_of_byte. cbv zeta.
  destruct (Nat.ltb_spec (nat_of_ascii c) 128); [reflexivity | lia].
Qed.

(** The token [tok] covers the input from [start] to the cursor of [l']:
    its position is [start] and its literal is that part of the input. *)
Definition covers (start : nat) (tok : Token) (l' : Lexer) : Prop :=
  Position tok = Z.of_nat start
  /\ slice (input l') start (position l') = Some (Literal tok).

Lemma slice_one s i :
  i < String.length s ->
  slice s i (S i) = Some (String (byte_at s i) EmptyString).
Proof.
  intros H. unfold slice.
  destruct (Nat.leb_spec i (S i)); [|lia].
  destruct (Nat.leb_spec (S i) (String.length s)); [|lia]. cbn [andb].
  replace (S i - i) with 1 by lia.
  now rewrite substring_S, substring_0.
Qed.

Lemma slice_two s i :
  S i < String.length s ->
  slice s i (S (S i))
  = Some (String (byte_at s i) (String (byte_at s (S i)) EmptyString)).
Proof.
  intros H. unfold slice.
  destruct (Nat.leb_spec i (S (S i))); [|lia].
  destruct (Nat.leb_spec (S (S i)) (String.length s)); [|lia]. cbn [andb].
  replace (S (S i) - i) with 2 by lia.
  rewrite substring_S by lia. rewrite substring_S by lia.
  now rewrite substring_0.
Qed.

Lemma peekChar_readChar l : ch (readChar l) = peekChar l.
Proof. reflexivity. Qed.

Lemma branch_covers l tok l' :
  wf l -> branch l tok l' ->
  match origin_of (Type_ tok) with
  | Word | Number | Symbol => covers (position l) tok l'
  | _ => True
  end.
Proof.
  intros W B. pose proof (branch_origin l tok l' B) as O.
  destruct B; cbn [Type_ Literal newToken] in *.
  - (* one character *)
    rewrite H. split; [reflexivity|]. unfold newToken. cbn [Literal].
    rewrite string_of_ascii_byte by assumption.
    rewrite readChar_input, wf_position_readChar by assumption.
    rewrite slice_one by (apply wf_in_range; auto).
    destruct W as [_ W]. now rewrite W.
  - (* two characters *)
    rewrite H. rewrite peekChar_readChar.
    pose proof (wf_readChar l) as W1.
    assert (P1 : position (readChar l) = S (position l))
      by now apply wf_position_readChar.
    assert (R : S (position l) < String.length (input l)).
    { rewrite <- P1, <- (readChar_input l).
      apply wf_in_range; auto. }
    split; cbn [Position Literal]; [lia|].
    rewrite !string_of_ascii_byte by assumption.
    rewrite !readChar_input, wf_position_readChar, P1 by assumption.
    rewrite slice_two by assumption.
    destruct W as [_ W]. destruct W1 as [_ W1].
    rewrite <- peekChar_readChar, W1, P1, readChar_input, W. reflexivity.
  - destruct H as [[-> _]|[-> _]]; exact Logic.I.
  - exact Logic.I.
  - exact Logic.I.
  - (* a word *)
    rewrite origin_LookupIdent in *.
    unfold readIdentifier in H0. inversion H0; subst. clear H0.
    destruct (slice_Some _ _ _ _ H2) as (R & _ & L).
    split; cbn [Position Literal]; [unfold len; lia | exact H2].
  - (* a number *)
    pose proof (readNumber_type _ _ _ _ H0) as T.
    pose proof (readNumber_slice l) as S. rewrite H0 in S. cbn [fst snd] in S.
    destruct (slice (input l1) (position l) (position l1)) as [x|] eqn:E;
      [|discriminate].
    inversion S; subst x.
    destruct (slice_Some _ _ _ _ E) as (R & _ & L).
    assert (C : covers (position l)
                  (mkToken ty s (line l1) (column l1 - len s)
                     (Z.of_nat (position l1) - len s)) l1).
    { split; cbn [Position Literal]; [unfold len; lia | exact E]. }
    destruct T as [->| ->]; exact C.
Qed.

(** X7: a token that is a word, a number, an operator, a delimiter or a
    newline starts at the first character that is no blank: [Position] is
    the offset of that character, the literal is the input from there to
    the place where the lexer stops, and nothing else is consumed.  (The
    position of a string, character or comment token is the offset of its
    end.) *)
Theorem token_covers_its_text (l : Lexer) (tok : Token) (l' : Lexer) :
  wf l -> NextToken l = (Some tok, l') ->
  ~ In (Type_ tok) [STRING; CHAR; COMMENT; EOF] ->
  Position tok = Z.of_nat (position (skipWhitespace l))
  /\ slice (input l) (position (skipWhitespace l)) (position l')
     = Some (Literal tok)
  /\ position l' = position (skipWhitespace l) + String.length (Literal tok).
Proof.
  intros W E N.
  destruct (follows_scan isBlank l W) as (W1 & I1 & _).
  fold (skipWhitespace l) in *.
  pose proof (NextToken_branch l tok l' E) as B.
  pose proof (branch_covers _ _ _ W1 B) as C.
  pose proof (branch_origin _ _ _ B) as O.
  destruct (advances_NextToken l W) as (_ & I & _). rewrite E in I.
  cbn [snd] in I.
  assert (K : covers (position (skipWhitespace l)) tok l').
  { destruct (origin_of (Type_ tok)) eqn:T; auto.
    - elim N. unfold origin_of in T.
      destruct (isKeyword (Type_ tok)); [discriminate|].
      destruct (Type_ tok); try discriminate; simpl; auto.
    - elim N. unfold origin_of in T.
      destruct (isKeyword (Type_ tok)); [discriminate|].
      destruct (Type_ tok); try discriminate; simpl; auto.
    - elim N. rewrite O. simpl. auto. }
  destruct K as [K1 K2]. rewrite I in K2.
  destruct (slice_Some _ _ _ _ K2) as (R & _ & L).
  repeat split; auto. lia.
Qed.

Lemma token_covers_its_text_witness :
  wf (New "  foo+1")
  /\ NextToken (New "  foo+1")
     = (Some (mkToken IDENT "foo" 1 3 2), after 1 (New "  foo+1"))
  /\ ~ In IDENT [STRING; CHAR; COMMENT; EOF]
  /\ 2%Z = Z.of_nat (position (skipWhitespace (New "  foo+1")))
  /\ slice "  foo+1" (position (skipWhitespace (New "  foo+1")))
       (position (after 1 (New "  foo+1"))) = Some "foo"
  /\ position (after 1 (New "  foo+1"))
     = position (skipWhitespace (New "  foo+1")) + String.length "foo".
Proof.
  assert (E : NextToken (New "  foo+1")
              = (Some (mkToken IDENT "foo" 1 3 2), after 1 (New "  foo+1")))
    by (vm_compute; reflexivity).
  assert (N : ~ In IDENT [STRING; CHAR; COMMENT; EOF])
    by (simpl; intros [H|[H|[H|[H|[]]]]]; discriminate).
  split; [apply wf_New|]. split; [exact E|]. split; [exact N|].
  exact (token_covers_its_text _ _ _ (wf_New "  foo+1") E N).
Defined.

(** X8: a word is read to its end and a number to the end of its digits: the
    character after an identifier or a keyword is no letter and no digit,
    and the character after a number is no digit. *)
Theorem longest_match (l : Lexer) (tok : Token) (l' : Lexer) :
  wf l -> NextToken l = (Some tok, l') ->
  (Type_ tok = IDENT \/ isKeyword (Type_ tok) = true ->
   isAlphaNumeric (ch l') = false)
  /\ (Type_ tok = INT \/ Type_ tok = FLOAT -> isDigit (ch l') = false).
Proof.
  intros W E.
  destruct (follows_scan isBlank l W) as (W1 & _ & _).
  fold (skipWhitespace l) in *.
  pose proof (NextToken_branch l tok l' E) as B.
  pose proof (branch_origin _ _ _ B) as O. split; intros K.
  - assert (T : origin_of (Type_ tok) = Word)
      by (unfold origin_of; destruct K as [K|K]; rewrite K; reflexivity).
    rewrite T in O. destruct O as (s & R & _).
    unfold readIdentifier in R. inversion R. now apply scan_exit.
  - assert (T : origin_of (Type_ tok) = Number)
      by (destruct K as [K|K]; rewrite K; reflexivity).
    rewrite T in O. destruct O as (s & R & _).
    revert R. unfold readNumber.
    set (l1 := scan isDigit (skipWhitespace l)).
    assert (X1 : isDigit (ch l1) = false) by now apply scan_exit.
    assert (W2 : wf l1) by (apply follows_scan; auto).
    destruct (Ascii.eqb (ch l1) "." && isDigit (peekChar l1)).
    + set (l2 := scan isDigit (readChar l1)).
      assert (X2 : isDigit (ch l2) = false)
        by (apply scan_exit; auto using wf_readChar).
      destruct (Ascii.eqb (ch l2) "e" || Ascii.eqb (ch l2) "E"); cbv zeta;
        destruct (slice _ _ _); intros R; inversion R; subst; auto.
      apply scan_exit; auto.
      destruct (_ || _); auto using wf_readChar.
    + destruct (Ascii.eqb (ch l1) "e" || Ascii.eqb (ch l1) "E"); cbv zeta;
        destruct (slice _ _ _); intros R; inversion R; subst; auto.
      apply scan_exit; auto.
      destruct (_ || _); auto using wf_readChar.
Qed.

Lemma longest_match_witness :
  wf (New "x1y+2")
  /\ NextToken (New "x1y+2")
     = (Some (mkToken IDENT "x1y" 1 1 0), after 1 (New "x1y+2"))
  /\ (IDENT = IDENT \/ isKeyword IDENT = true ->
      isAlphaNumeric (ch (after 1 (New "x1y+2"))) = false)
  /\ (IDENT = INT \/ IDENT = FLOAT ->
      isDigit (ch (after 1 (New "x1y+2"))) = false).
Proof.
  assert (E : NextToken (New "x1y+2")
              = (Some (mkToken IDENT "x1y" 1 1 0), after 1 (New "x1y+2")))
    by (vm_compute; reflexivity).
  split; [apply wf_New|]. split; [exact E|].
  exact (longest_match _ _ _ (wf_New "x1y+2") E).
Defined.

Lemma readString_Some d l s l1 :
  readString d l = (Some s, l1) ->
  l1 = readString_loop d (S (String.length (input l))) l
  /\ slice (input l1) (S (position l)) (position l1) = Some s.
Proof.
  unfold readString. generalize (readString_loop d (S (String.length (input l))) l).
  intros x H. injection H as H1 H2. subst. auto.
Qed.

(** X9: a string or character token ends at its closing quote or, when
    the literal is not closed, at the end of the input or at a NUL byte,
    without an error ([byte_at] is NUL past the end of the input):
    [Position] is the offset of that end, the literal is the input between
    the opening quote and it, with the escapes as they are written, and the
    lexer goes on after it. *)
Theorem quoted_token_text (l : Lexer) (tok : Token) (l' : Lexer) :
  wf l -> NextToken l = (Some tok, l') ->
  Type_ tok = STRING \/ Type_ tok = CHAR ->
  (byte_at (input l) (Z.to_nat (Position tok))
     = (if TokenType_eqb (Type_ tok) STRING then DQUOTE else SQUOTE)
   \/ byte_at (input l) (Z.to_nat (Position tok)) = NUL)
  /\ slice (input l) (S (position (skipWhitespace l)))
       (Z.to_nat (Position tok)) = Some (Literal tok)
  /\ position l' = S (Z.to_nat (Position tok)).
Proof.
  intros W E K.
  destruct (follows_scan isBlank l W) as (W1 & I1 & _).
  fold (skipWhitespace l) in *.
  pose proof (NextToken_branch l tok l' E) as B.
  set (l0 := skipWhitespace l) in *.
  destruct B; cbn [Type_ Literal Position newToken] in *;
    try (destruct K as [K|K]; rewrite K in *; discriminate).
  - (* quoted *)
    assert (D : d = if TokenType_eqb t STRING then DQUOTE else SQUOTE)
      by (destruct H as [[-> ->]|[-> ->]]; reflexivity).
    rewrite <- D. clear D K H E.
    apply readString_Some in H1. destruct H1 as [L Sl].
    pose proof (advances_readString_loop d (String.length (input l0)) l0 W1)
      as A. rewrite <- L in A. destruct A as (W2 & I2 & P2).
    pose proof (readString_loop_exit d (S (String.length (input l0))) l0 W1)
      as X. cbv zeta in X. rewrite <- L in X.
    rewrite Nat2Z.id. rewrite <- I1, <- I2.
    repeat split; auto.
    + destruct W2 as [_ W2]. rewrite <- W2. apply X. lia.
    + now apply wf_position_readChar.
  - pose proof (origin_LookupIdent s) as O.
    destruct K as [K|K]; rewrite K in O; discriminate.
  - pose proof (readNumber_type _ _ _ _ H0) as [->| ->];
      destruct K; discriminate.
Qed.

Lemma quoted_token_text_witness :
  wf (New unterminated)
  /\ NextToken (New unterminated)
     = (Some (mkToken STRING "abc" 1 5 4), after 1 (New unterminated))
  /\ (STRING = STRING \/ STRING = CHAR)
  /\ (byte_at unterminated 4 = DQUOTE \/ byte_at unterminated 4 = NUL)
  /\ slice unterminated (S (position (skipWhitespace (New unterminated)))) 4
     = Some "abc"
  /\ position (after 1 (New unterminated)) = 5.
Proof.
  assert (E : NextToken (New unterminated)
              = (Some (mkToken STRING "abc" 1 5 4), after 1 (New unterminated)))
    by (vm_compute; reflexivity).
  split; [apply wf_New|]. split; [exact E|]. split; [now left|].
  exact (quoted_token_text _ _ _ (wf_New unterminated) E (or_introl eq_refl)).
Defined.

(** ** [peekCharAt] *)



End CursorFacts.

Module WordFacts.
Import lexer LexerFacts TokenFacts CursorFacts.

(** ** The characters of identifiers and keywords *)

(** Every character that a scan passes belongs to the class of the scan. *)
Lemma scan_loop_between cond n l i :
  wf l -> position l <= i < position (scan_loop cond n l) ->
  cond (byte_at (input l) i) = true.
Proof.
  revert l. induction n as [|n IH]; intros l W; simpl; [lia|].
  destruct (cond (ch l)) eqn:E; [|lia]. intros H.
  destruct (Nat.eq_dec i (position l)) as [->|N].
  - destruct W as [_ <-]. exact E.
  - rewrite <- (readChar_input l). apply IH; [apply wf_readChar|].
    rewrite wf_position_readChar by assumption. lia.
Qed.

Lemma substring_chars (P : ascii -> Prop) s n lo :
  lo + n <= String.length s ->
  (forall i, lo <= i < lo + n -> P (byte_at s i)) ->
  Forall P (list_ascii_of_string (substring lo n s)).
Proof.
  revert lo. induction n as [|n IH]; intros lo L H.
  - rewrite substring_0. constructor.
  - rewrite substring_S by lia. simpl. constructor.
    + apply H. lia.
    + apply IH; [lia|]. intros i I. apply H. lia.
Qed.

Lemma word_scanned l tok l' :
  wf l -> NextToken l = (Some tok, l') -> origin_of (Type_ tok) = Word ->
  (exists c rest, Literal tok = String c rest /\ isLetter c = true)
  /\ Forall (fun c => isAlphaNumeric c = true)
       (list_ascii_of_string (Literal tok)).
Proof.
  intros W E T.
  destruct (follows_scan isBlank l W) as (W1 & _ & _).
  fold (skipWhitespace l) in W1.
  pose proof (branch_origin _ _ _ (NextToken_branch l tok l' E)) as O.
  rewrite T in O. destruct O as (s & R & C & -> & _).
  set (l1 := skipWhitespace l) in *. unfold readIdentifier in R.
  cbv zeta in R. inversion R as [[Sl Ll]]. clear R.
  destruct (follows_scan isAlphaNumeric l1 W1) as (_ & I & _).
  assert (C' : isAlphaNumeric (ch l1) = true)
    by (unfold isAlphaNumeric; now rewrite C).
  destruct (advances_scan isAlphaNumeric l1 W1 C') as (_ & _ & A).
  rewrite I in Sl. destruct (slice_Some _ _ _ _ Sl) as (Rg & -> & _).
  split.
  - destruct (position (scan isAlphaNumeric l1) - position l1) as [|n] eqn:D;
      [lia|].
    rewrite substring_S by lia. destruct W1 as [_ <-]. eauto.
  - apply substring_chars; [lia|]. intros i Hi.
    apply scan_loop_between with (n := S (String.length (input l1))); auto.
    fold (scan isAlphaNumeric l1). lia.
Qed.

(** X25: the literal of an identifier or keyword token begins with a letter
    (an underscore and a byte from 128 on count as letters) and consists of
    letters and digits only: it holds no blank, no line end and no
    punctuation. *)
Theorem word_characters (l : Lexer) (tok : Token) (l' : Lexer) :
  wf l -> NextToken l = (Some tok, l') ->
  Type_ tok = IDENT \/ isKeyword (Type_ tok) = true ->
  (exists c rest, Literal tok = String c rest /\ isLetter c = true)
  /\ Forall (fun c => isAlphaNumeric c = true)
       (list_ascii_of_string (Literal tok)).
Proof.
  intros W E K. apply (word_scanned l tok l' W E).
  unfold origin_of. destruct K as [->| ->]; reflexivity.
Qed.

Lemma word_characters_witness :
  wf (New "  while_2 x")
  /\ (Type_ (mkToken IDENT "while_2" 1 3 2) = IDENT
      \/ isKeyword (Type_ (mkToken IDENT "while_2" 1 3 2)) = true)
  /\ (exists c rest,
        Literal (mkToken IDENT "while_2" 1 3 2) = String c rest
        /\ isLetter c = true)
  /\ Forall (fun c => isAlphaNumeric c = true)
       (list_ascii_of_string (Literal (mkToken IDENT "while_2" 1 3 2))).
Proof.
  split; [apply wf_New|]. split; [left; reflexivity|].
  apply (word_characters (New "  while_2 x") (mkToken IDENT "while_2" 1 3 2)
           (snd (NextToken (New "  while_2 x"))) (wf_New _)).
  - vm_compute. reflexivity.
  - left. reflexivity.
Defined.

End WordFacts.

Module IndentationFacts.
Import lexer LexerFacts.









End IndentationFacts.

Module AliasFacts.
Import lexer stdlib.

Lemma lookup_In {A} (m : list (string * A)) k v :
  lookup m k = Some v -> In (k, v) m.
Proof.
  induction m as [|[k' v'] m IH]; simpl; [discriminate|].
  destruct (String.eqb_spec k' k).
  - intros H. inversion H. subst. now left.
  - intros H. right. now apply IH.
Qed.

(** X12: resolving an alias twice is resolving it once: no real package
    path in the table is itself an alias of another package. *)
Theorem GetRealPackagePath_idempotent (alias : string) :
  GetRealPackagePath (GetRealPackagePath alias) = GetRealPackagePath alias.
Proof.
  assert (T : Forall (fun kv => GetRealPackagePath (snd kv) = snd kv)
                ImportAliases)
    by (repeat constructor).
  unfold GetRealPackagePath at 2 3.
  destruct (lookup ImportAliases alias) as [realPath|] eqn:E.
  - apply lookup_In in E. rewrite Forall_forall in T. exact (T _ E).
  - unfold GetRealPackagePath. now rewrite E.
Qed.

Lemma prefix_app (a s t : string) :
  String.prefix a s = true -> String.prefix a (s ++ t) = true.
Proof.
  revert s. induction a as [|c a IH]; intros s.
  - intros _. destruct (s ++ t); reflexivity.
  - destruct s as [|d s]; cbn [String.prefix append]; [discriminate|].
    destruct (Ascii.ascii_dec c d); auto.
Qed.

Lemma prefix_refl (a : string) : String.prefix a a = true.
Proof.
  induction a as [|c a IH]; cbn [String.prefix]; auto.
  destruct (Ascii.ascii_dec c c); congruence.
Qed.

(** X13: [IsStandardLibrary] is a test on prefixes only: the list of direct
    matches adds nothing to the list of prefixes, and every path that
    extends a standard path counts as standard (so [fmtx] and [sorting]
    do). *)
Theorem IsStandardLibrary_by_prefix (packagePath suffix : string) :
  IsStandardLibrary packagePath
    = existsb (fun prefix => HasPrefix packagePath prefix) stdPrefixes
  /\ (IsStandardLibrary packagePath = true ->
      IsStandardLibrary (packagePath ++ suffix) = true).
Proof.
  assert (D : forall p, existsb (fun m => String.eqb p m) directMatches = true ->
                existsb (fun prefix => HasPrefix p prefix) stdPrefixes = true).
  { intros p H. apply existsb_exists in H. destruct H as (m & I & E).
    apply String.eqb_eq in E. subst m. apply existsb_exists. exists p.
    split; [|apply prefix_refl].
    assert (S : forallb (fun m => existsb (String.eqb m) stdPrefixes)
                  directMatches = true) by reflexivity.
    rewrite forallb_forall in S. specialize (S _ I).
    apply existsb_exists in S. destruct S as (x & Ix & Ex).
    apply String.eqb_eq in Ex. now subst. }
  assert (E : forall p, IsStandardLibrary p
                = existsb (fun prefix => HasPrefix p prefix) stdPrefixes).
  { intros p. unfold IsStandardLibrary. specialize (D p).
    destruct (existsb (fun prefix => HasPrefix p prefix) stdPrefixes); auto.
    destruct (existsb (fun m => String.eqb p m) directMatches); auto.
    symmetry. now apply D. }
  split; [apply E|]. rewrite !E. intros H.
  apply existsb_exists in H. destruct H as (x & I & P).
  apply existsb_exists. exists x. split; auto. now apply prefix_app.
Qed.

Lemma IsStandardLibrary_by_prefix_witness :
  IsStandardLibrary "sort"
    = existsb (fun prefix => HasPrefix "sort" prefix) stdPrefixes
  /\ (IsStandardLibrary "sort" = true -> IsStandardLibrary "sorting" = true).
Proof. exact (IsStandardLibrary_by_prefix "sort" "ing"). Defined.

End AliasFacts.

(** * Properties of the parser *)

Module ParserFacts.
Import lexer parser LexerFacts.
Local Open Scope parser_scope.

(** ** Partial-correctness triples for the parser's methods *)

(** [hoare P m Q]: started in a state that satisfies [P], the method [m]
    returns, if it returns, a result and a state that satisfy [Q]. *)
Definition hoare {A} (P : Parser -> Prop) (m : M A) (Q : A -> Parser -> Prop)
    : Prop :=
  forall p, P p ->
    match m p with
    | Done a p' => Q a p'
    | Panic | OutOfFuel => True
    end.

(** [preserves I m]: the method [m] keeps the invariant [I]. *)
Definition preserves {A} (I : Parser -> Prop) (m : M A) : Prop :=
  hoare I m (fun _ => I).

Lemma hoare_bind {A B} P Q R (m : M A) (f : A -> M B) :
  hoare P m Q -> (forall a, hoare (Q a) (f a) R) -> hoare P (bind m f) R.
Proof.
  intros Hm Hf p Hp. unfold bind. specialize (Hm p Hp).
  destruct (m p) as [a p'| |]; auto. now apply Hf.
Qed.

Lemma hoare_weaken {A} (P P' : Parser -> Prop) (Q Q' : A -> Parser -> Prop) m :
  hoare P' m Q' -> (forall p, P p -> P' p) ->
  (forall a p, Q' a p -> Q a p) -> hoare P m Q.
Proof.
  intros H HP HQ p Hp. specialize (H p (HP p Hp)).
  destruct (m p); auto.
Qed.

Section Preserves.

Variable I : Parser -> Prop.

(** The invariant looks at the tokens and at the error list only through
    the two operations that change them. *)
Hypothesis I_nextToken : preserves I nextToken.
Hypothesis I_peekError : forall t, preserves I (peekError t).

Lemma preserves_bind {A B} (m : M A) (f : A -> M B) :
  preserves I m -> (forall a, preserves I (f a)) -> preserves I (bind m f).
Proof. intros. eapply hoare_bind; eauto. Qed.

Lemma preserves_ret {A} (a : A) : preserves I (ret a).
Proof. intros p Hp. exact Hp. Qed.

Lemma preserves_timeout {A} : preserves I (@outOfFuel A).
Proof. intros p Hp. exact Logic.I. Qed.

Lemma preserves_cur : preserves I cur.
Proof. intros p Hp. exact Hp. Qed.

Lemma preserves_peek : preserves I peek.
Proof. intros p Hp. exact Hp. Qed.

Lemma preserves_curTokenIs t : preserves I (curTokenIs t).
Proof. intros p Hp. exact Hp. Qed.

Lemma preserves_peekTokenIs t : preserves I (peekTokenIs t).
Proof. intros p Hp. exact Hp. Qed.

Lemma preserves_curPrecedence : preserves I curPrecedence.
Proof. intros p Hp. exact Hp. Qed.

Lemma preserves_peekPrecedence : preserves I peekPrecedence.
Proof. intros p Hp. exact Hp. Qed.

Lemma preserves_expectPeek t : preserves I (expectPeek t).
Proof.
  unfold expectPeek. apply preserves_bind; [apply preserves_peekTokenIs|].
  intros []; (apply preserves_bind; [|intros; apply preserves_ret]); auto.
Qed.

Lemma preserves_skipWhile n cond :
  preserves I cond -> preserves I (skipWhile n cond).
Proof.
  intros Hc. induction n as [|n IH]; simpl;
    (apply preserves_bind; [exact Hc|]); intros [];
    auto using preserves_ret, preserves_timeout, preserves_bind.
Qed.

Hypothesis I_parseError :
  forall msg, preserves I (addError ("could not parse " ++ msg)).
Hypothesis I_noPrefix :
  forall p, I p ->
    match noPrefixParseFnError (Type_ (curToken p)) p with
    | Done _ p' => I p'
    | Panic | OutOfFuel => True
    end.

Ltac pres_step :=
  match goal with
  | |- preserves _ (bind _ _) => apply preserves_bind; [| intros ?]
  | |- preserves _ (ret _) => apply preserves_ret
  | |- preserves _ outOfFuel => apply preserves_timeout
  | |- preserves _ (fun _ => OutOfFuel) => apply preserves_timeout
  | |- preserves _ cur => apply preserves_cur
  | |- preserves _ peek => apply preserves_peek
  | |- preserves _ (curTokenIs _) => apply preserves_curTokenIs
  | |- preserves _ (peekTokenIs _) => apply preserves_peekTokenIs
  | |- preserves _ curPrecedence => apply preserves_curPrecedence
  | |- preserves _ peekPrecedence => apply preserves_peekPrecedence
  | |- preserves _ nextToken => apply I_nextToken
  | |- preserves _ (expectPeek _) => apply preserves_expectPeek
  | |- preserves _ (skipWhile _ _) => apply preserves_skipWhile
  | |- preserves _ (addError ("could not parse " ++ _)) => apply I_parseError
  | |- preserves _ _ => solve [auto 1 with nocore]
  | |- preserves _ (if ?b then _ else _) => destruct b
  | |- preserves _ (match ?x with _ => _ end) => destruct x
  end.

Ltac pres := repeat (cbv zeta; pres_step).

Lemma preserves_importItems n items : preserves I (importItems n items).
Proof. revert items. induction n as [|n IH]; intros items; simpl; pres. Qed.

Lemma preserves_importList n items : preserves I (importList n items).
Proof. revert items. induction n as [|n IH]; intros items; simpl; pres. Qed.

Lemma preserves_parseImportDeclaration fuel :
  preserves I (parseImportDeclaration fuel).
Proof.
  unfold parseImportDeclaration.
  pose proof preserves_importItems. pose proof preserves_importList. pres.
Qed.

Lemma preserves_parseTypeSpec fuel : preserves I (parseTypeSpec fuel).
Proof. induction fuel as [|f IH]; simpl; pres. Qed.

Lemma preserves_parseParameter fuel : preserves I (parseParameter fuel).
Proof. unfold parseParameter. pose proof preserves_parseTypeSpec. pres. Qed.

Lemma preserves_parameters n fuel params :
  preserves I (parameters n fuel params).
Proof.
  revert params. pose proof preserves_parseParameter.
  induction n as [|n IH]; intros params; simpl; pres.
Qed.

Lemma preserves_parseFunctionParameters fuel :
  preserves I (parseFunctionParameters fuel).
Proof.
  unfold parseFunctionParameters.
  pose proof preserves_parseParameter. pose proof preserves_parameters. pres.
Qed.

Lemma preserves_parseIdentifier : preserves I parseIdentifier.
Proof. unfold parseIdentifier. pres. Qed.

Lemma preserves_parseIntegerLiteral : preserves I parseIntegerLiteral.
Proof. unfold parseIntegerLiteral. pres. Qed.

Lemma preserves_parseFloatLiteral : preserves I parseFloatLiteral.
Proof. unfold parseFloatLiteral. pres. Qed.

Lemma preserves_parseStringLiteral : preserves I parseStringLiteral.
Proof. unfold parseStringLiteral. pres. Qed.

Lemma preserves_parseBooleanLiteral : preserves I parseBooleanLiteral.
Proof. unfold parseBooleanLiteral. pres. Qed.

Lemma preserves_parseNilLiteral : preserves I parseNilLiteral.
Proof. unfold parseNilLiteral. pres. Qed.

Section Expressions.

Variable pe : Z -> M Expr.
Hypothesis I_pe : forall precedence, preserves I (pe precedence).

Lemma preserves_parsePrefixExpression :
  preserves I (parsePrefixExpression pe).
Proof. unfold parsePrefixExpression. pres. Qed.

Lemma preserves_parseInfixExpression left :
  preserves I (parseInfixExpression pe left).
Proof. unfold parseInfixExpression. pres. Qed.

Lemma preserves_parseGroupedExpression :
  preserves I (parseGroupedExpression pe).
Proof. unfold parseGroupedExpression. pres. Qed.

Lemma preserves_expressions n args : preserves I (expressions pe n args).
Proof. revert args. induction n as [|n IH]; intros args; simpl; pres. Qed.

Lemma preserves_parseExpressionList n close :
  preserves I (parseExpressionList pe n close).
Proof. unfold parseExpressionList. pose proof preserves_expressions. pres. Qed.

Lemma preserves_parseArrayLiteral n : preserves I (parseArrayLiteral pe n).
Proof.
  unfold parseArrayLiteral. pose proof preserves_parseExpressionList. pres.
Qed.

Lemma preserves_pairs n acc : preserves I (pairs pe n acc).
Proof. revert acc. induction n as [|n IH]; intros acc; simpl; pres. Qed.

Lemma preserves_parseMapLiteral n : preserves I (parseMapLiteral pe n).
Proof. unfold parseMapLiteral. pose proof preserves_pairs. pres. Qed.

Lemma preserves_parseCallExpression n fn :
  preserves I (parseCallExpression pe n fn).
Proof.
  unfold parseCallExpression. pose proof preserves_parseExpressionList. pres.
Qed.

Lemma preserves_parseIndexExpression left :
  preserves I (parseIndexExpression pe left).
Proof. unfold parseIndexExpression. pres. Qed.

Lemma preserves_parseSelectorExpression left :
  preserves I (parseSelectorExpression left).
Proof. unfold parseSelectorExpression. pres. Qed.

Lemma preserves_prefixParseFns n t prefix :
  prefixParseFns pe n t = Some prefix -> preserves I prefix.
Proof.
  destruct t; simpl; intros E; inversion E; subst;
    auto using preserves_parseIdentifier, preserves_parseIntegerLiteral,
      preserves_parseFloatLiteral, preserves_parseStringLiteral,
      preserves_parseBooleanLiteral, preserves_parseNilLiteral,
      preserves_parsePrefixExpression, preserves_parseGroupedExpression,
      preserves_parseArrayLiteral, preserves_parseMapLiteral.
Qed.

Lemma preserves_infixParseFns n t infix left :
  infixParseFns pe n t = Some infix -> preserves I (infix left).
Proof.
  destruct t; simpl; intros E; inversion E; subst;
    auto using preserves_parseInfixExpression, preserves_parseCallExpression,
      preserves_parseIndexExpression, preserves_parseSelectorExpression.
Qed.

Lemma preserves_climb n fns precedence left :
  preserves I (climb pe n fns precedence left).
Proof.
  revert left. induction n as [|n IH]; intros left; simpl.
  - apply preserves_bind; [apply preserves_peek|]. intros pk.
    destruct (continues precedence pk); [|apply preserves_ret].
    destruct (infixParseFns pe fns (Type_ pk)); pres.
  - apply preserves_bind; [apply preserves_peek|]. intros pk.
    destruct (continues precedence pk); [|apply preserves_ret].
    destruct (infixParseFns pe fns (Type_ pk)) eqn:E; [|apply preserves_ret].
    pose proof (preserves_infixParseFns _ _ _ left E). pres.
Qed.

Lemma preserves_parseExpression_body n precedence :
  preserves I (parseExpression_body pe n precedence).
Proof.
  intros p Hp. unfold parseExpression_body, bind at 1, cur.
  destruct (prefixParseFns pe n (Type_ (curToken p))) eqn:E.
  - pose proof (preserves_prefixParseFns _ _ _ E) as Hm.
    assert (Hk : preserves I
                   (leftExp <- m ;; climb pe n n precedence leftExp))
      by (pose proof preserves_climb; pres).
    exact (Hk p Hp).
  - unfold bind. specialize (I_noPrefix p Hp).
    destruct (noPrefixParseFnError _ p); auto.
Qed.

End Expressions.

Lemma preserves_parseExpression fuel precedence :
  preserves I (parseExpression fuel precedence).
Proof.
  revert precedence. induction fuel as [|f IH]; intros precedence; simpl;
    apply preserves_parseExpression_body; auto.
  intros. apply preserves_timeout.
Qed.

Lemma preserves_parseVarDeclaration fuel :
  preserves I (parseVarDeclaration fuel).
Proof.
  unfold parseVarDeclaration.
  pose proof preserves_parseExpression. pose proof preserves_parseTypeSpec.
  pres.
Qed.

Lemma preserves_parseReturnStatement fuel :
  preserves I (parseReturnStatement fuel).
Proof. unfold parseReturnStatement. pose proof preserves_parseExpression. pres. Qed.

Lemma preserves_parseExpressionStatement fuel :
  preserves I (parseExpressionStatement fuel).
Proof.
  unfold parseExpressionStatement. pose proof preserves_parseExpression. pres.
Qed.

Section Statements.

Variable fuel : nat.
Variable ps : M ast.Statement.
Hypothesis I_ps : preserves I ps.

Lemma preserves_blockStatements n stmts :
  preserves I (blockStatements ps n stmts).
Proof. revert stmts. induction n as [|n IH]; intros stmts; simpl; pres. Qed.

Lemma preserves_parseBlockStatement :
  preserves I (parseBlockStatement fuel ps).
Proof.
  unfold parseBlockStatement. pose proof preserves_blockStatements. pres.
Qed.

Lemma preserves_parseFunctionDeclaration :
  preserves I (parseFunctionDeclaration fuel ps).
Proof.
  unfold parseFunctionDeclaration.
  pose proof preserves_parseBlockStatement.
  pose proof preserves_parseFunctionParameters.
  pose proof preserves_parseTypeSpec. pres.
Qed.

Lemma preserves_structMembers n name fields methods :
  preserves I (structMembers fuel ps n name fields methods).
Proof.
  revert fields methods. pose proof preserves_parseFunctionDeclaration.
  pose proof preserves_parseTypeSpec.
  induction n as [|n IH]; intros fields methods; simpl; pres.
Qed.

Lemma preserves_parseStructDeclaration :
  preserves I (parseStructDeclaration fuel ps).
Proof.
  unfold parseStructDeclaration. pose proof preserves_structMembers. pres.
Qed.

Lemma preserves_parseIfStatement n :
  preserves I (parseIfStatement fuel ps n).
Proof.
  pose proof preserves_parseBlockStatement.
  pose proof preserves_parseExpression.
  induction n as [|n IH]; simpl; pres.
Qed.

Lemma preserves_parseForStatement :
  preserves I (parseForStatement fuel ps).
Proof.
  unfold parseForStatement.
  pose proof preserves_parseBlockStatement.
  pose proof preserves_parseExpression. pres.
Qed.

Lemma preserves_parseWhileStatement :
  preserves I (parseWhileStatement fuel ps).
Proof.
  unfold parseWhileStatement.
  pose proof preserves_parseBlockStatement.
  pose proof preserves_parseExpression. pres.
Qed.

Lemma preserves_parseStatement_body :
  preserves I (parseStatement_body fuel ps).
Proof.
  unfold parseStatement_body.
  pose proof preserves_parseFunctionDeclaration.
  pose proof preserves_parseStructDeclaration.
  pose proof preserves_parseVarDeclaration.
  pose proof preserves_parseIfStatement.
  pose proof preserves_parseForStatement.
  pose proof preserves_parseWhileStatement.
  pose proof preserves_parseReturnStatement.
  pose proof preserves_parseExpressionStatement. pres.
Qed.

End Statements.

Lemma preserves_parseStatement fuel : preserves I (parseStatement fuel).
Proof.
  induction fuel as [|f IH]; simpl; apply preserves_parseStatement_body; auto.
  apply preserves_timeout.
Qed.

Lemma preserves_imports n fuel acc : preserves I (imports n fuel acc).
Proof.
  revert acc. pose proof preserves_parseImportDeclaration.
  induction n as [|n IH]; intros acc; simpl; pres.
Qed.

Lemma preserves_statements n fuel acc : preserves I (statements n fuel acc).
Proof.
  revert acc. pose proof preserves_parseStatement.
  induction n as [|n IH]; intros acc; simpl; pres.
Qed.

Lemma preserves_ParseProgram fuel : preserves I (ParseProgram fuel).
Proof.
  unfold ParseProgram.
  pose proof preserves_imports. pose proof preserves_statements. pres.
Qed.

End Preserves.

(** ** Comments never become the current token *)

(** The error message that a comment in expression-start position would
    cause. *)
Definition commentError : string :=
  "no prefix parse function for COMMENT found".

(** Neither the current token nor the lookahead is a comment, and no error
    reports a comment where an expression starts. *)
Definition clean (p : Parser) : Prop :=
  Type_ (curToken p) <> COMMENT /\ Type_ (peekToken p) <> COMMENT
  /\ ~ In commentError (errors p).

Lemma TokenType_eqb_eq a b : TokenType_eqb a b = true <-> a = b.
Proof.
  unfold TokenType_eqb. destruct (TokenType_eq_dec a b); split; congruence.
Qed.

Lemma TokenType_eqb_neq a b : TokenType_eqb a b = false <-> a <> b.
Proof.
  unfold TokenType_eqb. destruct (TokenType_eq_dec a b); split; congruence.
Qed.

Lemma skipComments_not_comment n tok lx tok' lx' :
  skipComments n tok lx = Some (Some (tok', lx')) -> Type_ tok' <> COMMENT.
Proof.
  revert tok lx. induction n as [|n IH]; intros tok lx; simpl;
    destruct (TokenType_eqb (Type_ tok) COMMENT) eqn:E; try discriminate.
  - intros H; inversion H; subst. now apply TokenType_eqb_neq.
  - destruct (NextToken lx) as [[t|] lx1]; [apply IH | discriminate].
  - intros H; inversion H; subst. now apply TokenType_eqb_neq.
Qed.

Lemma clean_nextToken : preserves clean nextToken.
Proof.
  intros p (Hc & Hp & He). unfold nextToken.
  destruct (NextToken (l p)) as [[tok|] lx]; auto.
  destruct (skipComments _ tok lx) as [[[tok' lx']|]|] eqn:E; auto.
  repeat split; simpl; auto. eapply skipComments_not_comment; eauto.
Qed.

Lemma clean_addError msg :
  msg <> commentError -> preserves clean (addError msg).
Proof.
  intros Hm p (Hc & Hp & He). repeat split; simpl; auto.
  rewrite in_app_iff. intros [H|[H|[]]]; auto.
Qed.

Lemma clean_peekError t : preserves clean (peekError t).
Proof.
  unfold peekError. eapply hoare_bind; [apply preserves_peek|].
  intros pk. apply clean_addError. discriminate.
Qed.

Lemma clean_parseError msg : preserves clean (addError ("could not parse " ++ msg)).
Proof. apply clean_addError. discriminate. Qed.

Lemma TokenTypeString_COMMENT t :
  "no prefix parse function for " ++ TokenTypeString t ++ " found" = commentError
  -> t = COMMENT.
Proof. destruct t; simpl; intros H; first [reflexivity | discriminate]. Qed.

Lemma clean_noPrefix p :
  clean p ->
  match noPrefixParseFnError (Type_ (curToken p)) p with
  | Done _ p' => clean p'
  | Panic | OutOfFuel => True
  end.
Proof.
  intros H. apply clean_addError; [|exact H].
  intros E. apply TokenTypeString_COMMENT in E. destruct H as (Hc & _).
  now apply Hc.
Qed.

Lemma clean_New lx p : New lx = Done tt p -> clean p.
Proof.
  unfold New. intros H.
  assert (P : preserves clean (nextToken ;; nextToken))
    by (apply preserves_bind; intros; apply clean_nextToken).
  specialize (P {| l := lx; curToken := zeroToken; peekToken := zeroToken;
                   errors := [] |}).
  rewrite H in P. apply P. repeat split; simpl; auto; discriminate.
Qed.

Lemma clean_ParseProgram fuel : preserves clean (ParseProgram fuel).
Proof.
  apply preserves_ParseProgram.
  - exact clean_nextToken.
  - exact clean_peekError.
  - exact clean_parseError.
  - exact clean_noPrefix.
Qed.

(** ** The fields loop of a struct declaration *)

Lemma hoare_expectPeek t :
  hoare (fun _ => True) (expectPeek t)
        (fun ok p => ok = true -> Type_ (curToken p) = t).
Proof.
  intros p _. unfold expectPeek, bind, peekTokenIs.
  destruct (TokenType_eqb (Type_ (peekToken p)) t) eqn:E.
  - apply TokenType_eqb_eq in E. unfold nextToken.
    destruct (NextToken (l p)) as [[tok|] lx]; auto.
    destruct (skipComments _ tok lx) as [[[tok' lx']|]|]; simpl; auto.
  - unfold peekError, bind, peek, addError, ret. discriminate.
Qed.

(** The current token when the fields loop is reached: the colon that ends
    the header, or the last of the newlines after it. *)
Definition at_struct_header (p : Parser) : Prop :=
  Type_ (curToken p) = COLON \/ Type_ (curToken p) = NEWLINE.

Lemma skip_newlines_at_struct_header n :
  preserves at_struct_header (skipWhile n (peekTokenIs NEWLINE)).
Proof.
  induction n as [|n IH]; intros p Hp; simpl; unfold bind, peekTokenIs;
    destruct (TokenType_eqb (Type_ (peekToken p)) NEWLINE) eqn:E;
    try exact Hp; try exact Logic.I.
  apply TokenType_eqb_eq in E. unfold nextToken.
  destruct (NextToken (l p)) as [[tok|] lx]; auto.
  destruct (skipComments _ tok lx) as [[[tok' lx']|]|]; auto.
  apply IH. right. exact E.
Qed.

(** The loop over the fields and methods is not entered. *)
Lemma structMembers_skipped fuel ps n name p :
  at_struct_header p ->
  structMembers fuel ps n name [] [] p = Done ([], []) p.
Proof.
  intros H. destruct n; simpl; unfold bind, curTokenIs;
    destruct H as [H|H]; rewrite H; reflexivity.
Qed.

(** Whatever the tokens, a struct declaration is returned without fields and
    without methods. *)
Lemma parseStructDeclaration_empty fuel ps p d p' :
  parseStructDeclaration fuel ps p = Done (Some d) p' ->
  ast.Fields d = [] /\ ast.Methods d = [].
Proof.
  intros H.
  assert (T : hoare (fun _ => True) (parseStructDeclaration fuel ps)
                (fun r _ => match r with
                            | Some d => ast.Fields d = [] /\ ast.Methods d = []
                            | None => True
                            end)).
  { unfold parseStructDeclaration.
    eapply hoare_bind; [apply hoare_expectPeek|]. intros ok; simpl.
    destruct ok; simpl; [|intros ? ?; exact Logic.I].
    eapply hoare_bind with (Q := fun _ _ => True); [intros ? ?; exact Logic.I|].
    intros name. eapply hoare_bind; [apply hoare_expectPeek|].
    intros ok1; simpl. destruct ok1; simpl; [|intros ? ?; exact Logic.I].
    eapply hoare_bind with (Q := fun _ => at_struct_header).
    - eapply hoare_weaken; [apply skip_newlines_at_struct_header| |]; auto.
      intros q Hq. left. now apply Hq.
    - intros _ q Hq. unfold bind.
      rewrite structMembers_skipped by assumption. simpl. auto. }
  specialize (T p Logic.I). rewrite H in T. exact T.
Qed.

(** ** The climbing loop stops at a boundary token *)

Lemma climb_boundary pe n fns precedence left p :
  In (Type_ (peekToken p)) [NEWLINE; EOF; INDENT; DEDENT] ->
  climb pe n fns precedence left p = Done left p.
Proof.
  intros H.
  assert (E : continues precedence (peekToken p) = false).
  { unfold continues. simpl in H.
    destruct H as [H|[H|[H|[H|[]]]]]; rewrite <- H; reflexivity. }
  destruct n; simpl; unfold bind, peek; rewrite E; reflexivity.
Qed.

#[local] Arguments NextToken : simpl never.
#[local] Opaque NextToken.

(** ** Termination of the parser

    Every call of [nextToken] brings the parser closer to the state in which
    the input is consumed and both tokens are end-of-file tokens; every loop
    iteration and every recursive call of the parser comes after such a call
    in a state that is not yet that one.  The measure below counts what is
    left: three for each character of the input that is not read yet, two
    for a lookahead and one for a current token that is not the end of the
    file. *)

Definition weight (t : Token) : nat :=
  if TokenType_eqb (Type_ t) EOF then 0 else 1.

Definition remaining (lx : Lexer) : nat :=
  String.length (input lx) - position lx.

Definition measure (p : Parser) : nat :=
  3 * remaining (l p) + 2 * weight (peekToken p) + weight (curToken p).

Section Outcomes.

(** What a panic of the lexer counts as: [True] when only termination is at
    stake, [False] for a source on which the lexer does not panic. *)
Variable panics : Prop.

(** The lexer never panics from [lx] on, unless panics are admitted. *)
Definition safe (lx : Lexer) : Prop :=
  panics \/ forall k, fst (NextToken (after k lx)) <> None.

Definition good (p : Parser) : Prop := wf (l p) /\ safe (l p).

(** [wp m Q p]: from [p] the method [m] returns, with a result and a state
    that satisfy [Q]; it does not run out of fuel. *)
Definition wp {A} (m : M A) (Q : A -> Parser -> Prop) (p : Parser) : Prop :=
  match m p with
  | Done a p' => Q a p'
  | Panic => panics
  | OutOfFuel => False
  end.

(** The state [p'] comes after [p]: well formed, and no further from the
    end. *)
Definition settled (p : Parser) {A} (_ : A) (p' : Parser) : Prop :=
  good p' /\ measure p' <= measure p.

Lemma wp_ret {A} (a : A) Q p : Q a p -> wp (ret a) Q p.
Proof. exact (fun H => H). Qed.

Lemma wp_bind {A B} (m : M A) (f : A -> M B) Q p :
  wp m (fun a p' => wp (f a) Q p') p -> wp (bind m f) Q p.
Proof. unfold wp, bind. destruct (m p); auto. Qed.

Lemma wp_weaken {A} (m : M A) (Q Q' : A -> Parser -> Prop) p :
  wp m Q p -> (forall a p', Q a p' -> Q' a p') -> wp m Q' p.
Proof. unfold wp. destruct (m p); auto. Qed.

Lemma wp_cur Q p : Q (curToken p) p -> wp cur Q p.
Proof. exact (fun H => H). Qed.

Lemma wp_peek Q p : Q (peekToken p) p -> wp peek Q p.
Proof. exact (fun H => H). Qed.

Lemma wp_curTokenIs t Q p :
  Q (TokenType_eqb (Type_ (curToken p)) t) p -> wp (curTokenIs t) Q p.
Proof. exact (fun H => H). Qed.

Lemma wp_peekTokenIs t Q p :
  Q (TokenType_eqb (Type_ (peekToken p)) t) p -> wp (peekTokenIs t) Q p.
Proof. exact (fun H => H). Qed.

Lemma wp_curPrecedence Q p :
  Q (precedence_of (Type_ (curToken p))) p -> wp curPrecedence Q p.
Proof. exact (fun H => H). Qed.

(** An error message changes neither the lexer nor the tokens. *)
Lemma wp_addError msg (Q : unit -> Parser -> Prop) p :
  (forall p', l p' = l p -> curToken p' = curToken p ->
              peekToken p' = peekToken p -> Q tt p') ->
  wp (addError msg) Q p.
Proof. intros H. apply H; reflexivity. Qed.

Lemma good_same p p' : l p' = l p -> good p -> good p'.
Proof. unfold good. now intros ->. Qed.

Lemma measure_same p p' :
  l p' = l p -> curToken p' = curToken p -> peekToken p' = peekToken p ->
  measure p' = measure p.
Proof. unfold measure. now intros -> -> ->. Qed.

Lemma safe_NextToken lx : safe lx -> safe (snd (NextToken lx)).
Proof.
  intros [H|H]; [now left | right]. intros k. exact (H (S k)).
Qed.

Lemma remaining_advances lx lx' :
  advances lx lx' -> remaining lx' <= pred (remaining lx).
Proof. intros (_ & I & P). unfold remaining. rewrite I. lia. Qed.

Lemma weight_le t : weight t <= 1.
Proof. unfold weight. destruct (TokenType_eqb _ _); lia. Qed.

Lemma weight_pos t : Type_ t <> EOF -> weight t = 1.
Proof.
  intros H. unfold weight. apply TokenType_eqb_neq in H. now rewrite H.
Qed.

Lemma weight_EOF t : Type_ t = EOF -> weight t = 0.
Proof. intros H. unfold weight. now rewrite H. Qed.

(** What the lookahead loop of [nextToken] leaves: a token [tok'] and a
    lexer [lx'] further on. *)
Lemma skipComments_spec n lx0 tok lx :
  wf lx0 -> NextToken lx0 = (Some tok, lx) ->
  match skipComments (S (S n)) tok lx with
  | None => False
  | Some None => False
  | Some (Some (tok', lx')) =>
      advances lx0 lx' /\
      (exists j, lx' = after j lx0) /\
      (remaining lx0 = 0 -> Type_ tok' = EOF)
  end.
Proof.
  intros W E.
  pose proof (advances_NextToken lx0 W) as A. rewrite E in A; cbn [snd] in A.
  assert (Z : remaining lx0 = 0 -> Type_ tok = EOF).
  { intros R. rewrite NextToken_at_end in E by (auto; unfold remaining in R; lia).
    inversion E; reflexivity. }
  cbn [skipComments].
  destruct (TokenType_eqb (Type_ tok) COMMENT) eqn:C.
  - apply TokenType_eqb_eq in C.
    pose proof (NextToken_comment _ _ _ W E C) as B.
    destruct (NextToken_after_comment lx B) as (tok2 & E2 & N2).
    rewrite E2. apply TokenType_eqb_neq in N2. rewrite N2.
    split; [|split].
    + eapply advances_follows; [exact A|].
      apply advances_is_follows, advances_readChar, A.
    + exists 2. cbn [after]. rewrite E. cbn [snd]. now rewrite E2.
    + intros R. apply Z in R. congruence.
  - split; [exact A | split; [|exact Z]].
    exists 1. cbn [after]. now rewrite E.
Qed.

Lemma safe_after j lx : safe lx -> safe (after j lx).
Proof.
  revert lx. induction j as [|j IH]; intros lx H; cbn [after].
  - exact H.
  - apply IH, safe_NextToken, H.
Qed.

(** [nextToken] returns, and brings the parser closer to the end unless it is
    there. *)
Lemma wp_nextToken (Q : unit -> Parser -> Prop) p :
  good p ->
  (forall p', good p' -> measure p' <= pred (measure p) ->
              curToken p' = peekToken p -> Q tt p') ->
  wp nextToken Q p.
Proof.
  intros [W S] H. unfold wp, nextToken.
  destruct (NextToken (l p)) as [[tok|] lx] eqn:E.
  - pose proof (skipComments_spec (String.length (input lx)) _ _ _ W E) as K.
    destruct (skipComments _ tok lx) as [[[tok' lx']|]|]; try contradiction.
    destruct K as (A & (j & J) & Z). apply H; cbn [l curToken peekToken].
    + split; [apply A | subst lx'; now apply safe_after].
    + unfold measure; cbn [l curToken peekToken].
      pose proof (remaining_advances _ _ A).
      pose proof (weight_le tok'). pose proof (weight_le (peekToken p)).
      pose proof (weight_le (curToken p)).
      destruct (remaining (l p)) eqn:R.
      * rewrite (weight_EOF tok') by auto. lia.
      * lia.
    + reflexivity.
  - destruct S as [S|S]; [exact S|].
    specialize (S 0). cbn [after] in S. rewrite E in S. now elim S.
Qed.

Lemma cur_pos p : Type_ (curToken p) <> EOF -> 1 <= measure p.
Proof. intros H. unfold measure. rewrite (weight_pos _ H). lia. Qed.

Lemma peek_pos p : Type_ (peekToken p) <> EOF -> 2 <= measure p.
Proof. intros H. unfold measure. rewrite (weight_pos _ H). lia. Qed.

Lemma eqb_true_neq x t : TokenType_eqb x t = true -> t <> EOF -> x <> EOF.
Proof. intros H. apply TokenType_eqb_eq in H. congruence. Qed.

Lemma eq_neq (x t : TokenType) : x = t -> t <> EOF -> x <> EOF.
Proof. congruence. Qed.

(** Collects what the tests made so far say about the measure. *)
Ltac token_facts :=
  repeat match goal with
  | H : TokenType_eqb (Type_ (curToken ?p)) ?t = true |- _ =>
      lazymatch goal with
      | _ : 1 <= measure p |- _ => fail
      | _ => assert (1 <= measure p)
               by (apply cur_pos, (eqb_true_neq _ _ H);
                   first [assumption | discriminate])
      end
  | H : TokenType_eqb (Type_ (curToken ?p)) EOF = false |- _ =>
      lazymatch goal with
      | _ : 1 <= measure p |- _ => fail
      | _ => assert (1 <= measure p)
               by (apply cur_pos, TokenType_eqb_neq, H)
      end
  | H : Type_ (curToken ?p) = ?t |- _ =>
      lazymatch goal with
      | _ : 1 <= measure p |- _ => fail
      | _ => assert (1 <= measure p)
               by (apply cur_pos, (eq_neq _ _ H);
                   first [assumption | discriminate])
      end
  | H : TokenType_eqb (Type_ (peekToken ?p)) ?t = true |- _ =>
      lazymatch goal with
      | _ : 2 <= measure p |- _ => fail
      | _ => assert (2 <= measure p)
               by (apply peek_pos, (eqb_true_neq _ _ H);
                   first [assumption | discriminate])
      end
  | H : TokenType_eqb (Type_ (peekToken ?p)) EOF = false |- _ =>
      lazymatch goal with
      | _ : 2 <= measure p |- _ => fail
      | _ => assert (2 <= measure p)
               by (apply peek_pos, TokenType_eqb_neq, H)
      end
  end.

(** Closes a goal on states: the state is good, and the measures compare. *)
Ltac settle :=
  unfold settled in *; token_facts;
  repeat match goal with
  | H : _ /\ _ |- _ => destruct H
  | |- _ /\ _ => split
  end;
  first [ assumption | reflexivity | lia | idtac ].

Ltac wp_step :=
  lazymatch goal with
  | |- wp (bind _ _) _ _ => apply wp_bind
  | |- wp (ret _) _ _ => apply wp_ret
  | |- wp cur _ _ => apply wp_cur
  | |- wp peek _ _ => apply wp_peek
  | |- wp (curTokenIs _) _ _ => apply wp_curTokenIs
  | |- wp (peekTokenIs _) _ _ => apply wp_peekTokenIs
  | |- wp curPrecedence _ _ => apply wp_curPrecedence
  | |- wp nextToken _ _ =>
      apply wp_nextToken; [assumption | intros ? ? ? ?]
  | |- wp (addError _) _ _ =>
      apply wp_addError;
      let p' := fresh "p" in
      let L := fresh in let C := fresh in let K := fresh in
      intros p' L C K;
      match goal with
      | G : good ?p |- _ =>
          match type of L with
          | _ = l p =>
              pose proof (good_same p p' L G);
              pose proof (measure_same p p' L C K)
          end
      end
  | |- wp (if ?b then _ else _) _ _ =>
      match b with
      | context [TokenType_eqb ?x ?t] =>
          destruct (TokenType_eqb x t) eqn:?; cbn [negb andb orb]
      | _ => destruct b eqn:?; cbn [negb andb orb]
      end
  | |- wp (match ?x with _ => _ end) _ _ => destruct x eqn:?
  end.

Ltac wp_go := repeat (cbv zeta beta; wp_step).

(** Calls a method whose specification is [lemma]. *)
Tactic Notation "wp_call" uconstr(lemma) :=
  eapply wp_weaken;
  [ eapply lemma; settle
  | cbv beta;
    let H := fresh in
    intros ? ? H; unfold settled in H; decompose [and] H; clear H ].

Lemma spec_peekError t p :
  good p -> wp (peekError t) (settled p) p.
Proof. intros G. unfold peekError. wp_go. settle. Qed.

(** [expectPeek]: when the expected token is there, it becomes the current
    token and the parser has moved on. *)
Definition expected (t : TokenType) (p : Parser) (ok : bool) (p' : Parser)
    : Prop :=
  good p' /\ measure p' <= measure p /\
  (ok = true -> measure p' < measure p /\ Type_ (curToken p') = t).

Lemma spec_expectPeek_1 t p :
  t <> EOF -> good p -> wp (expectPeek t) (expected t p) p.
Proof.
  intros T G. unfold expectPeek. wp_go.
  - unfold expected. token_facts.
    match goal with H : TokenType_eqb _ _ = true |- _ =>
      apply TokenType_eqb_eq in H end.
    split; [assumption|]. split; [lia|]. intros _. split; [lia | congruence].
  - wp_call spec_peekError. wp_go. unfold expected. settle; try discriminate.
Qed.

(** The same, with the result tested: [if !p.expectPeek(t) { return nil }]. *)
Lemma spec_expectPeek t p (Q : bool -> Parser -> Prop) :
  t <> EOF -> good p ->
  (forall p', good p' -> measure p' <= measure p -> Q false p') ->
  (forall p', good p' -> measure p' < measure p ->
              Type_ (curToken p') = t -> Q true p') ->
  wp (expectPeek t) Q p.
Proof.
  intros T G F S. eapply wp_weaken; [now apply spec_expectPeek_1|].
  intros [|] p' (G' & M & H).
  - destruct (H eq_refl). now apply S.
  - now apply F.
Qed.

Ltac wp_expect :=
  lazymatch goal with
  | |- wp (expectPeek _) _ _ =>
      apply spec_expectPeek;
      [ discriminate | assumption
      | intros ? ? ?; cbn [negb]
      | intros ? ? ? ?; cbn [negb] ]
  end.

Ltac go := repeat (cbv zeta beta; first [wp_step | wp_expect]).

Lemma spec_skip_peek n t p :
  t <> EOF -> good p -> measure p <= n ->
  wp (skipWhile n (peekTokenIs t)) (settled p) p.
Proof.
  intros T. revert p. induction n as [|n IH]; intros p G M; simpl; wp_go;
    try (token_facts; lia); try solve [settle].
  eapply wp_weaken; [apply IH; settle | intros; settle].
Qed.

Lemma spec_skip_cur n t p :
  t <> EOF -> good p -> measure p <= n ->
  wp (skipWhile n (curTokenIs t)) (settled p) p.
Proof.
  intros T. revert p. induction n as [|n IH]; intros p G M; simpl; wp_go;
    try (token_facts; lia); try solve [settle].
  eapply wp_weaken; [apply IH; settle | intros; settle].
Qed.

(** *** Imports *)

Lemma spec_importItems n items p :
  good p -> measure p <= n -> wp (importItems n items) (settled p) p.
Proof.
  revert items p. induction n as [|n IH]; intros items p G M; simpl; go;
    try (token_facts; lia); try solve [settle].
  wp_call IH. settle.
Qed.

Lemma spec_importList n items p :
  good p -> measure p <= n -> wp (importList n items) (settled p) p.
Proof.
  revert items p. induction n as [|n IH]; intros items p G M; simpl; go;
    try (token_facts; lia); try solve [settle];
    wp_call IH; settle.
Qed.

(** An import declaration consumes its keyword. *)
Lemma spec_parseImportDeclaration fuel p :
  good p -> measure p <= fuel ->
  Type_ (curToken p) = IMPORT \/ Type_ (curToken p) = FROM ->
  wp (parseImportDeclaration fuel)
     (fun _ p' => good p' /\ measure p' < measure p) p.
Proof.
  intros G M C. unfold parseImportDeclaration.
  assert (1 <= measure p) by (destruct C; token_facts; assumption).
  go; try solve [settle];
    try (wp_call spec_importItems; go; settle);
    try (wp_call spec_importList; go; settle).
  exfalso. destruct C as [C|C];
    match goal with
    | H : TokenType_eqb _ _ = false |- _ =>
        apply TokenType_eqb_neq in H; contradiction
    end.
Qed.

(** *** Types and parameters *)

Lemma spec_parseTypeSpec fuel p :
  good p -> measure p <= fuel -> wp (parseTypeSpec fuel) (settled p) p.
Proof.
  revert p. induction fuel as [|f IH]; intros p G M; simpl; go;
    try (token_facts; lia); try solve [settle];
    repeat (wp_call IH; go); try solve [settle].
Qed.

Lemma spec_parseParameter fuel p :
  good p -> measure p <= fuel -> wp (parseParameter fuel) (settled p) p.
Proof.
  intros G M. unfold parseParameter. go; try solve [settle].
  wp_call spec_parseTypeSpec. go. settle.
Qed.

Lemma spec_parameters n fuel params p :
  good p -> measure p <= n -> measure p <= fuel ->
  wp (parameters n fuel params) (settled p) p.
Proof.
  revert params p. induction n as [|n IH]; intros params p G M F; simpl; go;
    try (token_facts; lia); try solve [settle].
  wp_call spec_parseParameter. go. wp_call IH. settle.
Qed.

Lemma spec_parseFunctionParameters fuel p :
  good p -> measure p <= fuel ->
  wp (parseFunctionParameters fuel) (settled p) p.
Proof.
  intros G M. unfold parseFunctionParameters. go; try solve [settle].
  wp_call spec_parseParameter. go. wp_call spec_parameters. settle.
Qed.

(** *** Expressions *)

Lemma spec_parseIdentifier p : good p -> wp parseIdentifier (settled p) p.
Proof. intros G. unfold parseIdentifier. go. settle. Qed.

Lemma spec_parseIntegerLiteral p :
  good p -> wp parseIntegerLiteral (settled p) p.
Proof. intros G. unfold parseIntegerLiteral. go; settle. Qed.

Lemma spec_parseFloatLiteral p :
  good p -> wp parseFloatLiteral (settled p) p.
Proof. intros G. unfold parseFloatLiteral. go; settle. Qed.

Lemma spec_parseStringLiteral p :
  good p -> wp parseStringLiteral (settled p) p.
Proof. intros G. unfold parseStringLiteral. go. settle. Qed.

Lemma spec_parseBooleanLiteral p :
  good p -> wp parseBooleanLiteral (settled p) p.
Proof. intros G. unfold parseBooleanLiteral. go. settle. Qed.

Lemma spec_parseNilLiteral p : good p -> wp parseNilLiteral (settled p) p.
Proof. intros G. unfold parseNilLiteral. go. settle. Qed.

Section Expressions.

(** [pe] stands for the recursive calls of [parseExpression]: it returns from
    every state closer to the end than [N]. *)
Variable pe : Z -> M Expr.
Variable N : nat.
Hypothesis spec_pe :
  forall precedence p,
    good p -> measure p < N -> wp (pe precedence) (settled p) p.

(** One token further the parser is closer to the end than [N]. *)
Definition ready (p : Parser) : Prop :=
  measure p < N \/ (measure p <= N /\ Type_ (curToken p) <> EOF).

Lemma ready_next p p' :
  ready p -> measure p' <= pred (measure p) -> measure p' < N.
Proof.
  intros [H|[H C]] M; [lia|]. pose proof (cur_pos p C). lia.
Qed.

Lemma ready_le p : ready p -> measure p <= N.
Proof. intros [H|[H C]]; lia. Qed.

Ltac ready_facts :=
  repeat match goal with
  | R : ready ?p, H : measure ?q <= pred (measure ?p) |- _ =>
      lazymatch goal with
      | _ : measure q < N |- _ => fail
      | _ => pose proof (ready_next p q R H)
      end
  | R : ready ?p |- _ =>
      lazymatch goal with
      | _ : measure p <= N |- _ => fail
      | _ => pose proof (ready_le p R)
      end
  end.

Ltac call_pe := ready_facts; (wp_call spec_pe).

Lemma spec_parsePrefixExpression p :
  good p -> ready p -> wp (parsePrefixExpression pe) (settled p) p.
Proof.
  intros G R. unfold parsePrefixExpression. go. call_pe. go. settle.
Qed.

Lemma spec_parseInfixExpression left p :
  good p -> measure p < N -> wp (parseInfixExpression pe left) (settled p) p.
Proof.
  intros G R. unfold parseInfixExpression. go. call_pe. go. settle.
Qed.

Lemma spec_parseGroupedExpression p :
  good p -> ready p -> wp (parseGroupedExpression pe) (settled p) p.
Proof.
  intros G R. unfold parseGroupedExpression. go. call_pe. go; settle.
Qed.

Lemma spec_expressions n args p :
  good p -> measure p <= n -> measure p <= N ->
  wp (expressions pe n args) (settled p) p.
Proof.
  revert args p. induction n as [|n IH]; intros args p G M B; simpl; go;
    try (token_facts; lia); try solve [settle].
  call_pe. go. wp_call IH. settle.
Qed.

Lemma spec_parseExpressionList n close p :
  close <> EOF -> good p -> ready p -> measure p <= n ->
  wp (parseExpressionList pe n close) (settled p) p.
Proof.
  intros T G R M. unfold parseExpressionList. go; try solve [settle].
  call_pe. go. wp_call spec_expressions.
  apply wp_bind, spec_expectPeek; auto; intros; go; settle.
Qed.

Lemma spec_parseArrayLiteral n p :
  good p -> ready p -> measure p <= n ->
  wp (parseArrayLiteral pe n) (settled p) p.
Proof.
  intros G R M. unfold parseArrayLiteral. go.
  wp_call spec_parseExpressionList; try discriminate. go. settle.
Qed.

Lemma spec_pairs n acc p :
  good p -> measure p < N -> measure p <= n ->
  wp (pairs pe n acc) (settled p) p.
Proof.
  revert acc p. induction n as [|n IH]; intros acc p G B M; simpl.
  - go. call_pe. go; settle.
  - go. call_pe. go; try solve [settle]. call_pe. go; try solve [settle].
    wp_call IH. settle.
Qed.

Lemma spec_parseMapLiteral n p :
  good p -> ready p -> measure p <= n ->
  wp (parseMapLiteral pe n) (settled p) p.
Proof.
  intros G R M. unfold parseMapLiteral. go; try solve [settle].
  ready_facts. wp_call spec_pairs. go; settle.
Qed.

Lemma spec_parseCallExpression n fn p :
  good p -> measure p < N -> measure p <= n ->
  wp (parseCallExpression pe n fn) (settled p) p.
Proof.
  intros G B M. unfold parseCallExpression. go.
  wp_call spec_parseExpressionList; try discriminate; try (left; assumption).
  go. settle.
Qed.

Lemma spec_parseIndexExpression left p :
  good p -> measure p < N -> wp (parseIndexExpression pe left) (settled p) p.
Proof.
  intros G B. unfold parseIndexExpression. go. call_pe. go; settle.
Qed.

Lemma spec_parseSelectorExpression left p :
  good p -> wp (parseSelectorExpression left) (settled p) p.
Proof. intros G. unfold parseSelectorExpression. go; settle. Qed.

Lemma spec_prefixParseFns t prefix p :
  prefixParseFns pe N t = Some prefix ->
  good p -> Type_ (curToken p) = t -> measure p <= N ->
  wp prefix (settled p) p.
Proof.
  intros E G C M.
  assert (R : ready p).
  { right. split; [exact M|]. rewrite C. intros ->. discriminate. }
  destruct t; simpl in E; inversion E; subst;
    auto using spec_parseIdentifier, spec_parseIntegerLiteral,
      spec_parseFloatLiteral, spec_parseStringLiteral,
      spec_parseBooleanLiteral, spec_parseNilLiteral,
      spec_parsePrefixExpression, spec_parseGroupedExpression,
      spec_parseArrayLiteral, spec_parseMapLiteral.
Qed.

Lemma spec_infixParseFns t infix left p :
  infixParseFns pe N t = Some infix ->
  good p -> measure p < N -> wp (infix left) (settled p) p.
Proof.
  intros E G M.
  destruct t; simpl in E; inversion E; subst;
    auto using spec_parseInfixExpression, spec_parseIndexExpression,
      spec_parseSelectorExpression.
  apply spec_parseCallExpression; auto. lia.
Qed.

Lemma continues_peek precedence pk :
  continues precedence pk = true -> Type_ pk <> EOF.
Proof.
  unfold continues. intros H E. rewrite E in H. discriminate.
Qed.

Lemma spec_climb n precedence left p :
  good p -> measure p <= n -> measure p <= N ->
  wp (climb pe n N precedence left) (settled p) p.
Proof.
  revert left p. induction n as [|n IH]; intros left p G M B; simpl;
    apply wp_bind, wp_peek;
    destruct (continues precedence (peekToken p)) eqn:C;
    try (apply wp_ret; settle);
    pose proof (peek_pos p (continues_peek _ _ C));
    destruct (infixParseFns pe N (Type_ (peekToken p))) eqn:E;
    try (apply wp_ret; settle); try lia.
  go. wp_call (spec_infixParseFns _ _ left _ E). go. wp_call IH. settle.
Qed.

Lemma spec_parseExpression_body precedence p :
  good p -> measure p <= N ->
  wp (parseExpression_body pe N precedence) (settled p) p.
Proof.
  intros G M. unfold parseExpression_body. apply wp_bind, wp_cur.
  destruct (prefixParseFns pe N (Type_ (curToken p))) eqn:E.
  - apply wp_bind. wp_call (spec_prefixParseFns _ _ _ E).
    wp_call spec_climb. settle.
  - unfold noPrefixParseFnError. go. settle.
Qed.

End Expressions.

Lemma spec_parseExpression fuel precedence p :
  good p -> measure p <= fuel ->
  wp (parseExpression fuel precedence) (settled p) p.
Proof.
  revert precedence p. induction fuel as [|f IH]; intros precedence p G M;
    simpl; apply spec_parseExpression_body; auto.
  - intros; lia.
  - intros. apply IH; auto. lia.
Qed.

(** The calls whose specification is known at this point. *)
Ltac call :=
  lazymatch goal with
  | |- wp (parseTypeSpec _) _ _ => wp_call spec_parseTypeSpec
  | |- wp (parseFunctionParameters _) _ _ =>
      wp_call spec_parseFunctionParameters
  | |- wp (parseExpression _ _) _ _ => wp_call spec_parseExpression
  | |- wp (skipWhile _ (peekTokenIs _)) _ _ =>
      wp_call spec_skip_peek; try discriminate
  | |- wp (skipWhile _ (curTokenIs _)) _ _ =>
      wp_call spec_skip_cur; try discriminate
  end.

Ltac run_with tac :=
  repeat (cbv zeta beta; first [wp_step | wp_expect | call | tac]).

Ltac run := run_with ltac:(idtac; fail).

(** *** Statements *)

Lemma spec_parseVarDeclaration fuel p :
  good p -> measure p <= fuel -> wp (parseVarDeclaration fuel) (settled p) p.
Proof. intros G M. unfold parseVarDeclaration. run; settle. Qed.

Lemma spec_parseReturnStatement fuel p :
  good p -> measure p <= fuel -> wp (parseReturnStatement fuel) (settled p) p.
Proof. intros G M. unfold parseReturnStatement. run; settle. Qed.

Lemma spec_parseExpressionStatement fuel p :
  good p -> measure p <= fuel ->
  wp (parseExpressionStatement fuel) (settled p) p.
Proof. intros G M. unfold parseExpressionStatement. run; settle. Qed.

Section Statements.

(** [ps] stands for the recursive calls of [parseStatement]: it returns from
    every state closer to the end than [fuel]. *)
Variable fuel : nat.
Variable ps : M ast.Statement.
Hypothesis spec_ps :
  forall p, good p -> measure p < fuel -> wp ps (settled p) p.

(** The loop of a block stops at the end-of-file token without asking for
    fuel. *)
Lemma spec_blockStatements n stmts p :
  good p -> measure p < fuel ->
  measure p <= n \/ Type_ (curToken p) = EOF ->
  wp (blockStatements ps n stmts) (settled p) p.
Proof.
  revert stmts p. induction n as [|n IH]; intros stmts p G F M; simpl; go;
    try solve [settle];
    (destruct M as [M|M];
     [ | match goal with
         | H : TokenType_eqb (Type_ (curToken p)) EOF = false |- _ =>
             apply TokenType_eqb_neq in H; contradiction
         end ]);
    try (token_facts; lia).
  - eapply wp_weaken; [eapply IH; settle | intros; settle].
  - wp_call spec_ps. go.
    + eapply wp_weaken;
        [ eapply IH; settle; right; now apply TokenType_eqb_eq
        | intros; settle ].
    + eapply wp_weaken; [eapply IH; settle | intros; settle].
Qed.

Lemma spec_parseBlockStatement p :
  good p -> measure p < fuel ->
  wp (parseBlockStatement fuel ps) (settled p) p.
Proof.
  intros G M. unfold parseBlockStatement. go.
  wp_call spec_blockStatements. go. settle.
Qed.

Ltac call_block :=
  lazymatch goal with
  | |- wp (parseBlockStatement _ _) _ _ => wp_call spec_parseBlockStatement
  end.

Lemma spec_parseFunctionDeclaration p :
  good p -> measure p <= fuel ->
  wp (parseFunctionDeclaration fuel ps) (settled p) p.
Proof.
  intros G M. unfold parseFunctionDeclaration.
  run_with ltac:(idtac; call_block); settle.
Qed.

Lemma spec_structMembers n name fields methods p :
  good p -> measure p <= n -> measure p <= fuel ->
  wp (structMembers fuel ps n name fields methods) (settled p) p.
Proof.
  revert fields methods p.
  induction n as [|n IH]; intros fields methods p G M F; simpl;
    run_with ltac:(idtac; first [ wp_call spec_parseFunctionDeclaration
                                | wp_call IH ]);
    try solve [settle]; try (token_facts; lia).
Qed.

Lemma spec_parseStructDeclaration p :
  good p -> measure p <= fuel ->
  wp (parseStructDeclaration fuel ps) (settled p) p.
Proof.
  intros G M. unfold parseStructDeclaration. run; try solve [settle].
  wp_call spec_structMembers. run. settle.
Qed.

Lemma spec_parseIfStatement n p :
  good p -> measure p <= fuel -> measure p <= n -> 1 <= measure p ->
  wp (parseIfStatement fuel ps n) (settled p) p.
Proof.
  revert p. induction n as [|n IH]; intros p G F M P; simpl;
    run_with ltac:(idtac; first [call_block | wp_call IH]);
    try solve [settle]; try (token_facts; lia).
Qed.

Lemma spec_parseForStatement p :
  good p -> measure p <= fuel -> 1 <= measure p ->
  wp (parseForStatement fuel ps) (settled p) p.
Proof.
  intros G F P. unfold parseForStatement.
  run_with ltac:(idtac; first [call_block | wp_call spec_ps]); try solve [settle].
Qed.

Lemma spec_parseWhileStatement p :
  good p -> measure p <= fuel -> 1 <= measure p ->
  wp (parseWhileStatement fuel ps) (settled p) p.
Proof.
  intros G F P. unfold parseWhileStatement.
  run_with ltac:(idtac; call_block); try solve [settle].
Qed.

Ltac call_statement :=
  lazymatch goal with
  | |- wp (parseFunctionDeclaration _ _) _ _ =>
      wp_call spec_parseFunctionDeclaration
  | |- wp (parseStructDeclaration _ _) _ _ =>
      wp_call spec_parseStructDeclaration
  | |- wp (parseVarDeclaration _) _ _ => wp_call spec_parseVarDeclaration
  | |- wp (parseIfStatement _ _ _) _ _ => wp_call spec_parseIfStatement
  | |- wp (parseForStatement _ _) _ _ => wp_call spec_parseForStatement
  | |- wp (parseWhileStatement _ _) _ _ => wp_call spec_parseWhileStatement
  | |- wp (parseReturnStatement _) _ _ => wp_call spec_parseReturnStatement
  | |- wp (parseExpressionStatement _) _ _ =>
      wp_call spec_parseExpressionStatement
  end.

Lemma spec_parseStatement_body p :
  good p -> measure p <= fuel ->
  wp (parseStatement_body fuel ps) (settled p) p.
Proof.
  intros G F. unfold parseStatement_body. apply wp_bind, wp_cur.
  destruct (Type_ (curToken p)) eqn:C;
    run_with ltac:(idtac; call_statement); settle.
Qed.

End Statements.

Lemma spec_parseStatement fuel p :
  good p -> measure p <= fuel -> wp (parseStatement fuel) (settled p) p.
Proof.
  revert p. induction fuel as [|f IH]; intros p G M; simpl;
    apply spec_parseStatement_body; auto.
  - intros; lia.
  - intros. apply IH; auto. lia.
Qed.

(** *** Programs *)

Lemma spec_imports n fuel acc p :
  good p -> measure p <= n -> measure p <= fuel ->
  wp (imports n fuel acc) (settled p) p.
Proof.
  revert acc p. induction n as [|n IH]; intros acc p G M F; simpl; run;
    try solve [settle]; try (token_facts; lia);
    (eapply wp_weaken;
     [ apply spec_parseImportDeclaration; auto;
       first [ left; now apply TokenType_eqb_eq
             | right; now apply TokenType_eqb_eq ]
     | cbv beta; intros ? ? [? ?];
       run_with ltac:(idtac; wp_call IH); settle ]).
Qed.

Lemma spec_statements n fuel acc p :
  good p -> measure p <= fuel ->
  measure p <= n \/ Type_ (curToken p) = EOF ->
  wp (statements n fuel acc) (settled p) p.
Proof.
  revert acc p. induction n as [|n IH]; intros acc p G F M; simpl; run;
    try solve [settle];
    (destruct M as [M|M];
     [ | match goal with
         | H : TokenType_eqb (Type_ (curToken p)) EOF = false |- _ =>
             apply TokenType_eqb_neq in H; contradiction
         end ]);
    try (token_facts; lia);
    try (eapply wp_weaken; [eapply IH; settle | intros; settle]).
  wp_call spec_parseStatement. run.
  - eapply wp_weaken;
      [ eapply IH; settle; right; now apply TokenType_eqb_eq
      | intros; settle ].
  - eapply wp_weaken; [eapply IH; settle | intros; settle].
Qed.

Lemma spec_ParseProgram fuel p :
  good p -> measure p <= fuel -> wp (ParseProgram fuel) (settled p) p.
Proof.
  intros G M. unfold ParseProgram.
  run_with ltac:(idtac; first [ wp_call spec_imports
                              | wp_call spec_statements ]);
    settle.
Qed.

(** The measure of the parser that [New] starts from. *)
Lemma measure_initial s :
  measure {| l := lexer.New s; curToken := zeroToken; peekToken := zeroToken;
             errors := [] |} = 3 * String.length s + 3.
Proof.
  unfold measure, remaining. cbn [l curToken peekToken].
  change (input (lexer.New s)) with s.
  change (position (lexer.New s)) with 0.
  change (weight zeroToken) with 1. lia.
Qed.

(** Lexing and parsing a source returns, or panics when panics are
    admitted, as soon as the fuel covers the measure of the source. *)
Lemma spec_parse fuel s :
  safe (lexer.New s) -> 3 * String.length s + 3 <= fuel ->
  match parse fuel s with
  | Done _ _ => True
  | Panic => panics
  | OutOfFuel => False
  end.
Proof.
  intros S F. unfold parse, New.
  set (p0 := {| l := lexer.New s; curToken := zeroToken;
                peekToken := zeroToken; errors := [] |}).
  assert (G : good p0) by (split; [apply wf_New | exact S]).
  pose proof (measure_initial s) as M0. fold p0 in M0.
  assert (W : wp (nextToken ;; nextToken) (settled p0) p0) by (run; settle).
  unfold wp in W. destruct ((nextToken ;; nextToken) p0) as [[] p| |]; auto.
  destruct W as [G1 M1].
  pose proof (spec_ParseProgram fuel p G1) as P. unfold wp in P.
  destruct (ParseProgram fuel p); auto; apply P; lia.
Qed.

End Outcomes.

(** For every source, the parser returns or panics once the fuel is three
    times the length of the source and three more: it does not loop. *)
Lemma parse_never_out_of_fuel (s : string) (fuel : nat) :
  3 * String.length s + 3 <= fuel -> parse fuel s <> OutOfFuel.
Proof.
  intros F E. pose proof (spec_parse True fuel s) as H.
  rewrite E in H. apply H; [left; exact Logic.I | exact F].
Qed.


(** The bound of the lookahead loop of [nextToken] is never reached. *)
Lemma nextToken_returns p : wf (l p) -> nextToken p <> OutOfFuel.
Proof.
  intros W E.
  assert (G : good True p) by (split; [exact W | left; exact Logic.I]).
  pose proof (wp_nextToken True (fun _ _ => True) p G) as H.
  unfold wp in H. rewrite E in H. apply H. intros; exact Logic.I.
Qed.



(** ** The claims about the parser *)

Definition QUOTE : string := String DQUOTE EmptyString.
Definition NL : string := String LF EmptyString.

(** The program and the error list of a parse that returns. *)
Definition outcome (fuel : nat) (source : string)
    : option (ast.Program * list string) :=
  match parse fuel source with
  | Done program p => Some (program, Errors p)
  | Panic | OutOfFuel => None
  end.

(** The expression of a source that parses, without error, to one expression
    statement. *)
Definition parsed_expression (fuel : nat) (source : string) : Expr :=
  match outcome fuel source with
  | Some (ast.mkProgram _ [] [ast.ExpressionStmtPtr (Some e)], []) =>
      ast.ExpressionStmt_Expression e
  | _ => None
  end.

Definition int (n : Z) : Expr := Some (ast.Literal "int" (ast.IntValue n)).

Definition binary (left : Expr) (operator : string) (right : Expr) : Expr :=
  Some (ast.BinaryExpr left operator right).

(** [1 low 2 high 3] groups to the right and [1 high 2 low 3] to the left:
    [high] binds tighter than [low]. *)
Definition binds_tighter (high low : string) : Prop :=
  parsed_expression 10 ("1 " ++ low ++ " 2 " ++ high ++ " 3")
    = binary (int 1) low (binary (int 2) high (int 3))
  /\ parsed_expression 10 ("1 " ++ high ++ " 2 " ++ low ++ " 3")
    = binary (binary (int 1) high (int 2)) low (int 3).

(** C1: [1 + 2 * 3] parses to an addition whose left operand is the literal
    1 and whose right operand is the multiplication of 2 and 3; the
    precedence table gives the multiplicative operators ([%] and [**]
    included) one level, above the level of the additive operators, which is
    above the levels of the relational and of the equality operators; so
    the right operand of an additive operator goes on over a multiplicative
    operator, the right operand of a multiplicative or additive operator
    ends before an additive, relational or equality operator, and the parser
    groups every such pair of operators accordingly. *)
Theorem multiplication_binds_tighter :
  parsed_expression 10 "1 + 2 * 3"
    = binary (int 1) "+" (binary (int 2) "*" (int 3))
  /\ Forall (fun t => precedences t = Some PRODUCT)
            [MULTIPLY; DIVIDE; MODULO; POWER]
  /\ Forall (fun t => precedences t = Some SUM) [PLUS; MINUS]
  /\ Forall (fun t => precedences t = Some LESSGREATER) [LT; GT; LT_EQ; GT_EQ]
  /\ Forall (fun t => precedences t = Some EQUALS) [EQ; NOT_EQ]
  /\ (EQUALS < LESSGREATER < SUM /\ SUM < PRODUCT)%Z
  /\ (forall text line column position,
        Forall (fun t => continues SUM (mkToken t text line column position)
                         = true)
               [MULTIPLY; DIVIDE; MODULO; POWER]
        /\ Forall (fun t => continues PRODUCT
                              (mkToken t text line column position) = false
                            /\ continues SUM
                                 (mkToken t text line column position) = false)
                  [PLUS; MINUS; LT; GT; LT_EQ; GT_EQ; EQ; NOT_EQ])
  /\ Forall (fun high => Forall (binds_tighter high) ["+"; "-"])
            ["*"; "/"; "%"; "**"]
  /\ Forall (fun high => Forall (binds_tighter high)
                           ["<"; ">"; "<="; ">="; "=="; "!="])
            ["+"; "-"].
Proof.
  repeat match goal with |- _ /\ _ => split end;
    try (intros text line column position; split);
    repeat constructor; vm_compute; repeat split; reflexivity.
Qed.

Definition unterminated_parameters : string :=
  "func main(" ++ NL ++ "    print(" ++ QUOTE ++ "x" ++ QUOTE ++ ")".

Definition backslash_at_end : string :=
  "x y " ++ QUOTE ++ "a" ++ String BACKSLASH EmptyString.

(** C2 fails on the code.  On the source with the unterminated parameter
    list [ParseProgram] does return, with one error in its list.  On a
    source whose last token is a string literal that ends in a backslash,
    the third call of [NextToken], made by [ParseProgram] through
    [nextToken], panics in [readString] (the slice ends past the input), and
    so does [ParseProgram], whatever the recursion budget of the model. *)
Theorem ParseProgram_panics :
  option_map snd (outcome 10 unterminated_parameters)
    = Some ["expected next token to be RPAREN, got LPAREN instead"]
  /\ (exists p, New (lexer.New backslash_at_end) = Done tt p)
  /\ forall fuel, parse (S fuel) backslash_at_end = Panic.
Proof.
  split; [vm_compute; reflexivity|]. split.
  - eexists. vm_compute. reflexivity.
  - intros fuel. vm_compute. reflexivity.
Qed.

(** X1: [ParseProgram] does not loop.  For every source, [New] followed by
    [ParseProgram] returns or panics within a recursion depth of three times
    the length of the source and three more: the budget of the model never
    runs out, so every loop of the parser and every chain of recursive calls
    ends. *)
Theorem ParseProgram_terminates (s : string) (fuel : nat) :
  3 * String.length s + 3 <= fuel ->
  (exists program p, parse fuel s = Done program p) \/ parse fuel s = Panic.
Proof.
  intros F. pose proof (parse_never_out_of_fuel s fuel F) as H.
  destruct (parse fuel s) as [program p| |].
  - left. now exists program, p.
  - now right.
  - now elim H.
Qed.

Lemma ParseProgram_terminates_witness :
  3 * String.length backslash_at_end + 3 <= 24
  /\ ((exists program p, parse 24 backslash_at_end = Done program p)
      \/ parse 24 backslash_at_end = Panic).
Proof.
  split; [vm_compute; lia | apply (ParseProgram_terminates backslash_at_end 24)].
  vm_compute. lia.
Defined.



Definition person : string :=
  "struct Person:" ++ NL ++ "    name string" ++ NL
  ++ "    func greet(self) string:" ++ NL
  ++ "        return " ++ QUOTE ++ "Hello" ++ QUOTE.

(** C3 fails on the code: the struct declaration with one field and one
    method is returned with no field and no method, without error; the field
    and the method are parsed as statements of the program after it. *)
Theorem struct_members_lost :
  match outcome 10 person with
  | Some (program, errs) =>
      hd_error (ast.Program_Statements program)
        = Some (ast.StructDeclPtr (Some (ast.mkStructDecl "Person" [] [])))
      /\ List.length (ast.Program_Statements program) = 4
      /\ errs = []
  | None => False
  end.
Proof. vm_compute. repeat split. Qed.

(** C4 fails on the code: the path of a quoted import and the items of a
    parenthesized list are looked up in the alias table, the path of an
    unquoted import is stored as it is written. *)
Theorem unquoted_import_not_resolved :
  option_map (fun r => ast.Imports (fst r))
    (outcome 10 ("import " ++ QUOTE ++ "json" ++ QUOTE))
    = Some [ast.mkImportDecl (quoted "encoding/json") EmptyString []]
  /\ option_map (fun r => ast.Imports (fst r))
       (outcome 10 ("import (" ++ QUOTE ++ "json" ++ QUOTE ++ ")"))
    = Some [ast.mkImportDecl EmptyString EmptyString [quoted "encoding/json"]]
  /\ option_map (fun r => ast.Imports (fst r)) (outcome 10 "import json")
    = Some [ast.mkImportDecl "json" EmptyString []]
  /\ stdlib.GetRealPackagePath "json" = "encoding/json".
Proof. repeat split; vm_compute; reflexivity. Qed.

(** C7: whatever the tokens, the precedence threshold, the expression parsed
    so far and the number of iterations left, the climbing loop of
    [parseExpression] whose lookahead is a newline, end-of-file, indent or
    dedent token returns the expression parsed so far and leaves the parser
    as it is: no token is consumed and no infix parse function is called. *)
Theorem climb_stops_at_boundary
    (pe : Z -> M Expr) (n fns : nat) (precedence : Z) (left : Expr) (p : Parser) :
  In (Type_ (peekToken p)) [NEWLINE; EOF; INDENT; DEDENT] ->
  climb pe n fns precedence left p = Done left p.
Proof. apply climb_boundary. Qed.

(** The parser on [1], a newline and [+ 2], as [New] leaves it: the current
    token is [1] and the lookahead is the newline. *)
Definition before_newline : Parser :=
  match New (lexer.New ("1" ++ NL ++ "+ 2")) with
  | Done _ p => p
  | Panic | OutOfFuel =>
      mkParser (lexer.New EmptyString) zeroToken zeroToken []
  end.

Lemma climb_stops_at_boundary_witness :
  In (Type_ (peekToken before_newline)) [NEWLINE; EOF; INDENT; DEDENT]
  /\ climb (parseExpression 5) 5 5 LOWEST (int 1) before_newline
     = Done (int 1) before_newline.
Proof.
  assert (H : In (Type_ (peekToken before_newline))
                [NEWLINE; EOF; INDENT; DEDENT])
    by (left; vm_compute; reflexivity).
  split; [exact H|].
  exact (climb_stops_at_boundary (parseExpression 5) 5 5 LOWEST (int 1)
           before_newline H).
Defined.

(** C9: the parser that [New] returns has no comment as its current token or
    as its lookahead; [nextToken], the one method that assigns the two
    tokens, keeps it so; and so does [ParseProgram], whose error list never
    reports a comment in expression-start position. *)
Theorem comments_never_current :
  (forall lx p, New lx = Done tt p -> clean p)
  /\ (forall p p', clean p -> nextToken p = Done tt p' -> clean p')
  /\ (forall fuel p program p',
        clean p -> ParseProgram fuel p = Done program p' -> clean p').
Proof.
  split; [|split].
  - apply clean_New.
  - intros p p' H E. pose proof (clean_nextToken p H) as C.
    now rewrite E in C.
  - intros fuel p program p' H E. pose proof (clean_ParseProgram fuel p H) as C.
    now rewrite E in C.
Qed.

Definition commented : string :=
  "# one" ++ NL ++ "x # two" ++ NL ++ "# three".

Definition after_New : Parser :=
  match New (lexer.New commented) with
  | Done _ p => p
  | Panic | OutOfFuel =>
      mkParser (lexer.New EmptyString) zeroToken zeroToken []
  end.

Definition after_ParseProgram : Parser :=
  match ParseProgram 10 after_New with
  | Done _ p => p
  | Panic | OutOfFuel => after_New
  end.

Lemma comments_never_current_witness :
  clean after_New /\ clean after_ParseProgram.
Proof.
  assert (H : clean after_New)
    by (apply (proj1 comments_never_current (lexer.New commented));
        vm_compute; reflexivity).
  split; [exact H|].
  refine (proj2 (proj2 comments_never_current) 10 after_New
            (ast.mkProgram "main" []
               [ast.ExpressionStmtPtr
                  (Some (ast.mkExpressionStmt (Some (ast.Identifier "x"))))])
            after_ParseProgram H _).
  vm_compute. reflexivity.
Defined.

End ParserFacts.

(** * Properties of whole programs *)

Module ProgramFacts.
Import lexer parser LexerFacts ParserFacts CursorFacts.
Local Open Scope parser_scope.

(** The parser on a source text, after [New], and what [ParseProgram]
    returns from there. *)
Definition start (source : string) : Parser :=
  match New (lexer.New source) with
  | Done _ p => p
  | Panic | OutOfFuel =>
      {| l := lexer.New source; curToken := zeroToken; peekToken := zeroToken;
         errors := [] |}
  end.

(** ** The error list only grows *)

Definition extends (errs : list string) (p : Parser) : Prop :=
  exists more, errors p = (errs ++ more)%list.

Lemma extends_addError errs msg : preserves (extends errs) (addError msg).
Proof.
  intros p [more E]. exists (more ++ [msg])%list. simpl.
  now rewrite E, app_assoc.
Qed.

Lemma extends_nextToken errs : preserves (extends errs) nextToken.
Proof.
  intros p H. unfold nextToken.
  destruct (NextToken (l p)) as [[tok|] lx]; auto.
  destruct (skipComments _ tok lx) as [[[tok' lx']|]|]; auto.
Qed.

Lemma extends_ParseProgram errs fuel : preserves (extends errs) (ParseProgram fuel).
Proof.
  apply preserves_ParseProgram.
  - apply extends_nextToken.
  - intros t. unfold peekError. eapply hoare_bind; [apply preserves_peek|].
    intros pk. apply extends_addError.
  - intros msg. apply extends_addError.
  - intros p H. apply extends_addError. exact H.
Qed.

(** X14: [ParseProgram] only appends to the error list: the errors that the
    parser holds when it is called are the first errors it holds when it
    returns. *)
Theorem ParseProgram_keeps_errors (fuel : nat) (p : Parser)
    (program : ast.Program) (p' : Parser) :
  ParseProgram fuel p = Done program p' ->
  exists more, Errors p' = (Errors p ++ more)%list.
Proof.
  intros H. pose proof (extends_ParseProgram (errors p) fuel p) as E.
  rewrite H in E. apply E. exists []. now rewrite app_nil_r.
Qed.

Lemma ParseProgram_keeps_errors_witness :
  exists program p',
    ParseProgram 10 (start "x y") = Done program p'
    /\ exists more, Errors p' = (Errors (start "x y") ++ more)%list.
Proof.
  assert (E : {r | ParseProgram 10 (start "x y") = Done (fst r) (snd r)})
    by (eexists (_, _); vm_compute; reflexivity).
  destruct E as [[program p'] E]. exists program, p'.
  split; [exact E | exact (ParseProgram_keeps_errors _ _ _ _ E)].
Defined.

(** ** Where the loops stop *)

Lemma hoare_any {A} (P : Parser -> Prop) (m : M A) :
  hoare P m (fun _ _ => True).
Proof. intros p _. destruct (m p); exact Logic.I. Qed.

Lemma statements_end n fuel acc :
  hoare (fun _ => True) (statements n fuel acc)
    (fun _ p => Type_ (curToken p) = EOF).
Proof.
  revert acc. induction n as [|n IH]; intros acc; simpl.
  - intros p _. unfold bind, curTokenIs.
    destruct (TokenType_eqb (Type_ (curToken p)) EOF) eqn:E;
      [now apply TokenType_eqb_eq in E | exact Logic.I].
  - intros p _. unfold bind at 1. unfold curTokenIs at 1.
    destruct (TokenType_eqb (Type_ (curToken p)) EOF) eqn:E;
      [now apply TokenType_eqb_eq in E|].
    assert (H : hoare (fun _ => True)
      (nl <- curTokenIs NEWLINE ;;
       ind <- curTokenIs INDENT ;;
       ded <- curTokenIs DEDENT ;;
       if nl || ind || ded then nextToken ;; statements n fuel acc
       else
         stmt <- parseStatement fuel ;;
         eof' <- curTokenIs EOF ;;
         (if negb eof' then nextToken else ret tt) ;;
         statements n fuel (acc ++ [stmt])%list)
      (fun _ p => Type_ (curToken p) = EOF)).
    { eapply hoare_bind; [apply hoare_any | intros nl].
      eapply hoare_bind; [apply hoare_any | intros ind].
      eapply hoare_bind; [apply hoare_any | intros ded].
      destruct (nl || ind || ded).
      - eapply hoare_bind; [apply hoare_any | intros ?]. apply IH.
      - eapply hoare_bind; [apply hoare_any | intros ?].
        eapply hoare_bind; [apply hoare_any | intros ?].
        eapply hoare_bind; [apply hoare_any | intros ?]. apply IH. }
    exact (H p Logic.I).
Qed.

(** X15: when [ParseProgram] returns, its current token is the end-of-file
    token: the loop over the top-level statements has no other exit. *)
Theorem ParseProgram_ends_at_EOF (fuel : nat) (p : Parser)
    (program : ast.Program) (p' : Parser) :
  ParseProgram fuel p = Done program p' -> Type_ (curToken p') = EOF.
Proof.
  intros H.
  assert (T : hoare (fun _ => True) (ParseProgram fuel)
                (fun _ p => Type_ (curToken p) = EOF)).
  { unfold ParseProgram.
    eapply hoare_bind; [apply hoare_any | intros ?].
    eapply hoare_bind; [apply hoare_any | intros ?].
    eapply hoare_bind; [apply hoare_any | intros ?].
    eapply hoare_bind; [apply hoare_any | intros ?].
    eapply hoare_bind; [apply statements_end | intros ?].
    intros q Hq. exact Hq. }
  specialize (T p Logic.I). now rewrite H in T.
Qed.

Lemma ParseProgram_ends_at_EOF_witness :
  exists program p',
    ParseProgram 10 (start "x = 1") = Done program p'
    /\ Type_ (curToken p') = EOF.
Proof.
  assert (E : {r | ParseProgram 10 (start "x = 1") = Done (fst r) (snd r)})
    by (eexists (_, _); vm_compute; reflexivity).
  destruct E as [[program p'] E]. exists program, p'.
  split; [exact E | exact (ParseProgram_ends_at_EOF _ _ _ _ E)].
Defined.

Section Blocks.

Variable fuel : nat.
Variable ps : M ast.Statement.

Lemma blockStatements_end n stmts :
  hoare (fun _ => True) (blockStatements ps n stmts)
    (fun _ p => Type_ (curToken p) = EOF \/ Type_ (curToken p) = FUNC).
Proof.
  revert stmts. induction n as [|n IH]; intros stmts; simpl.
  - intros p _. unfold bind, curTokenIs.
    destruct (TokenType_eqb (Type_ (curToken p)) EOF) eqn:E;
      [left; now apply TokenType_eqb_eq in E | exact Logic.I].
  - intros p _. unfold bind at 1. unfold curTokenIs at 1.
    destruct (TokenType_eqb (Type_ (curToken p)) EOF) eqn:E;
      [left; now apply TokenType_eqb_eq in E|].
    unfold bind at 1. unfold curTokenIs at 1.
    destruct (TokenType_eqb (Type_ (curToken p)) NEWLINE).
    + assert (H : hoare (fun _ => True)
                    (nextToken ;; blockStatements ps n stmts)
                    (fun _ p => Type_ (curToken p) = EOF
                                \/ Type_ (curToken p) = FUNC)).
      { eapply hoare_bind; [apply hoare_any | intros ?]. apply IH. }
      exact (H p Logic.I).
    + unfold bind at 1. unfold curTokenIs at 1.
      destruct (TokenType_eqb (Type_ (curToken p)) FUNC) eqn:F;
        [right; now apply TokenType_eqb_eq in F|].
      assert (H : hoare (fun _ => True)
                    (stmt <- ps ;;
                     eof' <- curTokenIs EOF ;;
                     (if negb eof' then nextToken else ret tt) ;;
                     blockStatements ps n (stmts ++ [stmt])%list)
                    (fun _ p => Type_ (curToken p) = EOF
                                \/ Type_ (curToken p) = FUNC)).
      { eapply hoare_bind; [apply hoare_any | intros ?].
        eapply hoare_bind; [apply hoare_any | intros ?].
        eapply hoare_bind; [apply hoare_any | intros ?]. apply IH. }
      exact (H p Logic.I).
Qed.

End Blocks.

(** X16: a block ends only at the end of the input or in front of a [func]
    keyword, whatever statements it is made of: indentation does not end
    the body of a function, a loop or a branch. *)
Theorem block_ends_at_func_or_EOF (fuel : nat) (parseStatement : M ast.Statement)
    (p : Parser) (block : ast.BlockStmt) (p' : Parser) :
  parseBlockStatement fuel parseStatement p = Done block p' ->
  Type_ (curToken p') = EOF \/ Type_ (curToken p') = FUNC.
Proof.
  intros H.
  assert (T : hoare (fun _ => True) (parseBlockStatement fuel parseStatement)
                (fun _ p => Type_ (curToken p) = EOF
                            \/ Type_ (curToken p) = FUNC)).
  { unfold parseBlockStatement.
    eapply hoare_bind; [apply blockStatements_end | intros ?].
    intros q Hq. exact Hq. }
  specialize (T p Logic.I). now rewrite H in T.
Qed.

Lemma block_ends_at_func_or_EOF_witness :
  exists block p',
    parseBlockStatement 10 (parseStatement 10) (start "x = 1") = Done block p'
    /\ (Type_ (curToken p') = EOF \/ Type_ (curToken p') = FUNC).
Proof.
  assert (E : {r | parseBlockStatement 10 (parseStatement 10) (start "x = 1")
                    = Done (fst r) (snd r)})
    by (eexists (_, _); vm_compute; reflexivity).
  destruct E as [[block p'] E]. exists block, p'.
  split; [exact E | exact (block_ends_at_func_or_EOF _ _ _ _ _ E)].
Defined.

(** ** Struct declarations *)

(** X17: no statement that [parseStatement] returns is a struct declaration
    with a field or a method: whatever the tokens, the lists [Fields] and
    [Methods] of a parsed struct declaration are empty. *)
Theorem parsed_structs_are_empty (fuel : nat) (p : Parser)
    (d : ast.StructDecl) (p' : Parser) :
  parseStatement fuel p = Done (ast.StructDeclPtr (Some d)) p' ->
  ast.Fields d = [] /\ ast.Methods d = [].
Proof.
  assert (G : forall fuel' ps,
            parseStatement_body fuel' ps p
              = Done (ast.StructDeclPtr (Some d)) p' ->
            ast.Fields d = [] /\ ast.Methods d = []).
  { intros fuel' ps. unfold parseStatement_body, cur. unfold bind at 1.
    destruct (Type_ (curToken p));
      repeat first
        [ progress unfold ret
        | match goal with
          | |- match ?m ?q with _ => _ end = _ -> _ => destruct (m q) eqn:?
          | |- (if ?b then _ else _) _ = _ -> _ => destruct b
          | |- bind _ _ _ = _ -> _ => unfold bind at 1
          | |- Panic = _ -> _ => discriminate
          | |- OutOfFuel = _ -> _ => discriminate
          end ];
      intros H; inversion H; subst.
    eapply parseStructDeclaration_empty; eauto. }
  destruct fuel; simpl; apply G.
Qed.

Definition struct_source : string :=
  "struct P:" ++ String LF "    x int".

Lemma parsed_structs_are_empty_witness :
  exists d p',
    parseStatement 10 (start struct_source)
      = Done (ast.StructDeclPtr (Some d)) p'
    /\ ast.Fields d = [] /\ ast.Methods d = [].
Proof.
  assert (E : {r | parseStatement 10 (start struct_source)
                    = Done (ast.StructDeclPtr (Some (fst r))) (snd r)})
    by (eexists (_, _); vm_compute; reflexivity).
  destruct E as [[d p'] E]. exists d, p'.
  split; [exact E | exact (parsed_structs_are_empty _ _ _ _ E)].
Defined.

(** ** Sources without a backslash *)



End ProgramFacts.

(** * Properties of the code generator *)

Module GeneratorFacts.
Import ast strings codegen.

(** X19: the printer of the syntax tree and the code generator write a type
    in the same way: [TypeSpec.String] and [generateTypeSpec] agree on every
    type, and [Parameter.String] and [generateParameter] on every
    parameter. *)
Theorem types_are_written_alike (t : ast.TypeSpec) (p : ast.Parameter_) :
  TypeSpec_String t = generateTypeSpec t
  /\ Parameter_String p = generateParameter p.
Proof.
  assert (T : forall t, TypeSpec_String t = generateTypeSpec t).
  { fix IH 1. intros [name isPointer isSlice isArray size [k|] [v|]];
      simpl; rewrite ?IH; reflexivity. }
  split; [apply T|].
  unfold Parameter_String, generateParameter.
  destruct (ast.Parameter_Type p); [now rewrite T | reflexivity].
Qed.

(** ** Imports *)

Lemma prefix_QUOTE (s : string) : HasPrefix (QUOTE ++ s) QUOTE = true.
Proof.
  unfold HasPrefix, QUOTE. cbn [append String.prefix].
  destruct (Ascii.ascii_dec DQUOTE DQUOTE); [|congruence].
  destruct s; reflexivity.
Qed.

(** X20: an import without items and without alias is written between
    double quotes whether the parser stored its path with the quotes (a
    quoted import) or without (an unquoted one): a path that neither starts
    nor ends with a double quote gets them, a path that starts with one is
    written as it is. *)
Theorem import_quotes_are_normalised (path : string) (g : Generator) :
  HasPrefix path QUOTE = false -> HasSuffix path QUOTE = false ->
  generateImport (ast.mkImportDecl path EmptyString []) g
    = writeLine (QUOTE ++ path ++ QUOTE) g
  /\ generateImport (ast.mkImportDecl (QUOTE ++ path ++ QUOTE) EmptyString []) g
    = writeLine (QUOTE ++ path ++ QUOTE) g.
Proof.
  intros P S. unfold generateImport. cbn [ast.Items ast.Alias ast.Path].
  cbn [String.eqb negb]. cbv zeta. rewrite P, S, prefix_QUOTE.
  split; reflexivity.
Qed.

Lemma import_quotes_are_normalised_witness :
  HasPrefix "os" QUOTE = false /\ HasSuffix "os" QUOTE = false
  /\ generateImport (ast.mkImportDecl "os" EmptyString []) New
     = writeLine (QUOTE ++ "os" ++ QUOTE) New
  /\ generateImport (ast.mkImportDecl (QUOTE ++ "os" ++ QUOTE) EmptyString []) New
     = writeLine (QUOTE ++ "os" ++ QUOTE) New.
Proof.
  split; [reflexivity|]. split; [reflexivity|].
  apply (import_quotes_are_normalised "os" New); reflexivity.
Defined.

Section Statements.

Variable float : Z -> Z -> string.

(** ** The first line of a range loop *)

(** X21: for a range loop over a call, [generateForStmt] writes the first
    line of the loop only when the call is [range] with an argument: over
    any other call it writes the body and the closing brace without the
    line that opens the loop. *)
Theorem range_over_a_call_has_no_header (name : string)
    (arguments : list (option ast.Expression))
    (init update : option ast.Statement) (condition : option ast.Expression)
    (body : ast.BlockStmt) (rangeVar : string) (g : Generator) :
  name <> "range" ->
  generateForStmt float
    (ast.mkForStmt init condition update (Some body) true rangeVar
       (Some (ast.CallExpr (Some (ast.Identifier name)) arguments))) g
  = bind (generateBlockStmt float body (indent 1 g))
      (fun g' => Some (writeLine "}" (indent (-1) g'))).
Proof.
  intros N. apply String.eqb_neq in N.
  cbn [generateForStmt forHeader]. rewrite N. reflexivity.
Qed.

(** ** Indentation and output *)

(** [g'] is [g] after more text was written, at the indentation level
    [d] deeper. *)
Definition written (d : Z) (g g' : Generator) : Prop :=
  indentLevel g' = (indentLevel g + d)%Z
  /\ exists text, output g' = output g ++ text.

Lemma append_assoc (a b c : string) : (a ++ b) ++ c = a ++ b ++ c.
Proof. induction a as [|x a IH]; simpl; [reflexivity | now rewrite IH]. Qed.

Lemma append_empty (a : string) : a ++ EmptyString = a.
Proof. induction a as [|x a IH]; simpl; [reflexivity | now rewrite IH]. Qed.

Lemma written_refl g : written 0 g g.
Proof. split; [lia|]. exists EmptyString. now rewrite append_empty. Qed.

Lemma written_trans a b g1 g2 g3 :
  written a g1 g2 -> written b g2 g3 -> written (a + b) g1 g3.
Proof.
  intros [L1 [t1 O1]] [L2 [t2 O2]]. split; [lia|].
  exists (t1 ++ t2). now rewrite O2, O1, append_assoc.
Qed.

Lemma written_WriteString s g : written 0 g (WriteString s g).
Proof. split; simpl; [lia|]. now exists s. Qed.

Lemma written_indent d g : written d g (indent d g).
Proof. split; simpl; [lia|]. exists EmptyString. now rewrite append_empty. Qed.

Lemma written_tabs n g : written 0 g (tabs n g).
Proof.
  revert g. induction n as [|n IH]; intros g; simpl; [apply written_refl|].
  change 0%Z with (0 + 0)%Z.
  eapply written_trans; [apply written_WriteString | apply IH].
Qed.

Lemma written_writeLine line g : written 0 g (writeLine line g).
Proof.
  unfold writeLine. destruct (String.eqb line EmptyString);
    [apply written_WriteString|].
  cbv zeta. change 0%Z with (0 + (0 + 0))%Z.
  eapply written_trans; [apply written_tabs|].
  eapply written_trans; apply written_WriteString.
Qed.

Lemma written_eq a b g g' : written a g g' -> a = b -> written b g g'.
Proof. now intros H <-. Qed.

Lemma generateVarDecl_written v g g' :
  generateVarDecl float v g = Some g' -> written 0 g g'.
Proof.
  unfold generateVarDecl. destruct v as [v|]; [|discriminate].
  destruct (ast.VarDecl_Type v); [destruct (ast.VarDecl_Value v)|];
    unfold bind;
    try destruct (generateExpression float _); try destruct (ast.IsWalrus v);
    intros H; inversion H; apply written_writeLine.
Qed.

Lemma generateReturnStmt_written r g g' :
  generateReturnStmt float r g = Some g' -> written 0 g g'.
Proof.
  unfold generateReturnStmt. destruct r as [r|]; [|discriminate].
  destruct (ast.ReturnStmt_Value r); unfold bind;
    try destruct (generateExpression float _);
    intros H; inversion H; apply written_writeLine.
Qed.

Lemma generateExpressionStmt_written e g g' :
  generateExpressionStmt float e g = Some g' -> written 0 g g'.
Proof.
  unfold generateExpressionStmt. destruct e as [e|]; [|discriminate].
  unfold bind; destruct (generateExpression float _);
    intros H; inversion H; apply written_writeLine.
Qed.

Lemma fold_written {A} (f : Generator -> A -> Generator) xs g :
  (forall g x, written 0 g (f g x)) -> written 0 g (fold_left f xs g).
Proof.
  intros F. revert g. induction xs as [|x xs IH]; intros g; simpl;
    [apply written_refl|].
  change 0%Z with (0 + 0)%Z. eapply written_trans; [apply F | apply IH].
Qed.

Lemma generateField_written field g : written 0 g (generateField field g).
Proof. apply written_writeLine. Qed.

Lemma writeHeader_written header g : written 0 g (writeHeader header g).
Proof. destruct header; [apply written_writeLine | apply written_refl]. Qed.

(** The steps of a method, from the last one back to the first. *)
Ltac chain :=
  eapply written_eq;
  [ repeat first
      [ apply written_refl
      | eassumption
      | eapply written_trans;
        [ | first [ apply written_writeLine
                  | apply written_indent
                  | apply writeHeader_written
                  | apply fold_written; intros; apply generateField_written
                  | eassumption ] ] ]
  | lia ].

Fixpoint generateStatement_written (stmt : ast.Statement) {struct stmt} :
  forall g g', generateStatement float stmt g = Some g' -> written 0 g g'
with generateFunctionDecl_written (fn : ast.FunctionDecl) {struct fn} :
  forall g g', generateFunctionDecl float fn g = Some g' -> written 0 g g'
with generateStructDecl_written (s : ast.StructDecl) {struct s} :
  forall g g', generateStructDecl float s g = Some g' -> written 0 g g'
with generateIfStmt_written (i : ast.IfStmt) {struct i} :
  forall g g', generateIfStmt float i g = Some g' -> written 0 g g'
with generateForStmt_written (f : ast.ForStmt) {struct f} :
  forall g g', generateForStmt float f g = Some g' -> written 0 g g'
with generateWhileStmt_written (w : ast.WhileStmt) {struct w} :
  forall g g', generateWhileStmt float w g = Some g' -> written 0 g g'
with generateBlockStmt_written (b : ast.BlockStmt) {struct b} :
  forall g g', generateBlockStmt float b g = Some g' -> written 0 g g'.
Proof.
  - (* generateStatement *)
    destruct stmt as [[d|]|[d|]|d|[s|]|[s|]|[s|]|s|s|[s|]]; simpl;
      intros g g'; try discriminate.
    + apply generateFunctionDecl_written.
    + apply generateStructDecl_written.
    + apply generateVarDecl_written.
    + apply generateIfStmt_written.
    + apply generateForStmt_written.
    + apply generateWhileStmt_written.
    + apply generateReturnStmt_written.
    + apply generateExpressionStmt_written.
    + apply generateBlockStmt_written.
  - (* generateFunctionDecl *)
    destruct fn as [name parameters returnType [body|] receiver]; simpl;
      intros g g'; [|discriminate].
    unfold bind.
    destruct (generateBlockStmt float body _) as [g1|] eqn:E; [|discriminate].
    apply generateBlockStmt_written in E.
    intros H; inversion H; subst. clear H. chain.
  - (* generateStructDecl *)
    destruct s as [name fields methods]; simpl; intros g.
    set (g0 := writeLine "}" _).
    assert (W : written 0 g g0) by (subst g0; chain).
    clearbody g0. revert g0 W.
    induction methods as [|method methods IH]; intros g0 W g'.
    + intros H; inversion H; subst. exact W.
    + unfold bind at 1.
      destruct (generateFunctionDecl float method _) as [g1|] eqn:E;
        [|discriminate].
      apply generateFunctionDecl_written in E.
      apply IH. chain.
  - (* generateIfStmt *)
    destruct i as [condition thenBranch elseBranch]; simpl; intros g g'.
    unfold bind at 1.
    destruct (generateExpression float condition) as [c|]; [|discriminate].
    unfold bind at 1.
    set (g0 := indent 1 _).
    assert (W0 : written 1 g g0) by (subst g0; chain).
    clearbody g0.
    assert (T : forall g1,
              match thenBranch with
              | Some s => generateStatement float s g0
              | None => Some g0
              end = Some g1 -> written 0 g0 g1).
    { destruct thenBranch as [s|].
      - intros g1. apply generateStatement_written.
      - intros g1 H; inversion H; apply written_refl. }
    destruct (match thenBranch with
              | Some s => generateStatement float s g0
              | None => Some g0
              end) as [g1|]; [|discriminate].
    specialize (T g1 eq_refl).
    unfold bind at 1.
    destruct elseBranch as [s|].
    + unfold bind at 1.
      destruct (generateStatement float s _) as [g2|] eqn:E; [|discriminate].
      apply generateStatement_written in E.
      intros H; inversion H; subst. clear H. chain.
    + intros H; inversion H; subst. clear H. chain.
  - (* generateForStmt *)
    destruct f as [init condition update [body|] isRange rangeVar rangeExpr];
      simpl; intros g g'; unfold bind at 1;
      destruct (forHeader float _ _ _ _ _ _) as [header|]; try discriminate.
    unfold bind.
    destruct (generateBlockStmt float body _) as [g1|] eqn:E; [|discriminate].
    apply generateBlockStmt_written in E.
    intros H; inversion H; subst. clear H. chain.
  - (* generateWhileStmt *)
    destruct w as [condition [body|]]; simpl; intros g g'; unfold bind at 1;
      destruct (generateExpression float condition) as [c|];
      try discriminate.
    unfold bind.
    destruct (generateBlockStmt float body _) as [g1|] eqn:E; [|discriminate].
    apply generateBlockStmt_written in E.
    intros H; inversion H; subst. clear H. chain.
  - (* generateBlockStmt *)
    destruct b as [statements]; simpl.
    induction statements as [|stmt statements IH]; intros g g'.
    + intros H; inversion H; apply written_refl.
    + unfold bind at 1.
      destruct (generateStatement float stmt g) as [g1|] eqn:E;
        [|discriminate].
      apply generateStatement_written in E. intros H. apply IH in H. chain.
Qed.

(** X22: a statement is generated at the indentation level at which the
    generator is called, and the generator is left at that level: every
    method increases and decreases the level in pairs, and only appends to
    the output. *)
Theorem generateStatement_keeps_indentation (stmt : ast.Statement)
    (g g' : Generator) :
  generateStatement float stmt g = Some g' ->
  indentLevel g' = indentLevel g
  /\ exists text, output g' = output g ++ text.
Proof.
  intros H. apply generateStatement_written in H. destruct H as [L O].
  split; [lia | exact O].
Qed.

Lemma generateImport_written imp g : written 0 g (generateImport imp g).
Proof.
  unfold generateImport.
  destruct (ast.Items imp); [destruct (negb _); apply written_writeLine|].
  destruct (negb _); apply fold_written; intros; apply written_writeLine.
Qed.

Lemma topLevel_written stmts :
  forall g g', topLevel float stmts g = Some g' -> written 0 g g'.
Proof.
  induction stmts as [|stmt stmts IH]; intros g g'; simpl.
  - intros H; inversion H; apply written_refl.
  - unfold bind at 1.
    destruct (generateStatement float stmt g) as [g1|] eqn:E; [|discriminate].
    apply generateStatement_written in E. destruct stmts as [|next stmts].
    + intros H; inversion H; subst. exact E.
    + intros H. apply IH in H. chain.
Qed.

(** The generator after [Generate] has written the package clause and the
    empty line after it. *)
Definition packageWritten (program : ast.Program) : Generator :=
  writeLine EmptyString (writeLine ("package " ++ ast.Package program) New).

Lemma packageWritten_output program :
  output (packageWritten program)
  = "package " ++ ast.Package program ++ String LF (String LF EmptyString).
Proof. unfold packageWritten, writeLine. cbn. now rewrite append_assoc. Qed.

Lemma Generate_written (program : ast.Program) (text : string) :
  Generate float program = Some text ->
  exists more, text = output (packageWritten program) ++ more.
Proof.
  unfold Generate. cbv zeta. fold (packageWritten program).
  set (g0 := packageWritten program).
  match goal with
  | |- bind (topLevel _ _ ?g) _ = _ -> _ =>
      assert (W : written 0 g0 g)
  end.
  { destruct (ast.Imports program); [apply written_refl|].
    eapply written_eq;
      [ eapply written_trans; [|apply written_writeLine];
        eapply written_trans; [|apply written_writeLine];
        eapply written_trans; [|apply written_indent];
        eapply written_trans;
          [|apply fold_written; intros; apply generateImport_written];
        eapply written_trans; [|apply written_indent];
        apply written_writeLine
      | lia ]. }
  unfold bind.
  match goal with
  | |- match topLevel _ _ ?g with _ => _ end = _ -> _ =>
      destruct (topLevel float (ast.Program_Statements program) g)
        as [g1|] eqn:E; [|discriminate]
  end.
  apply topLevel_written in E. intros H; inversion H; subst.
  destruct W as [_ [t1 W]]. destruct E as [_ [t2 E]].
  exists (t1 ++ t2). now rewrite E, W, append_assoc.
Qed.

(** X23: the text that [Generate] returns begins with the package clause of
    the program and an empty line; the imports and the statements come
    after them, whatever they are. *)
Theorem Generate_begins_with_the_package (program : ast.Program)
    (text : string) :
  Generate float program = Some text ->
  exists rest,
    text = "package " ++ ast.Package program
           ++ String LF (String LF EmptyString) ++ rest.
Proof.
  intros H. destruct (Generate_written program text H) as [rest ->].
  exists rest. rewrite packageWritten_output.
  repeat first [rewrite append_assoc | progress cbn [append]]. reflexivity.
Qed.

End Statements.

Definition one_statement : ast.BlockStmt :=
  ast.mkBlockStmt
    [ast.ExpressionStmtPtr
       (Some (ast.mkExpressionStmt (Some (ast.Identifier "x"))))].

Lemma range_over_a_call_has_no_header_witness :
  "items" <> "range"
  /\ option_map output
       (generateForStmt (fun _ _ => EmptyString)
          (ast.mkForStmt None None None (Some one_statement) true "i"
             (Some (ast.CallExpr (Some (ast.Identifier "items")) []))) New)
     = Some (String TAB "x" ++ String LF "}" ++ String LF EmptyString).
Proof.
  assert (N : "items" <> "range") by discriminate.
  split; [exact N|].
  rewrite (range_over_a_call_has_no_header (fun _ _ => EmptyString) "items" []
             None None None one_statement "i" New N).
  reflexivity.
Defined.


Lemma generateStatement_keeps_indentation_witness :
  exists g',
    generateStatement (fun _ _ => EmptyString)
      (ast.BlockStmtPtr (Some one_statement)) (indent 2 New) = Some g'
    /\ indentLevel g' = indentLevel (indent 2 New)
    /\ exists text, output g' = output (indent 2 New) ++ text.
Proof.
  eexists. split; [reflexivity|].
  apply (generateStatement_keeps_indentation (fun _ _ => EmptyString)
           (ast.BlockStmtPtr (Some one_statement)) (indent 2 New)).
  reflexivity.
Defined.

Lemma Generate_begins_with_the_package_witness :
  exists text,
    Generate (fun _ _ => EmptyString)
      (ast.mkProgram "main" [] [ast.BlockStmtPtr (Some one_statement)])
    = Some text
    /\ exists rest,
         text = "package " ++ "main" ++ String LF (String LF EmptyString)
                ++ rest.
Proof.
  eexists. split; [reflexivity|].
  apply (Generate_begins_with_the_package (fun _ _ => EmptyString)
           (ast.mkProgram "main" [] [ast.BlockStmtPtr (Some one_statement)])).
  reflexivity.
Defined.

End GeneratorFacts.

(** * The parser and the code generator together *)

Module CompilerFacts.
Import lexer parser ParserFacts strings.
Local Open Scope parser_scope.

(** ** The error list counts the failures *)

(** At least [k] errors were reported. *)
Definition reported (k : nat) (p : Parser) : Prop :=
  k <= List.length (errors p).

Lemma reported_addError k msg : preserves (reported k) (addError msg).
Proof.
  intros p H. unfold reported in *. simpl. rewrite length_app. lia.
Qed.

Lemma reported_more k msg p :
  reported k p ->
  match addError msg p with
  | Done _ p' => reported (S k) p'
  | Panic | OutOfFuel => True
  end.
Proof.
  intros H. unfold reported in *. simpl. rewrite length_app. simpl. lia.
Qed.

Lemma reported_nextToken k : preserves (reported k) nextToken.
Proof.
  intros p H. unfold nextToken.
  destruct (NextToken (l p)) as [[tok|] lx]; auto.
  destruct (skipComments _ tok lx) as [[[tok' lx']|]|]; auto.
Qed.

Lemma reported_peekError k t : preserves (reported k) (peekError t).
Proof.
  unfold peekError. eapply hoare_bind; [apply preserves_peek|].
  intros pk. apply reported_addError.
Qed.

Lemma reported_parseError k msg :
  preserves (reported k) (addError ("could not parse " ++ msg)).
Proof. apply reported_addError. Qed.

Lemma reported_noPrefix k p :
  reported k p ->
  match noPrefixParseFnError (Type_ (curToken p)) p with
  | Done _ p' => reported k p'
  | Panic | OutOfFuel => True
  end.
Proof. intros H. now apply reported_addError. Qed.

(** The base operations keep the errors, so every method does. *)
Ltac by_reported :=
  first [ apply reported_nextToken | apply reported_peekError
        | apply reported_parseError | apply reported_noPrefix
        | assumption ].

Lemma grow_expectPeek k t :
  preserves (reported k) (expectPeek t).
Proof. intros. apply preserves_expectPeek; by_reported. Qed.

Lemma grow_skipWhile k i cond :
  preserves (reported k) cond -> preserves (reported k) (skipWhile i cond).
Proof. intros. apply preserves_skipWhile; by_reported. Qed.

Lemma grow_parseTypeSpec k fuel :
  preserves (reported k) (parseTypeSpec fuel).
Proof. intros. apply preserves_parseTypeSpec; by_reported. Qed.

Lemma grow_parseFunctionParameters k fuel :
  preserves (reported k) (parseFunctionParameters fuel).
Proof. intros. apply preserves_parseFunctionParameters; by_reported. Qed.

Lemma grow_parseExpression k fuel precedence :
  preserves (reported k) (parseExpression fuel precedence).
Proof. intros. apply preserves_parseExpression; by_reported. Qed.

Lemma grow_parseVarDeclaration k fuel :
  preserves (reported k) (parseVarDeclaration fuel).
Proof. intros. apply preserves_parseVarDeclaration; by_reported. Qed.

Lemma grow_parseReturnStatement k fuel :
  preserves (reported k) (parseReturnStatement fuel).
Proof. intros. apply preserves_parseReturnStatement; by_reported. Qed.

Lemma grow_parseExpressionStatement k fuel :
  preserves (reported k) (parseExpressionStatement fuel).
Proof. intros. apply preserves_parseExpressionStatement; by_reported. Qed.

Lemma grow_parseImportDeclaration k fuel :
  preserves (reported k) (parseImportDeclaration fuel).
Proof. intros. apply preserves_parseImportDeclaration; by_reported. Qed.

Lemma grow_imports k i fuel acc :
  preserves (reported k) (imports i fuel acc).
Proof. intros. apply preserves_imports; by_reported. Qed.

Lemma grow_parseStatement k fuel :
  preserves (reported k) (parseStatement fuel).
Proof. intros. apply preserves_parseStatement; by_reported. Qed.

Lemma grow_statements k i fuel acc :
  preserves (reported k) (statements i fuel acc).
Proof. intros. apply preserves_statements; by_reported. Qed.

Lemma grow_blockStatements k ps i stmts :
  preserves (reported k) ps -> preserves (reported k) (blockStatements ps i stmts).
Proof. intros. apply preserves_blockStatements; by_reported. Qed.

Lemma grow_parseBlockStatement k fuel ps :
  preserves (reported k) ps -> preserves (reported k) (parseBlockStatement fuel ps).
Proof. intros. apply preserves_parseBlockStatement; by_reported. Qed.

Lemma grow_parseFunctionDeclaration k fuel ps :
  preserves (reported k) ps -> preserves (reported k) (parseFunctionDeclaration fuel ps).
Proof. intros. apply preserves_parseFunctionDeclaration; by_reported. Qed.

Lemma grow_structMembers k fuel ps i name fields methods :
  preserves (reported k) ps -> preserves (reported k) (structMembers fuel ps i name fields methods).
Proof. intros. apply preserves_structMembers; by_reported. Qed.

Lemma grow_parseStructDeclaration k fuel ps :
  preserves (reported k) ps -> preserves (reported k) (parseStructDeclaration fuel ps).
Proof. intros. apply preserves_parseStructDeclaration; by_reported. Qed.

Lemma grow_parseIfStatement k fuel ps i :
  preserves (reported k) ps -> preserves (reported k) (parseIfStatement fuel ps i).
Proof. intros. apply preserves_parseIfStatement; by_reported. Qed.

Lemma grow_parseForStatement k fuel ps :
  preserves (reported k) ps -> preserves (reported k) (parseForStatement fuel ps).
Proof. intros. apply preserves_parseForStatement; by_reported. Qed.

Lemma grow_parseWhileStatement k fuel ps :
  preserves (reported k) ps -> preserves (reported k) (parseWhileStatement fuel ps).
Proof. intros. apply preserves_parseWhileStatement; by_reported. Qed.

Lemma grow_parseStatement_body k fuel ps :
  preserves (reported k) ps -> preserves (reported k) (parseStatement_body fuel ps).
Proof. intros. apply preserves_parseStatement_body; by_reported. Qed.

Create HintDb grow.
#[local] Hint Resolve reported_nextToken preserves_cur preserves_peek
  preserves_curTokenIs preserves_peekTokenIs
  grow_expectPeek grow_skipWhile grow_parseTypeSpec
  grow_parseFunctionParameters grow_parseExpression grow_parseVarDeclaration
  grow_parseReturnStatement grow_parseExpressionStatement grow_parseImportDeclaration
  grow_imports grow_parseStatement grow_statements
  grow_blockStatements grow_parseBlockStatement grow_parseFunctionDeclaration
  grow_structMembers grow_parseStructDeclaration grow_parseIfStatement
  grow_parseForStatement grow_parseWhileStatement grow_parseStatement_body : grow.

(** Every method keeps the errors that were reported. *)
Ltac grow_step :=
  match goal with
  | |- preserves _ (bind _ _) => apply preserves_bind; [| intros ?]
  | |- preserves _ (ret _) => apply preserves_ret
  | |- preserves _ outOfFuel => apply preserves_timeout
  | |- preserves _ (fun _ => OutOfFuel) => apply preserves_timeout
  | |- preserves _ _ => solve [eauto 3 with grow nocore]
  | |- preserves _ (if ?b then _ else _) => destruct b
  | |- preserves _ (match ?x with _ => _ end) => destruct x
  end.

Ltac grow := repeat (cbv zeta; grow_step).

(** ** What a method returns *)

(** [returns m S]: whatever the state, the result of [m] satisfies [S]. *)
Definition returns {A} (m : M A) (S : A -> Prop) : Prop :=
  hoare (fun _ => True) m (fun r _ => S r).

Lemma returns_bind {A B} (m : M A) (f : A -> M B) S1 S2 :
  returns m S1 -> (forall a, S1 a -> returns (f a) S2) ->
  returns (bind m f) S2.
Proof.
  intros Hm Hf p _. unfold bind. specialize (Hm p Logic.I).
  destruct (m p) as [a p'| |]; auto. now apply Hf.
Qed.

Lemma returns_any {A} (m : M A) : returns m (fun _ => True).
Proof. intros p _. destruct (m p); exact Logic.I. Qed.

Lemma returns_ret {A} (a : A) (S : A -> Prop) : S a -> returns (ret a) S.
Proof. intros H p _. exact H. Qed.

Lemma returns_outOfFuel {A} (S : A -> Prop) : returns outOfFuel S.
Proof. intros p _. exact Logic.I. Qed.

Section Generated.

(** The text of a float literal; see [fmt.v]. *)
Variable float : Z -> Z -> string.

(** ** Expressions that the generator accepts *)

Definition exprOK (e : Expr) : Prop := codegen.generateExpression float e <> None.

Lemma each_ok {A B} (f : A -> option B) xs :
  Forall (fun x => f x <> None) xs -> codegen.each f xs <> None.
Proof.
  induction 1 as [|x xs H F IH]; simpl; [discriminate|].
  unfold codegen.bind. destruct (f x); [|congruence].
  destruct (codegen.each f xs); [discriminate | congruence].
Qed.

Lemma each_ok_inv {A B} (f : A -> option B) xs :
  codegen.each f xs <> None -> Forall (fun x => f x <> None) xs.
Proof.
  induction xs as [|x xs IH]; simpl; [constructor|].
  unfold codegen.bind. destruct (f x) eqn:E; [|congruence].
  destruct (codegen.each f xs); [|congruence].
  intros _. constructor; [congruence | apply IH; discriminate].
Qed.

(** Use the facts [x <> None] of the context in the goal. *)
Ltac ok :=
  unfold exprOK, codegen.generateExpression in *; cbn [codegen.generateExpression' codegen.slot] in *;
  unfold codegen.bind;
  repeat match goal with
  | H : ?x <> None |- context [match ?x with _ => _ end] =>
      destruct x; [|congruence]
  | |- context [if ?b then _ else _] => destruct b
  end;
  try discriminate.

Lemma exprOK_None : exprOK None.
Proof. ok. Qed.

Lemma exprOK_Identifier value : exprOK (Some (ast.Identifier value)).
Proof. ok. Qed.

Lemma exprOK_unary operator operand :
  exprOK operand -> exprOK (Some (ast.UnaryExpr operator operand)).
Proof. intros H. ok. Qed.

Lemma exprOK_binary leftExpr operator rightExpr :
  exprOK leftExpr -> exprOK rightExpr ->
  exprOK (Some (ast.BinaryExpr leftExpr operator rightExpr)).
Proof. intros H1 H2. ok. Qed.

Lemma exprOK_index object index :
  exprOK object -> exprOK index -> exprOK (Some (ast.IndexExpr object index)).
Proof. intros H1 H2. ok. Qed.

Lemma exprOK_selector object selector :
  exprOK object -> exprOK (Some (ast.SelectorExpr object selector)).
Proof. intros H. ok. Qed.

Lemma generate_array elements :
  codegen.generateExpression float (Some (ast.ArrayLiteral elements))
  = codegen.bind (codegen.each (codegen.generateExpression float) elements)
      (fun elems => Some ("[]interface{}{" ++ Join elems ", " ++ "}")).
Proof. reflexivity. Qed.

Lemma exprOK_array elements :
  Forall exprOK elements -> exprOK (Some (ast.ArrayLiteral elements)).
Proof.
  intros H. apply (each_ok (codegen.generateExpression float)) in H.
  unfold exprOK. rewrite generate_array. unfold codegen.bind.
  destruct (codegen.each (codegen.generateExpression float) elements);
    [discriminate | congruence].
Qed.

Lemma generate_call function arguments :
  codegen.generateExpression float (Some (ast.CallExpr function arguments))
  = codegen.bind (codegen.each (codegen.generateExpression float) arguments)
      (fun args =>
         let call :=
           codegen.bind (codegen.generateExpression float function)
             (fun f => Some (f ++ "(" ++ Join args ", " ++ ")")) in
         match function with
         | Some (ast.Identifier name) =>
             if String.eqb name "print" then
               Some ("fmt.Println(" ++ Join args ", " ++ ")")
             else if String.eqb name "len" then
               Some ("len(" ++ Join args ", " ++ ")")
             else if String.eqb name "range" then
               match args with
               | first :: _ => Some first
               | [] => call
               end
             else call
         | _ => call
         end).
Proof. reflexivity. Qed.

Lemma exprOK_call function arguments :
  exprOK function -> Forall exprOK arguments ->
  exprOK (Some (ast.CallExpr function arguments)).
Proof.
  intros F H. apply (each_ok (codegen.generateExpression float)) in H.
  unfold exprOK in *. rewrite generate_call. unfold codegen.bind at 1.
  destruct (codegen.each (codegen.generateExpression float) arguments)
    as [args|]; [|congruence].
  cbv zeta.
  assert (C : codegen.bind (codegen.generateExpression float function)
                (fun f => Some (f ++ "(" ++ Join args ", " ++ ")")) <> None).
  { unfold codegen.bind.
    destruct (codegen.generateExpression float function);
      [discriminate | congruence]. }
  destruct function as [[]|]; try exact C.
  repeat match goal with
  | |- context [if ?b then _ else _] => destruct b
  end; try discriminate; try exact C.
  destruct args; [exact C | discriminate].
Qed.

Lemma exprOK_call_inv function arguments :
  exprOK (Some (ast.CallExpr function arguments)) -> Forall exprOK arguments.
Proof.
  unfold exprOK. rewrite generate_call. unfold codegen.bind at 1.
  intros H. apply (each_ok_inv (codegen.generateExpression float)).
  destruct (codegen.each (codegen.generateExpression float) arguments);
    [discriminate | congruence].
Qed.

Definition pairOK (pair : Expr * Expr) : Prop :=
  exprOK (fst pair) /\ exprOK (snd pair).

Lemma generate_map pairs :
  codegen.generateExpression float (Some (ast.MapLiteral pairs))
  = codegen.bind
      (codegen.each
         (fun pair : Expr * Expr =>
            codegen.bind (codegen.generateExpression float (fst pair))
              (fun k =>
                 codegen.bind (codegen.generateExpression float (snd pair))
                   (fun v => Some (k ++ ": " ++ v)))) pairs)
      (fun ps => Some ("map[interface{}]interface{}{" ++ Join ps ", " ++ "}")).
Proof. reflexivity. Qed.

Lemma exprOK_map pairs :
  Forall pairOK pairs -> exprOK (Some (ast.MapLiteral pairs)).
Proof.
  intros H. unfold exprOK. rewrite generate_map. unfold codegen.bind at 1.
  match goal with |- context [codegen.each ?f pairs] =>
    assert (E : codegen.each f pairs <> None)
  end.
  { apply each_ok. eapply Forall_impl; [|exact H].
    intros [k v] [K V]. unfold exprOK in *. cbn [fst snd] in *.
    unfold codegen.bind.
    destruct (codegen.generateExpression float k); [|congruence].
    destruct (codegen.generateExpression float v); [discriminate | congruence]. }
  match goal with |- context [codegen.each ?f pairs] =>
    destruct (codegen.each f pairs); [discriminate | congruence]
  end.
Qed.

Lemma exprOK_literal type value :
  (type = "bool" -> exists b, value = ast.BoolValue b) ->
  exprOK (Some (ast.Literal type value)).
Proof.
  intros H. unfold exprOK, codegen.generateExpression. cbn [codegen.generateExpression' codegen.slot].
  unfold codegen.generateLiteral.
  destruct (String.eqb type "string"); [discriminate|].
  destruct (String.eqb type "int" || String.eqb type "float"); [discriminate|].
  destruct (String.eqb_spec type "bool") as [E|E].
  - destruct (H E) as [b ->]. discriminate.
  - destruct (String.eqb type "nil"); discriminate.
Qed.

(** The expressions that the parser returns are such expressions. *)

Create HintDb ok.
#[local] Hint Resolve Forall_nil Forall_cons exprOK_None : ok.

Ltac returns_step :=
  match goal with
  | |- returns (bind _ _) _ =>
      first [ eapply returns_bind; [solve [eauto 4 with ok nocore] | intros ? ?]
            | eapply returns_bind; [apply returns_any | intros ? _] ]
  | |- returns (ret _) _ => apply returns_ret
  | |- returns outOfFuel _ => apply returns_outOfFuel
  | |- returns (if ?b then _ else _) _ => destruct b
  | |- returns (match ?x with _ => _ end) _ => destruct x
  end.

Ltac returns_all := repeat (cbv zeta; returns_step).

Lemma returns_parseIdentifier : returns parseIdentifier exprOK.
Proof. unfold parseIdentifier. returns_all. apply exprOK_Identifier. Qed.

Lemma returns_parseIntegerLiteral : returns parseIntegerLiteral exprOK.
Proof.
  unfold parseIntegerLiteral. returns_all;
    first [apply exprOK_None | apply exprOK_literal; discriminate].
Qed.

Lemma returns_parseFloatLiteral : returns parseFloatLiteral exprOK.
Proof.
  unfold parseFloatLiteral. returns_all;
    first [apply exprOK_None | apply exprOK_literal; discriminate].
Qed.

Lemma returns_parseStringLiteral : returns parseStringLiteral exprOK.
Proof.
  unfold parseStringLiteral. returns_all. apply exprOK_literal; discriminate.
Qed.

Lemma returns_parseBooleanLiteral : returns parseBooleanLiteral exprOK.
Proof.
  unfold parseBooleanLiteral. returns_all. apply exprOK_literal. eauto.
Qed.

Lemma returns_parseNilLiteral : returns parseNilLiteral exprOK.
Proof.
  unfold parseNilLiteral. returns_all. apply exprOK_literal; discriminate.
Qed.

Section Expressions.

Variable pe : Z -> M Expr.
Hypothesis returns_pe : forall precedence, returns (pe precedence) exprOK.

Lemma returns_parsePrefixExpression :
  returns (parsePrefixExpression pe) exprOK.
Proof.
  unfold parsePrefixExpression. returns_all. now apply exprOK_unary.
Qed.

Lemma returns_parseInfixExpression leftExpr :
  exprOK leftExpr -> returns (parseInfixExpression pe leftExpr) exprOK.
Proof.
  intros L. unfold parseInfixExpression. returns_all. now apply exprOK_binary.
Qed.

Lemma returns_parseGroupedExpression :
  returns (parseGroupedExpression pe) exprOK.
Proof.
  unfold parseGroupedExpression. returns_all;
    first [apply exprOK_None | assumption].
Qed.

Lemma returns_expressions n args :
  Forall exprOK args -> returns (expressions pe n args) (Forall exprOK).
Proof.
  revert args. induction n as [|n IH]; intros args F; simpl; returns_all;
    auto.
  apply IH. apply Forall_app. auto.
Qed.

Lemma returns_parseExpressionList n close :
  returns (parseExpressionList pe n close) (Forall exprOK).
Proof.
  unfold parseExpressionList.
  pose proof returns_expressions as E. returns_all; auto.
Qed.

Lemma returns_parseArrayLiteral n : returns (parseArrayLiteral pe n) exprOK.
Proof.
  unfold parseArrayLiteral. pose proof returns_parseExpressionList.
  returns_all. now apply exprOK_array.
Qed.

Lemma returns_pairs n acc :
  Forall pairOK acc ->
  returns (pairs pe n acc)
    (fun r => match r with Some ps => Forall pairOK ps | None => True end).
Proof.
  revert acc. induction n as [|n IH]; intros acc F; simpl; returns_all; auto.
  - apply Forall_app. split; auto. constructor; [split|]; auto.
  - apply Forall_app. split; auto. constructor; [split|]; auto.
  - apply IH. apply Forall_app. split; auto. constructor; [split|]; auto.
Qed.

Lemma returns_parseMapLiteral n : returns (parseMapLiteral pe n) exprOK.
Proof.
  unfold parseMapLiteral. pose proof returns_pairs as P.
  returns_all; first [apply exprOK_None | apply exprOK_map; auto with ok].
Qed.

Lemma returns_parseCallExpression n fn :
  exprOK fn -> returns (parseCallExpression pe n fn) exprOK.
Proof.
  intros F. unfold parseCallExpression. pose proof returns_parseExpressionList.
  returns_all. now apply exprOK_call.
Qed.

Lemma returns_parseIndexExpression leftExpr :
  exprOK leftExpr -> returns (parseIndexExpression pe leftExpr) exprOK.
Proof.
  intros L. unfold parseIndexExpression. returns_all;
    first [apply exprOK_None | now apply exprOK_index].
Qed.

Lemma returns_parseSelectorExpression leftExpr :
  exprOK leftExpr -> returns (parseSelectorExpression leftExpr) exprOK.
Proof.
  intros L. unfold parseSelectorExpression. returns_all;
    first [apply exprOK_None | now apply exprOK_selector].
Qed.

Lemma returns_prefixParseFns n t prefix :
  prefixParseFns pe n t = Some prefix -> returns prefix exprOK.
Proof.
  destruct t; simpl; intros E; inversion E; subst;
    auto using returns_parseIdentifier, returns_parseIntegerLiteral,
      returns_parseFloatLiteral, returns_parseStringLiteral,
      returns_parseBooleanLiteral, returns_parseNilLiteral,
      returns_parsePrefixExpression, returns_parseGroupedExpression,
      returns_parseArrayLiteral, returns_parseMapLiteral.
Qed.

Lemma returns_infixParseFns n t infix leftExpr :
  infixParseFns pe n t = Some infix -> exprOK leftExpr ->
  returns (infix leftExpr) exprOK.
Proof.
  destruct t; simpl; intros E; inversion E; subst;
    auto using returns_parseInfixExpression, returns_parseCallExpression,
      returns_parseIndexExpression, returns_parseSelectorExpression.
Qed.

Lemma returns_climb n fns precedence leftExpr :
  exprOK leftExpr -> returns (climb pe n fns precedence leftExpr) exprOK.
Proof.
  revert leftExpr. induction n as [|n IH]; intros leftExpr L; simpl.
  - eapply returns_bind; [apply returns_any | intros pk _].
    destruct (continues precedence pk); [|now apply returns_ret].
    destruct (infixParseFns pe fns (Type_ pk));
      [apply returns_outOfFuel | now apply returns_ret].
  - eapply returns_bind; [apply returns_any | intros pk _].
    destruct (continues precedence pk); [|now apply returns_ret].
    destruct (infixParseFns pe fns (Type_ pk)) eqn:E; [|now apply returns_ret].
    eapply returns_bind; [apply returns_any | intros ? _].
    eapply returns_bind;
      [eapply returns_infixParseFns; eauto | intros leftExpr' L'].
    now apply IH.
Qed.

Lemma returns_parseExpression_body n precedence :
  returns (parseExpression_body pe n precedence) exprOK.
Proof.
  unfold parseExpression_body.
  eapply returns_bind; [apply returns_any | intros c _].
  destruct (prefixParseFns pe n (Type_ c)) eqn:E.
  - eapply returns_bind; [eapply returns_prefixParseFns; eauto|].
    intros leftExpr L. now apply returns_climb.
  - eapply returns_bind; [apply returns_any | intros ? _].
    apply returns_ret, exprOK_None.
Qed.

End Expressions.

Lemma returns_parseExpression fuel precedence :
  returns (parseExpression fuel precedence) exprOK.
Proof.
  revert precedence. induction fuel as [|f IH]; intros precedence; simpl;
    apply returns_parseExpression_body; auto.
  intros. apply returns_outOfFuel.
Qed.

(** ** Statements that the generator accepts *)

Definition stmtOK (stmt : ast.Statement) : Prop :=
  forall g, codegen.generateStatement float stmt g <> None.

Definition blockOK (b : ast.BlockStmt) : Prop :=
  forall g, codegen.generateBlockStmt float b g <> None.

(** A statement slot: the nil interface is skipped by the generator. *)
Definition slotOK (stmt : option ast.Statement) : Prop :=
  match stmt with
  | Some s => stmtOK s
  | None => True
  end.

(** Use the facts of the context about the parts of a statement. *)
Ltac parts :=
  unfold stmtOK, blockOK, exprOK in *; unfold codegen.bind;
  repeat match goal with
  | H : forall g, ?f g <> None |- context [?f ?x] =>
      let E := fresh "E" in
      destruct (f x) eqn:E; [|now apply H in E]
  | H : ?x <> None |- context [match ?x with _ => _ end] =>
      destruct x; [|congruence]
  end;
  try discriminate.

Lemma stmtOK_VarDecl name type value isWalrus :
  exprOK value ->
  stmtOK (ast.VarDeclPtr (Some (ast.mkVarDecl name type value isWalrus))).
Proof.
  intros V g. unfold exprOK in V.
  cbn [codegen.generateStatement]. unfold codegen.generateVarDecl.
  cbn [ast.VarDecl_Type ast.VarDecl_Value ast.VarDecl_Name ast.IsWalrus].
  destruct type; [destruct value|]; parts; destruct isWalrus; discriminate.
Qed.

Lemma stmtOK_Return value :
  exprOK value -> stmtOK (ast.ReturnStmtPtr (Some (ast.mkReturnStmt value))).
Proof.
  intros V g. unfold exprOK in V.
  cbn [codegen.generateStatement]. unfold codegen.generateReturnStmt.
  cbn [ast.ReturnStmt_Value]. destruct value; parts.
Qed.

Lemma stmtOK_Expression e :
  exprOK e ->
  stmtOK (ast.ExpressionStmtPtr (Some (ast.mkExpressionStmt e))).
Proof.
  intros V g. unfold exprOK in V.
  cbn [codegen.generateStatement]. unfold codegen.generateExpressionStmt.
  cbn [ast.ExpressionStmt_Expression]. parts.
Qed.

Lemma blockOK_statements statements :
  Forall stmtOK statements -> blockOK (ast.mkBlockStmt statements).
Proof.
  intros F. induction F as [|stmt statements H F IH]; intros g.
  - discriminate.
  - specialize (H g). cbn [codegen.generateBlockStmt]. unfold codegen.bind.
    destruct (codegen.generateStatement float stmt g) as [g1|]; [|congruence].
    exact (IH g1).
Qed.

Lemma stmtOK_Block b : blockOK b -> stmtOK (ast.BlockStmtPtr (Some b)).
Proof. intros B g. exact (B g). Qed.

Lemma stmtOK_Function name parameters returnType body receiver :
  blockOK body ->
  stmtOK (ast.FunctionDeclPtr
            (Some (ast.mkFunctionDecl name parameters returnType (Some body)
                     receiver))).
Proof.
  intros B g. cbn [codegen.generateStatement codegen.generateFunctionDecl].
  parts.
Qed.

Lemma stmtOK_Struct name :
  stmtOK (ast.StructDeclPtr (Some (ast.mkStructDecl name [] []))).
Proof. intros g. discriminate. Qed.

Lemma stmtOK_If condition thenBranch elseBranch :
  exprOK condition -> slotOK thenBranch -> slotOK elseBranch ->
  stmtOK (ast.IfStmtPtr
            (Some (ast.mkIfStmt condition thenBranch elseBranch))).
Proof.
  intros C T E g. cbn [codegen.generateStatement codegen.generateIfStmt].
  destruct thenBranch as [t|], elseBranch as [e|]; cbn [slotOK] in *; parts.
Qed.

Lemma stmtOK_While condition body :
  exprOK condition -> blockOK body ->
  stmtOK (ast.WhileStmtPtr (Some (ast.mkWhileStmt condition (Some body)))).
Proof.
  intros C B g. cbn [codegen.generateStatement codegen.generateWhileStmt].
  parts.
Qed.

Lemma inline_ok stmt :
  stmtOK stmt -> codegen.generateStatementInline float (Some stmt) <> None.
Proof.
  intros H. specialize (H codegen.New). revert H.
  destruct stmt as [d|d|[v|]|s|s|s|s|[e|]|s];
    cbn [codegen.generateStatement codegen.generateStatementInline];
    try discriminate; try congruence;
    try (intros H; exfalso; apply H; reflexivity).
  - unfold codegen.generateVarDecl.
    destruct (ast.VarDecl_Type v); [destruct (ast.VarDecl_Value v) eqn:V|];
      unfold codegen.bind; cbn [codegen.generateExpression codegen.slot];
      repeat match goal with
      | |- context [codegen.generateExpression float ?x] =>
          destruct (codegen.generateExpression float x)
      | |- context [codegen.generateExpression' float ?x] =>
          destruct (codegen.generateExpression' float x)
      end;
      try discriminate; congruence.
  - unfold codegen.generateExpressionStmt, codegen.bind.
    match goal with
    | |- context [codegen.generateExpression float ?x] =>
        destruct (codegen.generateExpression float x)
    end; [discriminate | congruence].
Qed.

Lemma stmtOK_For init condition update body :
  stmtOK init -> exprOK condition -> stmtOK update -> blockOK body ->
  stmtOK (ast.ForStmtPtr
            (Some (ast.mkForStmt (Some init) condition (Some update)
                     (Some body) false EmptyString None))).
Proof.
  intros I C U B g. apply inline_ok in I. apply inline_ok in U.
  cbn [codegen.generateStatement codegen.generateForStmt].
  unfold codegen.forHeader. destruct condition; parts.
Qed.

Lemma stmtOK_For_range rangeVar rangeExpr body :
  exprOK rangeExpr -> blockOK body ->
  stmtOK (ast.ForStmtPtr
            (Some (ast.mkForStmt None None None (Some body) true rangeVar
                     rangeExpr))).
Proof.
  intros R B g.
  assert (H : codegen.forHeader float true rangeVar rangeExpr None None None
              <> None).
  { unfold codegen.forHeader.
    destruct rangeExpr as [[]|]; try (unfold exprOK in R; parts).
    pose proof (exprOK_call_inv _ _ R) as A.
    destruct Function as [[]|]; try discriminate.
    destruct (String.eqb Value "range"); [|discriminate].
    destruct Arguments as [|first rest]; [discriminate|].
    inversion A; subst. parts. }
  cbn [codegen.generateStatement codegen.generateForStmt]. parts.
Qed.

#[local] Hint Resolve stmtOK_VarDecl stmtOK_Return stmtOK_Expression
  blockOK_statements stmtOK_Block stmtOK_Function stmtOK_Struct stmtOK_If
  stmtOK_While stmtOK_For stmtOK_For_range : ok.

(** ** A parse without a new error gives such statements *)

Section Sound.

(** The number of errors when the parse starts. *)
Variable n : nat.


(** [sound m S]: started with at least [n] errors, the method [m] returns a
    result that satisfies [S] unless it reports one more. *)
Definition sound {A} (m : M A) (R : A -> Prop) : Prop :=
  hoare (reported n) m
    (fun r p => reported n p /\ (R r \/ reported (S n) p)).

Lemma sound_bind {A B} (m : M A) (f : A -> M B) R1 R2 :
  sound m R1 -> (forall a, R1 a -> sound (f a) R2) ->
  (forall a, preserves (reported (S n)) (f a)) ->
  sound (bind m f) R2.
Proof.
  intros Hm Hf Hn p Q. unfold bind. specialize (Hm p Q).
  destruct (m p) as [a p1| |]; auto. destruct Hm as [Q1 [Sa|N1]].
  - exact (Hf a Sa p1 Q1).
  - specialize (Hn a p1 N1). destruct (f a p1); auto.
    split; [unfold reported in *; lia | now right].
Qed.

Lemma sound_ret {A} (a : A) (R : A -> Prop) : R a -> sound (ret a) R.
Proof. intros H p Q. split; [exact Q | now left]. Qed.

Lemma sound_outOfFuel {A} (R : A -> Prop) : sound outOfFuel R.
Proof. intros p Q. exact Logic.I. Qed.

Lemma sound_both {A} (m : M A) (R1 R2 : A -> Prop) :
  sound m R1 -> returns m R2 -> sound m (fun r => R1 r /\ R2 r).
Proof.
  intros H1 H2 p Q. specialize (H1 p Q). specialize (H2 p Logic.I).
  destruct (m p); auto. destruct H1 as [Q1 [H1|N]]; auto.
Qed.

Lemma sound_any {A} (m : M A) :
  preserves (reported n) m -> sound m (fun _ => True).
Proof. intros H p Q. specialize (H p Q). destruct (m p); auto. Qed.

Lemma sound_returns {A} (m : M A) (R : A -> Prop) :
  returns m R -> preserves (reported n) m -> sound m R.
Proof.
  intros H1 H2 p Q. specialize (H1 p Logic.I). specialize (H2 p Q).
  destruct (m p); auto.
Qed.

Lemma sound_weaken {A} (m : M A) (R R' : A -> Prop) :
  sound m R -> (forall r, R r -> R' r) -> sound m R'.
Proof.
  intros H W p Q. specialize (H p Q). destruct (m p); auto.
  destruct H as [Q1 [H|N]]; auto.
Qed.

(** [expectPeek] fails only with an error. *)
Lemma sound_expectPeek t : sound (expectPeek t) (fun ok => ok = true).
Proof.
  intros p Q. unfold expectPeek, bind, peekTokenIs.
  destruct (TokenType_eqb (Type_ (peekToken p)) t).
  - pose proof (reported_nextToken n p Q) as H.
    destruct (nextToken p); auto. unfold ret. auto.
  - unfold peekError, bind, peek, addError, ret. cbn [errors].
    unfold reported in *. cbn [errors]. rewrite length_app. simpl.
    split; [lia | right; lia].
Qed.

Lemma sound_parseExpression fuel precedence :
  sound (parseExpression fuel precedence) exprOK.
Proof.
  apply sound_returns; [apply returns_parseExpression|].
  apply grow_parseExpression.
Qed.

Create HintDb sound.
#[local] Hint Resolve sound_expectPeek sound_parseExpression : sound.

Ltac sound_step :=
  match goal with
  | H : ?b = true |- sound (if negb ?b then _ else _) _ =>
      rewrite H; cbn [negb]
  | |- sound (bind _ _) _ =>
      eapply sound_bind;
      [ first [ solve [eauto 4 with sound ok nocore]
              | apply sound_any; solve [grow] ]
      | intros ? ?; cbv beta in *
      | intros ?; solve [grow] ]
  | |- sound (ret _) _ => apply sound_ret
  | |- sound outOfFuel _ => apply sound_outOfFuel
  | |- sound (if ?b then _ else _) _ => destruct b
  | |- sound (match ?x with _ => _ end) _ => destruct x
  end.

Ltac sound_all := repeat (cbv zeta; sound_step).

Lemma sound_parseVarDeclaration fuel :
  sound (parseVarDeclaration fuel) (fun r => stmtOK (ast.VarDeclPtr r)).
Proof.
  unfold parseVarDeclaration. sound_all; auto with ok.
Qed.

Lemma sound_parseReturnStatement fuel :
  sound (parseReturnStatement fuel)
    (fun r => stmtOK (ast.ReturnStmtPtr (Some r))).
Proof.
  unfold parseReturnStatement. sound_all; auto with ok.
Qed.

Lemma sound_parseExpressionStatement fuel :
  sound (parseExpressionStatement fuel)
    (fun r => stmtOK (ast.ExpressionStmtPtr (Some r))).
Proof.
  unfold parseExpressionStatement. sound_all; auto with ok.
Qed.

Lemma slotOK_Some stmt : stmtOK stmt -> slotOK (Some stmt).
Proof. intros H. exact H. Qed.

Lemma slotOK_None : slotOK None.
Proof. exact Logic.I. Qed.

#[local] Hint Resolve slotOK_Some slotOK_None : ok.

Section Statements.

Variable fuel : nat.
Variable ps : M ast.Statement.
Hypothesis grow_ps : forall k, preserves (reported k) ps.
Hypothesis sound_ps : sound ps stmtOK.

Lemma sound_blockStatements i stmts :
  Forall stmtOK stmts -> sound (blockStatements ps i stmts) (Forall stmtOK).
Proof.
  revert stmts. induction i as [|i IH]; intros stmts F; simpl; sound_all;
    auto.
  apply IH. apply Forall_app. auto.
Qed.

Lemma sound_parseBlockStatement : sound (parseBlockStatement fuel ps) blockOK.
Proof.
  unfold parseBlockStatement. pose proof sound_blockStatements.
  sound_all. auto with ok.
Qed.

Lemma sound_parseFunctionDeclaration :
  sound (parseFunctionDeclaration fuel ps)
    (fun r => stmtOK (ast.FunctionDeclPtr r)).
Proof.
  unfold parseFunctionDeclaration. pose proof sound_parseBlockStatement.
  sound_all; auto with ok.
Qed.

Lemma returns_parseStructDeclaration :
  returns (parseStructDeclaration fuel ps)
    (fun r => match r with
              | Some d => ast.Fields d = [] /\ ast.Methods d = []
              | None => True
              end).
Proof.
  intros p _.
  destruct (parseStructDeclaration fuel ps p) as [[d|] p'| |] eqn:E; auto.
  eapply parseStructDeclaration_empty; eauto.
Qed.

Lemma sound_parseStructDeclaration :
  sound (parseStructDeclaration fuel ps)
    (fun r => stmtOK (ast.StructDeclPtr r)).
Proof.
  assert (H : sound (parseStructDeclaration fuel ps) (fun r => r <> None)).
  { unfold parseStructDeclaration. sound_all. discriminate. }
  eapply sound_weaken;
    [exact (sound_both _ _ _ H returns_parseStructDeclaration)|].
  intros [[name fields methods]|] [N E]; [|congruence].
  destruct E as [F Ms]. cbn [ast.Fields ast.Methods] in *. subst.
  apply stmtOK_Struct.
Qed.

Lemma sound_parseIfStatement i :
  sound (parseIfStatement fuel ps i) (fun r => stmtOK (ast.IfStmtPtr r)).
Proof.
  pose proof sound_parseBlockStatement.
  induction i as [|i IH]; simpl; sound_all; auto 6 with ok.
Qed.

Lemma sound_parseWhileStatement :
  sound (parseWhileStatement fuel ps) (fun r => stmtOK (ast.WhileStmtPtr r)).
Proof.
  unfold parseWhileStatement. pose proof sound_parseBlockStatement.
  sound_all; auto with ok.
Qed.

Lemma sound_parseForStatement :
  sound (parseForStatement fuel ps) (fun r => stmtOK (ast.ForStmtPtr r)).
Proof.
  unfold parseForStatement. pose proof sound_parseBlockStatement.
  sound_step. sound_step.
  eapply sound_bind with
    (R1 := fun header =>
             match header with
             | Some stmt =>
                 forall body, blockOK body ->
                   stmtOK (ast.ForStmtPtr (Some (stmt (Some body))))
             | None => False
             end).
  - sound_all; intros body B; auto with ok.
  - intros [stmt|] S; [|destruct S]. sound_all. auto.
  - intros header. grow.
Qed.

Lemma sound_parseStatement_body : sound (parseStatement_body fuel ps) stmtOK.
Proof.
  unfold parseStatement_body.
  pose proof sound_parseFunctionDeclaration.
  pose proof sound_parseStructDeclaration.
  pose proof sound_parseVarDeclaration.
  pose proof sound_parseIfStatement.
  pose proof sound_parseForStatement.
  pose proof sound_parseWhileStatement.
  pose proof sound_parseReturnStatement.
  pose proof sound_parseExpressionStatement.
  sound_all; assumption.
Qed.

End Statements.

Lemma sound_parseStatement fuel : sound (parseStatement fuel) stmtOK.
Proof.
  induction fuel as [|f IH]; simpl; apply sound_parseStatement_body; auto.
  - intros k. apply preserves_timeout.
  - apply sound_outOfFuel.
  - intros k. apply grow_parseStatement.
Qed.

Lemma sound_statements i fuel acc :
  Forall stmtOK acc -> sound (statements i fuel acc) (Forall stmtOK).
Proof.
  pose proof sound_parseStatement.
  revert acc. induction i as [|i IH]; intros acc F; simpl; sound_all; auto.
  apply IH. apply Forall_app. auto.
Qed.

Lemma sound_ParseProgram fuel :
  sound (ParseProgram fuel)
    (fun program => Forall stmtOK (ast.Program_Statements program)).
Proof.
  unfold ParseProgram. pose proof sound_statements.
  sound_all. assumption.
Qed.

End Sound.

Lemma topLevel_ok stmts g :
  Forall stmtOK stmts -> codegen.topLevel float stmts g <> None.
Proof.
  intros F. revert g. induction F as [|stmt stmts H F IH]; intros g; simpl.
  - discriminate.
  - unfold codegen.bind. specialize (H g).
    destruct (codegen.generateStatement float stmt g) as [g1|]; [|congruence].
    destruct stmts; [discriminate | apply IH].
Qed.

(** The statements of a program parsed without an error. *)
Lemma parsed_statements_ok source fuel program p :
  parse fuel source = Done program p -> Errors p = [] ->
  Forall stmtOK (ast.Program_Statements program).
Proof.
  unfold parse. destruct (New (lexer.New source)) as [[] p0| |] eqn:E;
    try discriminate.
  intros H Z. pose proof (sound_ParseProgram 0 fuel p0) as P.
  rewrite H in P. destruct P as [_ [F|N]].
  - unfold reported. lia.
  - exact F.
  - unfold reported, Errors in *. rewrite Z in N. simpl in N. lia.
Qed.

Lemma Generate_ok program :
  Forall stmtOK (ast.Program_Statements program) ->
  exists text, codegen.Generate float program = Some text.
Proof.
  intros F. unfold codegen.Generate. cbv zeta. unfold codegen.bind.
  match goal with
  | |- context [codegen.topLevel float ?stmts ?g] =>
      pose proof (topLevel_ok stmts g F) as T;
      destruct (codegen.topLevel float stmts g) as [g1|]; [|congruence]
  end.
  eauto.
Qed.

(** X24: the generator accepts every program that the parser returns
    without an error: when [New] and [ParseProgram] return with an empty
    error list, [Generate] returns the text of a program; it dereferences
    no nil pointer and no type assertion in it fails. *)
Theorem parsed_programs_are_generated (source : string) (fuel : nat)
    (program : ast.Program) (p : Parser) :
  parse fuel source = Done program p -> Errors p = [] ->
  exists text, codegen.Generate float program = Some text.
Proof.
  intros H Z. apply Generate_ok. exact (parsed_statements_ok _ _ _ _ H Z).
Qed.

End Generated.

Definition main_source : string :=
  "func main():" ++ String LF "    total := 1 + 2"
  ++ String LF "    return total" ++ String LF EmptyString.

Lemma parsed_programs_are_generated_witness :
  exists program p,
    parse 100 main_source = Done program p /\ Errors p = []
    /\ exists text,
         codegen.Generate (fun _ _ => EmptyString) program = Some text.
Proof.
  assert (E : {r | parse 100 main_source = Done (fst r) (snd r)
                   /\ Errors (snd r) = []})
    by (eexists (_, _); split; vm_compute; reflexivity).
  destruct E as [[program p] [E Z]]. cbn [fst snd] in *.
  exists program, p. split; [exact E|]. split; [exact Z|].
  exact (parsed_programs_are_generated (fun _ _ => EmptyString) main_source
           100 program p E Z).
Defined.

End CompilerFacts.

(** * Properties of the compiler driver *)

Module DriverFacts.
Import lexer parser LexerFacts ParserFacts TokenFacts CursorFacts WordFacts
  ProgramFacts strings main.
Local Open Scope parser_scope.

(** ** Lines *)

Lemma Split_not_nil s sep : Split s sep <> [].
Proof.
  destruct s as [|c s]; simpl; [discriminate|].
  destruct (Ascii.eqb c sep); [discriminate|].
  destruct (Split s sep); discriminate.
Qed.

(** The first line of a text. *)
Lemma Split_line a b :
  has_byte LF a = false -> Split (a ++ String LF b) LF = a :: Split b LF.
Proof.
  unfold has_byte. induction a as [|c a IH];
    cbn [append Split list_ascii_of_string existsb]; intros H.
  - now rewrite Ascii.eqb_refl.
  - apply orb_false_iff in H. destruct H as [H1 H2].
    rewrite Ascii.eqb_sym, H1, IH by assumption. reflexivity.
Qed.

Lemma Join_cons x l sep :
  l <> [] -> Join (x :: l) sep = x ++ sep ++ Join l sep.
Proof. unfold Join. destruct l; [congruence | reflexivity]. Qed.

(** Joining the lines of a text gives the text back. *)
Lemma Join_Split s : Join (Split s LF) LFs = s.
Proof.
  induction s as [|c s IH]; simpl; [reflexivity|].
  destruct (Ascii.eqb_spec c LF) as [->|N].
  - rewrite Join_cons by apply Split_not_nil. now rewrite IH.
  - destruct (Split s LF) as [|part parts] eqn:E;
      [now apply Split_not_nil in E|].
    rewrite <- IH. unfold Join. destruct parts; reflexivity.
Qed.

Lemma Join_lines (f : string -> string) xs l sep :
  l <> [] ->
  Join (map f xs ++ l) sep
  = String.concat EmptyString (map (fun x => f x ++ sep) xs) ++ Join l sep.
Proof.
  intros N. induction xs as [|x xs IH]; [reflexivity|].
  cbn [map app]. rewrite Join_cons.
  - rewrite IH. cbn [String.concat].
    destruct (map (fun x0 => f x0 ++ sep) xs) eqn:E.
    + destruct xs; [|discriminate]. simpl.
      now rewrite GeneratorFacts.append_assoc.
    + rewrite <- E. simpl. now rewrite !GeneratorFacts.append_assoc.
  - destruct xs; simpl; [exact N | discriminate].
Qed.

(** After the import section is added the loop only copies the lines. *)
Lemma scan_rest imports lines res found :
  exists found',
    fold_left (scanLine imports) lines (mkScan res found true)
    = mkScan (res ++ lines) found' true.
Proof.
  revert res found. induction lines as [|line lines IH]; intros res found.
  - exists found. now rewrite app_nil_r.
  - cbn [fold_left]. unfold scanLine at 2.
    cbn [result packageFound importSectionAdded negb].
    rewrite andb_false_r. cbn [andb].
    destruct (IH (res ++ [line])%list
                (if HasPrefix line "package " then true else found))
      as [found' E].
    exists found'. rewrite E. now rewrite <- app_assoc.
Qed.

Lemma requiredImports_fmt code :
  exists more, requiredImports code = quoted "fmt" :: more.
Proof.
  unfold requiredImports. cbv zeta.
  repeat match goal with
  | |- context [if ?b then _ else _] => destruct b
  end; cbn [app]; eauto.
Qed.

(** The loop over the lines of a text that begins with a package clause and
    an empty line. *)
Lemma scan_code imports name rest :
  has_byte LF name = false ->
  exists found,
    fold_left (scanLine imports)
      (Split ("package " ++ name ++ LFs ++ LFs ++ rest) LF)
      (mkScan [] false false)
    = mkScan (("package " ++ name) :: EmptyString
              :: (importSection imports ++ Split rest LF)%list) found true.
Proof.
  intros N.
  assert (L : Split ("package " ++ name ++ LFs ++ LFs ++ rest) LF
              = ("package " ++ name) :: EmptyString :: Split rest LF).
  { unfold LFs.
    change ("package " ++ name ++ String LF EmptyString
            ++ String LF EmptyString ++ rest)
      with ("package " ++ (name ++ String LF (EmptyString ++ String LF rest))).
    rewrite <- GeneratorFacts.append_assoc.
    rewrite Split_line by exact N.
    now rewrite (Split_line EmptyString rest). }
  rewrite L. cbn [fold_left]. unfold scanLine at 3.
  cbn [result packageFound importSectionAdded negb app].
  replace (HasPrefix ("package " ++ name) "package ") with true
    by (unfold HasPrefix; cbn; now destruct name).
  cbn [andb String.eqb append Ascii.eqb Bool.eqb].
  unfold scanLine at 2.
  cbn [result packageFound importSectionAdded negb app HasPrefix
       String.prefix andb String.eqb].
  destruct (scan_rest imports (Split rest LF)
              (["package " ++ name; EmptyString] ++ importSection imports)
              true) as [found E].
  exists found. cbn [app append] in *. rewrite E. reflexivity.
Qed.

(** The import section that [addRequiredImports] inserts. *)
Definition inserted (code : string) : string :=
  "import (" ++ LFs
  ++ String.concat EmptyString
       (map (fun imp => String TAB imp ++ LFs) (requiredImports code))
  ++ ")" ++ LFs ++ LFs.

Lemma addRequiredImports_inserts name rest :
  has_byte LF name = false ->
  addRequiredImports ("package " ++ name ++ LFs ++ LFs ++ rest)
  = "package " ++ name ++ LFs ++ LFs
    ++ inserted ("package " ++ name ++ LFs ++ LFs ++ rest) ++ rest.
Proof.
  intros N. set (code := "package " ++ name ++ LFs ++ LFs ++ rest).
  unfold addRequiredImports, inserted. cbv zeta.
  destruct (requiredImports_fmt code) as [more F].
  set (imports := requiredImports code) in *.
  replace (0 <? List.length imports)%nat with true by now rewrite F.
  destruct (scan_code imports name rest N) as [found E].
  fold code in E. rewrite E.
  cbn [result packageFound importSectionAdded negb]. rewrite andb_false_r.
  unfold importSection. cbn [app]. rewrite <- !app_assoc. cbn [app].
  rewrite !Join_cons
    by first [ discriminate
             | intros H; apply app_eq_nil in H; destruct H; discriminate ].
  rewrite Join_lines by discriminate.
  rewrite !Join_cons by first [discriminate | apply Split_not_nil].
  fold LFs. rewrite Join_Split.
  repeat first [rewrite GeneratorFacts.append_assoc | progress cbn [append]].
  reflexivity.
Qed.

(** X26: on a text that begins with a package clause and an empty line,
    [addRequiredImports] inserts one import section right after that empty
    line and changes nothing else, whether the text has an import section
    already or not.  The section lists the packages of [requiredImports],
    each on a line after a tab, and the first of them is ["fmt"]. *)
Theorem addRequiredImports_after_package (name rest : string) :
  has_byte LF name = false ->
  let code := "package " ++ name ++ LFs ++ LFs ++ rest in
  addRequiredImports code
  = "package " ++ name ++ LFs ++ LFs
    ++ "import (" ++ LFs
    ++ String.concat EmptyString
         (map (fun imp => String TAB imp ++ LFs) (requiredImports code))
    ++ ")" ++ LFs ++ LFs ++ rest
  /\ exists more, requiredImports code = quoted "fmt" :: more.
Proof.
  intros N code. split; [|apply requiredImports_fmt].
  unfold code. rewrite addRequiredImports_inserts by exact N.
  unfold inserted.
  repeat first [rewrite GeneratorFacts.append_assoc | progress cbn [append]].
  reflexivity.
Qed.

Lemma addRequiredImports_after_package_witness :
  has_byte LF "main" = false
  /\ addRequiredImports
       ("package " ++ "main" ++ LFs ++ LFs ++ "var t = time.Now()" ++ LFs)
     = "package " ++ "main" ++ LFs ++ LFs
       ++ "import (" ++ LFs
       ++ String TAB (quoted "fmt") ++ LFs
       ++ String TAB (quoted "time") ++ LFs
       ++ ")" ++ LFs ++ LFs ++ "var t = time.Now()" ++ LFs.
Proof.
  split; [reflexivity|].
  destruct (addRequiredImports_after_package "main"
              ("var t = time.Now()" ++ LFs)) as [E _]; [reflexivity|].
  cbv zeta in E. rewrite E. reflexivity.
Defined.

(** ** The name of the package *)









(** ** The driver *)

Section Driver.

Variable float : Z -> Z -> string.


End Driver.


End DriverFacts.
